(** * GyroTracker: gyroscope-aided feature matching (aslam_cv_tracker)

    A shallow embedding of [feature-tracker-gyro.cc]: the precondition
    checks of [GyroTracker::track] and the matcher
    [GyroTracker::matchFeatures] with its row lookup table, its descriptor
    comparator and its narrow/wide window search.

    Conventions of the embedding.
    - Pixel coordinates are C++ [double]s; they are modelled as exact
      rationals [Q], and the rounding of the sums and differences of
      [double]s is not modelled. The conversion of a [double] to [int]
      drops the fractional part and is defined only when the result is a
      value of [int] ([double_to_int]).
    - [int] values that can be negative (clamped rows, column bounds,
      scores) are [Z]; sizes, vector offsets and keypoint indices are
      [nat]. The 32-bit bounds of the sizes are not reached for the sizes
      the tracker handles and are not modelled, except where the source
      relies on them (see [image_height_minus_1]).
    - The function-local statics of [matchFeatures] keep the value of the
      first call; the matcher takes that value as a parameter
      ([kdescriptorSizeBytes]).
    - A call that does not return is [None] in the [option] monad: a
      failed glog [CHECK], an exception of [std::vector::at], a read
      outside a container or past the end of a descriptor view, and a
      conversion to [int] whose behaviour is undefined. *)

From Stdlib Require Import ZArith QArith Qround Lia Lra Psatz.
From Stdlib Require Import Sorting.Sorted.
From stdpp Require Import base option list sorting.

(** ** Checks and loops *)

(** [CHECK(cond)]: continue when [cond] holds, abort otherwise. *)
Definition CHECK (cond : bool) : option unit :=
  if cond then Some tt else None.

(** A [for] loop over the elements of [l] whose body can abort. *)
Fixpoint for_each {S A : Type} (body : S → A → option S) (s : S) (l : list A)
  : option S :=
  match l with
  | [] => Some s
  | a :: l' => s' ← body s a; for_each body s' l'
  end.

(** ** Descriptor comparator *)

(** A descriptor is the byte view [const unsigned char*] of one column of
    the descriptor matrix. *)
Definition Descriptor := list Z.

(** Conversion to [unsigned char]. *)
Definition to_uchar (z : Z) : Z := (z mod 256)%Z.

(** [while(val) { ++distance; val &= val - 1; }]: every round clears the
    lowest set bit of [val]. The pair returned is [(val, distance)] at
    the exit; [fuel] bounds the number of rounds. *)
Fixpoint clear_lowest_bits (fuel : nat) (val distance : Z) : Z * Z :=
  match fuel with
  | O => (val, distance)
  | S fuel' =>
      if (val =? 0)%Z then (val, distance)
      else clear_lowest_bits fuel'
             (to_uchar (Z.land val (val - 1))) (distance + 1)%Z
  end.

(** The body of the [for] loop of [hammingDistance512] at byte [i]. An
    [unsigned char] has eight bits, so eight rounds empty [val], see
    [clear_lowest_bits_bytes]. The bytes [*(x + i)] and [*(y + i)] are
    those of the two views. The matcher calls the comparator only on
    views that hold the bytes it reads (see [readable]); past the end of
    a view the function reads 0. *)
Definition hamming_byte (x y : Descriptor) (distance : Z) (i : nat) : Z :=
  let val := to_uchar (Z.lxor (nth i x 0%Z) (nth i y 0%Z)) in
  snd (clear_lowest_bits 8 val distance).

(** [hammingDistance512], closed over [kdescriptorSizeBytes]. The final
    [CHECK_LE(distance, kdescriptorSizeBytes * 8)] cannot fail, see
    [hammingDistance512_le]. *)
Definition hammingDistance512 (kdescriptorSizeBytes : nat) (x y : Descriptor)
  : Z :=
  fold_left (hamming_byte x y) (seq 0 kdescriptorSizeBytes) 0%Z.

(** The spec's words: the number of differing bits of two bytes, and of
    two descriptors of [L] bytes. *)
Definition differing_bits_byte (a b : Z) : Z :=
  Z.of_nat (length (filter
    (λ k : nat, xorb (Z.testbit a (Z.of_nat k)) (Z.testbit b (Z.of_nat k)) = true)
    (seq 0 8))).

Definition differing_bits (L : nat) (x y : Descriptor) : Z :=
  fold_right (λ i acc, (differing_bits_byte (nth i x 0%Z) (nth i y 0%Z) + acc)%Z)
    0%Z (seq 0 L).

(** The values of an [unsigned char]. *)
Definition is_byte (b : Z) : Prop := (0 ≤ b < 256)%Z.

(** All of them, for the properties that are checked byte by byte. *)
Definition all_bytes : list Z := map Z.of_nat (seq 0 256).


(** The comparator reads [L] bytes of each of its two views. A view holds
    the bytes of one descriptor, a column of the descriptor matrix; what
    lies behind it, the next column or memory outside the matrix, is not
    modelled, and a read past the end of a view ends the call here. It
    can happen only in a call of a program whose static is larger than
    the descriptor size of the frames of the call. *)
Definition readable (L : nat) (x : Descriptor) : option unit :=
  if L <=? length x then Some tt else None.

(** ** Numeric conversions *)

(** The values of [int]. *)
Definition INT_MIN : Z := (-2147483648)%Z.
Definition INT_MAX : Z := 2147483647%Z.

(** The integral part of [q]: the fractional part is dropped. *)
Definition truncate (q : Q) : Z := Z.quot (Qnum q) (Zpos (Qden q)).

(** Conversion of a [double] to [int], explicit with [static_cast<int>] or
    implicit where a [double] initialises an [int]: the fractional part
    is dropped; the behaviour is undefined when the integral part is not
    a value of [int]. *)
Definition double_to_int (q : Q) : option Z :=
  let z := truncate q in
  if ((INT_MIN <=? z) && (z <=? INT_MAX))%Z then Some z else None.

(** [a < b] on coordinates. *)
Definition Qltb (a b : Q) : bool := negb (Qle_bool b a).

(** The [clamp] lambda: [std::min<int>(std::max<int>(in, lower), upper)]. *)
Definition clamp (lower upper in_ : Z) : Z := Z.min (Z.max in_ lower) upper.

(** [image_height - 1] is computed on [uint32_t] and then converted to
    [int]: it is [-1] for an image height of zero and the predecessor
    otherwise, which is the subtraction of [Z]. *)
Definition image_height_minus_1 (image_height : nat) : Z :=
  (Z.of_nat image_height - 1)%Z.

(** [(a - b).norm() < bound] for an [int] bound, without the square
    root. *)
Definition norm_lt (a b : Q * Q) (bound : Z) : bool :=
  (0 <? bound)%Z &&
  Qltb ((fst a - fst b) * (fst a - fst b) + (snd a - snd b) * (snd a - snd b))%Q
       (inject_Z (bound * bound)).

(** ** Frames, camera and matching data *)

(** Modelled from the spec: the constants [kSmallSearchDistance],
    [kLargeSearchDistance] and [kMatchingThresholdBitsRatio] are declared
    in feature-tracker-gyro.h, which is not among the sources. The spec
    lists them as the small and the large search radius in pixels and the
    match threshold as a fraction of the descriptor bits. *)
Class GyroTrackerConstants := {
  kSmallSearchDistance : Z;
  kLargeSearchDistance : Z;
  kMatchingThresholdBitsRatio : Q
}.

(** Modelled from the spec: the camera collaborator (aslam/cameras/camera.h
    is not among the sources) gives a stable geometry identifier and the
    image height in pixels. *)
Record Camera := {
  getId : Z;
  imageHeight : nat
}.

(** The descriptor matrix of a frame: one column of [desc_rows] bytes per
    keypoint. *)
Record DescriptorsT := {
  desc_rows : nat;
  desc_cols : list Descriptor
}.

(** Modelled from the spec: the frame collaborator (aslam/frames/visual-frame.h
    is not among the sources). A frame may or may not carry keypoint
    measurements (one 2D pixel position (column, row) per keypoint), track
    identifiers and descriptors; it has a configured descriptor byte
    length, a camera geometry (a null pointer is [None]) and a capture
    timestamp. *)
Record VisualFrame := {
  keypoint_measurements_ : option (list (Q * Q));
  track_ids_ : option (list Z);
  descriptors_ : option DescriptorsT;
  getDescriptorSizeBytes : nat;
  getCameraGeometry : option Camera;
  getTimestampNanoseconds : Z
}.

Definition hasKeypointMeasurements (f : VisualFrame) : bool :=
  bool_decide (is_Some (keypoint_measurements_ f)).
Definition hasTrackIds (f : VisualFrame) : bool :=
  bool_decide (is_Some (track_ids_ f)).
Definition hasDescriptors (f : VisualFrame) : bool :=
  bool_decide (is_Some (descriptors_ f)).

(** [frame.getDescriptor(i)]: the byte view of column [i]; the accessor
    aborts on a frame without descriptors or without that column. *)
Definition getDescriptor (f : VisualFrame) (i : nat) : option Descriptor :=
  d ← descriptors_ f; desc_cols d !! i.

(** [KeypointData]: a measurement (column, row) and the index of the
    keypoint in its frame. *)
Record KeypointData := {
  measurement : Q * Q;
  index : nat
}.

Definition col_of (k : KeypointData) : Q := fst (measurement k).
Definition row_of (k : KeypointData) : Q := snd (measurement k).

(** Modelled from the spec: [GyroTrackerMatchingData]
    (feature-tracker-gyro-matching-data.h is not among the sources) holds
    the keypoints of frame k+1 with their frame indices, ordered by row,
    one predicted position in frame k+1 per keypoint of frame k, and the
    descriptor length in bytes. [num_points_kp1] and [num_points_k] are the
    sizes of the two containers. *)
Record GyroTrackerMatchingData := {
  keypoints_kp1_by_y : list KeypointData;
  predicted_keypoint_positions_kp1 : list (Q * Q);
  descriptor_size_bytes_ : nat
}.

Definition num_points_kp1 (md : GyroTrackerMatchingData) : nat :=
  length (keypoints_kp1_by_y md).
Definition num_points_k (md : GyroTrackerMatchingData) : nat :=
  length (predicted_keypoint_positions_kp1 md).

(** [MatchWithScore(index in frame k+1, index in frame k, score)]. *)
Record MatchWithScore := {
  index_kp1 : nat;
  index_k : nat;
  score : Q
}.

(** ** Row lookup table *)

(** The inner loop of the table construction,
    [while (v < num_points_kp1 && y > keypoints_kp1_by_y[v].measurement(1)) ++v],
    run on [rest], the keypoints from offset [v] on: [v < num_points_kp1]
    fails exactly when [rest] is empty. *)
Fixpoint advance_cursor (y : nat) (rest : list KeypointData) (v : nat) : nat :=
  match rest with
  | [] => v
  | k :: rest' =>
      if Qltb (row_of k) (inject_Z (Z.of_nat y))
      then advance_cursor y rest' (S v)
      else v
  end.

(** One round of the [for] loop over the rows: advance [v], push it. *)
Definition corner_row_LUT_step (kps : list KeypointData)
    (st : nat * list nat) (y : nat) : nat * list nat :=
  let v := advance_cursor y (drop (fst st) kps) (fst st) in
  (v, snd st ++ [v]).

Definition corner_row_LUT_loop (kps : list KeypointData) (image_height : nat)
  : nat * list nat :=
  fold_left (corner_row_LUT_step kps) (seq 0 image_height) (0, []).

Definition corner_row_LUT (md : GyroTrackerMatchingData) (image_height : nat)
  : list nat :=
  snd (corner_row_LUT_loop (keypoints_kp1_by_y md) image_height).

(** The number of keypoints whose row is strictly less than [r]. *)
Definition count_rows_below (r : nat) (kps : list KeypointData) : nat :=
  length (List.filter (λ k, Qltb (row_of k) (inject_Z (Z.of_nat r))) kps).

(** The keypoints between two iterators [begin() + b] and [begin() + e].
    The loops run [it] from the first to the second with [++it] and
    [it != end]; they read outside the vector if the first is past the
    second or the second is past the end, which ends the call here.
    Neither happens for the entries of the table, see
    [window_corners_total]. *)
Definition iterator_range (kps : list KeypointData) (b e : nat)
  : option (list KeypointData) :=
  CHECK (b <=? e);; CHECK (e <=? length kps);; Some (take (e - b) (drop b kps)).

(** ** Window search *)

(** The variables of the search for one keypoint of frame k. *)
Record SearchState := {
  found : bool;
  n_processed_corners : nat;
  it_best : option KeypointData;
  best_score : Z;
  processed_corners_kp1 : list bool
}.

(** The clamped rows [idx[0]], [idx[1]] of a window of the given search
    distance around the predicted row: the two sums are [double]s that are
    converted to the [int] parameter of [clamp]. *)
Definition search_rows (image_height : nat) (predicted : Q * Q)
    (search_distance : Z) : option (Z * Z) :=
  top ← double_to_int (snd predicted + (1 # 2) - inject_Z search_distance)%Q;
  bottom ← double_to_int (snd predicted + (1 # 2) + inject_Z search_distance)%Q;
  Some (clamp 0 (image_height_minus_1 image_height) top,
        clamp 0 (image_height_minus_1 image_height) bottom).

(** The [CHECK]s on a pair of clamped rows. *)
Definition check_rows (image_height : nat) (idx : Z * Z) : option unit :=
  CHECK (fst idx <=? snd idx)%Z;;
  CHECK (0 <=? fst idx)%Z;;
  CHECK (0 <=? snd idx)%Z;;
  CHECK (fst idx <? Z.of_nat image_height)%Z;;
  CHECK (snd idx <? Z.of_nat image_height)%Z.

(** The corners between [corner_row_LUT[top]] and
    [corner_row_LUT[bottom]], where [top = min(idx[0], image_height - 1)]
    and [bottom = min(idx[1] + 1, image_height - 1)]. *)
Definition window_corners (md : GyroTrackerMatchingData) (image_height : nat)
    (LUT : list nat) (idx : Z * Z) : option (list KeypointData) :=
  let top := Z.min (fst idx) (image_height_minus_1 image_height) in
  let bottom := Z.min (snd idx + 1) (image_height_minus_1 image_height) in
  corners_begin ← LUT !! Z.to_nat top;
  corners_end ← LUT !! Z.to_nat bottom;
  iterator_range (keypoints_kp1_by_y md) corners_begin corners_end.

(** [const int bound_left = predicted(0) - distance] and
    [const int bound_right = predicted(0) + distance]: the two column
    bounds of a window, [double]s converted to [int]. *)
Definition column_bounds (search_distance : Z) (predicted : Q * Q)
  : option (Z * Z) :=
  bound_left ← double_to_int (fst predicted - inject_Z search_distance)%Q;
  bound_right ← double_to_int (fst predicted + inject_Z search_distance)%Q;
  Some (bound_left, bound_right).

(** [it->measurement(0) < bound_left || it->measurement(0) > bound_right]. *)
Definition outside_columns (bounds : Z * Z) (it : KeypointData) : bool :=
  Qltb (col_of it) (inject_Z (fst bounds))
  || Qltb (inject_Z (snd bounds)) (col_of it).

Section Matcher.
Context `{GyroTrackerConstants}.

(** [const static unsigned int kdescriptorSizeBytes =
    matching_data.descriptor_size_bytes_] (line 68) is a function-local
    static: the first call of [matchFeatures] in the program initialises
    it, and it keeps that value in every later call, whatever the
    descriptor size of the later matching data. The matcher is
    parametrised by the value the static has in the call, which
    [static_kdescriptorSizeBytes] gives. *)
Variable kdescriptorSizeBytes : nat.

(** [const static unsigned int kdescriptorSizeBits = kdescriptorSizeBytes*8]
    (line 139) is a static as well, and eight times the former in every
    call. *)
Definition kdescriptorSizeBits : Z := (Z.of_nat kdescriptorSizeBytes * 8)%Z.

(** [static_cast<int>(kdescriptorSizeBits * kMatchingThresholdBitsRatio)],
    the threshold [best_score] starts from. *)
Definition initial_best_score : option Z :=
  double_to_int (inject_Z kdescriptorSizeBits * kMatchingThresholdBitsRatio)%Q.

(** [kdescriptorSizeBits - hammingDistance512(descriptor_k, descriptor_kp1)]. *)
Definition match_score (descriptor_k descriptor_kp1 : Descriptor) : Z :=
  (kdescriptorSizeBits
   - hammingDistance512 kdescriptorSizeBytes descriptor_k descriptor_kp1)%Z.

(** The part both loops share, from the [CHECK_LT] on the index to the
    counter: score the candidate, which reads [kdescriptorSizeBytes] bytes
    of both views, take it as the best when its score strictly exceeds
    [best_score], check its distance to the prediction against twice the
    search distance, mark it processed. *)
Definition score_candidate (search_distance : Z)
    (md : GyroTrackerMatchingData) (frame_kp1 : VisualFrame)
    (predicted : Q * Q) (descriptor_k : Descriptor)
    (st : SearchState) (it : KeypointData) : option SearchState :=
  CHECK (index it <? num_points_kp1 md);;
  descriptor_kp1 ← getDescriptor frame_kp1 (index it);
  readable kdescriptorSizeBytes descriptor_k;;
  readable kdescriptorSizeBytes descriptor_kp1;;
  let current_score := match_score descriptor_k descriptor_kp1 in
  st' ← (if (best_score st <? current_score)%Z
         then CHECK (norm_lt predicted (measurement it) (search_distance * 2));;
              Some {| found := true;
                      n_processed_corners := n_processed_corners st;
                      it_best := Some it;
                      best_score := current_score;
                      processed_corners_kp1 := processed_corners_kp1 st |}
         else Some st);
  Some {| found := found st';
          n_processed_corners := S (n_processed_corners st');
          it_best := it_best st';
          best_score := best_score st';
          processed_corners_kp1 := <[index it := true]> (processed_corners_kp1 st') |}.

(** The body of the loop over the small window, for the column bounds
    computed before the loop. *)
Definition small_window_step (md : GyroTrackerMatchingData)
    (frame_kp1 : VisualFrame) (is_keypoint_kp1_matched : list bool)
    (bounds : Z * Z) (predicted : Q * Q) (descriptor_k : Descriptor)
    (st : SearchState) (it : KeypointData) : option SearchState :=
  if outside_columns bounds it then Some st
  else
    matched ← is_keypoint_kp1_matched !! index it;
    if matched : bool then Some st
    else score_candidate kSmallSearchDistance md frame_kp1 predicted
           descriptor_k st it.

(** The body of the loop over the large window. *)
Definition large_window_step (md : GyroTrackerMatchingData)
    (frame_kp1 : VisualFrame) (is_keypoint_kp1_matched : list bool)
    (bounds : Z * Z) (predicted : Q * Q) (descriptor_k : Descriptor)
    (st : SearchState) (it : KeypointData) : option SearchState :=
  processed ← processed_corners_kp1 st !! index it;
  skip ← (if processed : bool then Some true
          else is_keypoint_kp1_matched !! index it);
  if skip : bool then Some st
  else if outside_columns bounds it then Some st
  else score_candidate kLargeSearchDistance md frame_kp1 predicted
         descriptor_k st it.

Definition nearest_corners (md : GyroTrackerMatchingData) (image_height : nat)
    (predicted : Q * Q) : option (list KeypointData) :=
  idxnearest ← search_rows image_height predicted kSmallSearchDistance;
  window_corners md image_height (corner_row_LUT md image_height) idxnearest.

Definition near_corners (md : GyroTrackerMatchingData) (image_height : nat)
    (predicted : Q * Q) : option (list KeypointData) :=
  idxnear ← search_rows image_height predicted kLargeSearchDistance;
  window_corners md image_height (corner_row_LUT md image_height) idxnear.

(** The variables of the search before the first window, for the
    threshold [best_score] starts from. *)
Definition initial_search_state (md : GyroTrackerMatchingData) (threshold : Z)
  : SearchState :=
  {| found := false;
     n_processed_corners := 0;
     it_best := None;
     best_score := threshold;
     processed_corners_kp1 := replicate (num_points_kp1 md) false |}.

(** The small window is searched first: the threshold and the column
    bounds are computed, then the loop runs over the corners of the
    window. *)
Definition search_small_window (md : GyroTrackerMatchingData)
    (frame_kp1 : VisualFrame) (is_keypoint_kp1_matched : list bool)
    (predicted : Q * Q) (descriptor_k : Descriptor)
    (corners : list KeypointData) : option SearchState :=
  threshold ← initial_best_score;
  bounds ← column_bounds kSmallSearchDistance predicted;
  for_each (small_window_step md frame_kp1 is_keypoint_kp1_matched bounds
              predicted descriptor_k) (initial_search_state md threshold) corners.

(** [if (!found)]: the column bounds of the large window are computed and
    the large window is searched from the state the small one left. *)
Definition search_large_window (md : GyroTrackerMatchingData)
    (frame_kp1 : VisualFrame) (is_keypoint_kp1_matched : list bool)
    (predicted : Q * Q) (descriptor_k : Descriptor)
    (corners : list KeypointData) (st : SearchState) : option SearchState :=
  if found st then Some st
  else
    bounds ← column_bounds kLargeSearchDistance predicted;
    for_each (large_window_step md frame_kp1 is_keypoint_kp1_matched bounds
                predicted descriptor_k) st corners.

(** Both searches for keypoint [i] of frame k. *)
Definition search_keypoint (image_height : nat) (md : GyroTrackerMatchingData)
    (frame_kp1 frame_k : VisualFrame) (is_keypoint_kp1_matched : list bool)
    (i : nat) : option SearchState :=
  predicted ← predicted_keypoint_positions_kp1 md !! i;
  descriptor_k ← getDescriptor frame_k i;
  idxnearest ← search_rows image_height predicted kSmallSearchDistance;
  idxnear ← search_rows image_height predicted kLargeSearchDistance;
  check_rows image_height idxnearest;;
  check_rows image_height idxnear;;
  small ← nearest_corners md image_height predicted;
  large ← near_corners md image_height predicted;
  st ← search_small_window md frame_kp1 is_keypoint_kp1_matched predicted
         descriptor_k small;
  search_large_window md frame_kp1 is_keypoint_kp1_matched predicted
    descriptor_k large st.

(** The body of the loop over the keypoints of frame k. Its state is the
    vector [is_keypoint_kp1_matched] and the output [matches_with_score_kp1_k].
    The two statistics collectors only record [best_score] or
    [n_processed_corners] and are left out. *)
Definition match_keypoint (image_height : nat) (md : GyroTrackerMatchingData)
    (frame_kp1 frame_k : VisualFrame)
    (st : list bool * list MatchWithScore) (i : nat)
  : option (list bool * list MatchWithScore) :=
  let '(is_keypoint_kp1_matched, matches) := st in
  search ← search_keypoint image_height md frame_kp1 frame_k
             is_keypoint_kp1_matched i;
  if found search then
    best ← it_best search;
    _ ← is_keypoint_kp1_matched !! index best;
    Some (<[index best := true]> is_keypoint_kp1_matched,
          matches ++ [{| index_kp1 := index best; index_k := i; score := 0 |}])
  else Some st.

(** [GyroTracker::matchFeatures] on the matching data [md] that its
    first statement builds from the rotation and the two frames. The
    width check and the comparator use the static, not the descriptor size
    of [md]. *)
Definition matchFeatures (camera_ : Camera) (md : GyroTrackerMatchingData)
    (frame_kp1 frame_k : VisualFrame) : option (list MatchWithScore) :=
  let image_height := imageHeight camera_ in
  CHECK (length (corner_row_LUT md image_height) =? image_height);;
  CHECK (kdescriptorSizeBytes * 8 <=? 512);;
  final ← for_each (match_keypoint image_height md frame_kp1 frame_k)
            (replicate (num_points_kp1 md) false, [])
            (seq 0 (num_points_k md));
  Some (snd final).

(** ** The facade *)

(** The [CHECK]s of [GyroTracker::track], in the order of the source.
    [frame_kp1] and the output container are passed by pointer; a null
    pointer is [None]. *)
Definition track_checks (camera_ : Camera) (frame_k : VisualFrame)
    (frame_kp1 : option VisualFrame)
    (matches_with_score_kp1_k : option (list MatchWithScore))
  : option VisualFrame :=
  CHECK (hasKeypointMeasurements frame_k);;
  kp1 ← frame_kp1;
  CHECK (hasKeypointMeasurements kp1);;
  geometry_k ← getCameraGeometry frame_k;
  CHECK (getId camera_ =? getId geometry_k)%Z;;
  geometry_kp1 ← getCameraGeometry kp1;
  CHECK (getId camera_ =? getId geometry_kp1)%Z;;
  _ ← matches_with_score_kp1_k;
  CHECK (hasTrackIds frame_k);;
  CHECK (hasTrackIds kp1);;
  CHECK (getTimestampNanoseconds frame_k <? getTimestampNanoseconds kp1)%Z;;
  CHECK (hasDescriptors kp1);;
  descriptors ← descriptors_ kp1;
  CHECK (desc_rows descriptors =? getDescriptorSizeBytes kp1);;
  keypoints ← keypoint_measurements_ kp1;
  CHECK (length keypoints =? length (desc_cols descriptors));;
  Some kp1.

(** [GyroTracker::track]. The constructor of the matching data, the first
    statement of [matchFeatures], is outside the sources: it is the
    parameter [matching_data], which gives the matching data of a
    rotation and two frames or ends the call ([None]). The result is the
    content of the output container when the call returns. *)
Definition track {Quaternion : Type}
    (matching_data :
       Quaternion → VisualFrame → VisualFrame → option GyroTrackerMatchingData)
    (camera_ : Camera) (q_Ckp1_Ck : Quaternion) (frame_k : VisualFrame)
    (frame_kp1 : option VisualFrame)
    (matches_with_score_kp1_k : option (list MatchWithScore))
  : option (list MatchWithScore) :=
  kp1 ← track_checks camera_ frame_k frame_kp1 matches_with_score_kp1_k;
  md ← matching_data q_Ckp1_Ck kp1 frame_k;
  matchFeatures camera_ md kp1 frame_k.

End Matcher.

(** ** The statics across calls *)



(** ** Properties of the matching data *)

(** The keypoints of frame k+1 are in ascending order of their row. *)
Definition sorted_by_row (kps : list KeypointData) : Prop :=
  StronglySorted (λ a b, (row_of a <= row_of b)%Q) kps.

(** The cursor [v] after the round of row [y]: it is an offset into the
    vector, and every keypoint before it has a row below [y]. *)
Definition cursor_ok (kps : list KeypointData) (y v : nat) : Prop :=
  v ≤ length kps ∧
  Forall (λ k, (row_of k < inject_Z (Z.of_nat y))%Q) (take v kps).

Section Invariants.
Context `{GyroTrackerConstants}.
Variable kdescriptorSizeBytes : nat.

(** The invariant of the two search loops for a keypoint of frame k with
    descriptor [descriptor_k], for the threshold [best_score] started
    from. Once a candidate has been found, [it_best] is a candidate [c]
    among those looked at ([P c]), not matched before, whose score is the
    running best and exceeds the threshold; the comparator has read both
    views within their bytes. Before that, the running best is the
    threshold. *)
Definition search_invariant (threshold : Z)
    (frame_kp1 : VisualFrame) (matched : list bool) (descriptor_k : Descriptor)
    (P : KeypointData → Prop) (st : SearchState) : Prop :=
  if found st then
    ∃ c d, it_best st = Some c ∧ P c
      ∧ matched !! index c = Some false
      ∧ getDescriptor frame_kp1 (index c) = Some d
      ∧ kdescriptorSizeBytes ≤ length descriptor_k
      ∧ kdescriptorSizeBytes ≤ length d
      ∧ best_score st = match_score kdescriptorSizeBytes descriptor_k d
      ∧ (threshold < best_score st)%Z
  else it_best st = None ∧ best_score st = threshold.

(** A keypoint of frame k+1 that the windows can reach in an image of
    the given height. *)
Definition reachable_corner (image_height : nat) (md : GyroTrackerMatchingData)
    (c : KeypointData) : Prop :=
  c ∈ keypoints_kp1_by_y md
  ∧ (row_of c < inject_Z (image_height_minus_1 image_height))%Q.

(** What holds of an emitted match record: the score is the placeholder
    0, the frame-k index is that of a keypoint of frame k, the frame-k+1
    index is that of a reachable keypoint of frame k+1, the two
    descriptors hold the bytes the comparator reads, and the score
    computed for them exceeds the threshold. *)
Definition accepted_match (image_height : nat) (md : GyroTrackerMatchingData)
    (frame_kp1 frame_k : VisualFrame) (m : MatchWithScore) : Prop :=
  score m = 0%Q
  ∧ index_k m < num_points_k md
  ∧ ∃ c descriptor_k descriptor_kp1 threshold,
      reachable_corner image_height md c
      ∧ index_kp1 m = index c
      ∧ getDescriptor frame_k (index_k m) = Some descriptor_k
      ∧ getDescriptor frame_kp1 (index_kp1 m) = Some descriptor_kp1
      ∧ kdescriptorSizeBytes ≤ length descriptor_k
      ∧ kdescriptorSizeBytes ≤ length descriptor_kp1
      ∧ initial_best_score kdescriptorSizeBytes = Some threshold
      ∧ (threshold
         < match_score kdescriptorSizeBytes descriptor_k descriptor_kp1)%Z.

(** The invariant of the loop over the keypoints of frame k, before the
    round of keypoint [i]. *)
Definition matches_invariant (image_height : nat) (md : GyroTrackerMatchingData)
    (frame_kp1 frame_k : VisualFrame) (i : nat)
    (st : list bool * list MatchWithScore) : Prop :=
  Forall (λ m, fst st !! index_kp1 m = Some true
               ∧ index_k m < i
               ∧ accepted_match image_height md frame_kp1 frame_k m) (snd st)
  ∧ NoDup (map index_kp1 (snd st))
  ∧ NoDup (map index_k (snd st)).

(** The two windows, the loop body and the search distance of each. *)
Inductive Window := SmallWindow | LargeWindow.

Definition window_distance (w : Window) : Z :=
  match w with
  | SmallWindow => kSmallSearchDistance
  | LargeWindow => kLargeSearchDistance
  end.

Definition window_step (w : Window) :=
  match w with
  | SmallWindow => small_window_step kdescriptorSizeBytes
  | LargeWindow => large_window_step kdescriptorSizeBytes
  end.

(** Is the flag of the keypoint [it] of frame k+1 set in [flags]? *)
Definition flag_set (flags : list bool) (it : KeypointData) : bool :=
  bool_decide (flags !! index it = Some true).

(** The flags of [st] have the size of those of [st0] and keep every flag
    that is set in [st0]. *)
Definition keeps_processed (st0 st : SearchState) : Prop :=
  length (processed_corners_kp1 st) = length (processed_corners_kp1 st0)
  ∧ ∀ j, processed_corners_kp1 st0 !! j = Some true →
         processed_corners_kp1 st !! j = Some true.

(** The column of [c] lies within the column bounds of the window of
    search distance [d] around [predicted], and the bounds are values of
    [int]. *)
Definition inside_columns (d : Z) (predicted : Q * Q) (c : KeypointData)
  : bool :=
  match column_bounds d predicted with
  | Some bounds => negb (outside_columns bounds c)
  | None => false
  end.

(** The candidate [c] gets past the two [continue]s of the loop over the
    small window. *)
Definition small_window_candidate (is_keypoint_kp1_matched : list bool)
    (predicted : Q * Q) (c : KeypointData) : Prop :=
  inside_columns kSmallSearchDistance predicted c = true
  ∧ is_keypoint_kp1_matched !! index c = Some false.

(** The candidate [c] is within the columns of the large window and not
    matched to an earlier keypoint of frame k. *)
Definition large_window_candidate (is_keypoint_kp1_matched : list bool)
    (predicted : Q * Q) (c : KeypointData) : Prop :=
  inside_columns kLargeSearchDistance predicted c = true
  ∧ is_keypoint_kp1_matched !! index c = Some false.

(** The [continue]s of the two loops as tests on a candidate. The loop
    over the small window goes on to score the candidates within its
    column bounds that are not matched to an earlier keypoint of frame k;
    the loop over the large window those that, in addition, do not have
    their flag set in [processed]. *)
Definition scored_in_small_window (is_keypoint_kp1_matched : list bool)
    (bounds : Z * Z) (c : KeypointData) : bool :=
  negb (outside_columns bounds c) && negb (flag_set is_keypoint_kp1_matched c).

Definition scored_in_large_window (processed is_keypoint_kp1_matched : list bool)
    (bounds : Z * Z) (c : KeypointData) : bool :=
  negb (flag_set processed c) && negb (flag_set is_keypoint_kp1_matched c)
  && negb (outside_columns bounds c).

(** The score of the keypoint [c] of frame k+1 against [descriptor_k]. *)
Definition candidate_score (frame_kp1 : VisualFrame) (descriptor_k : Descriptor)
    (c : KeypointData) : option Z :=
  match_score kdescriptorSizeBytes descriptor_k
    <$> getDescriptor frame_kp1 (index c).

(** If [c] is a candidate of the small window, its score is at most
    [bound]. *)
Definition candidate_at_most (frame_kp1 : VisualFrame)
    (is_keypoint_kp1_matched : list bool)
    (predicted : Q * Q) (descriptor_k : Descriptor) (bound : Z)
    (c : KeypointData) : Prop :=
  small_window_candidate is_keypoint_kp1_matched predicted c →
  ∃ s, candidate_score frame_kp1 descriptor_k c = Some s ∧ (s ≤ bound)%Z.

(** If [c] is a candidate of the large window, its score is at most
    [bound]. *)
Definition large_candidate_at_most (frame_kp1 : VisualFrame)
    (is_keypoint_kp1_matched : list bool)
    (predicted : Q * Q) (descriptor_k : Descriptor) (bound : Z)
    (c : KeypointData) : Prop :=
  large_window_candidate is_keypoint_kp1_matched predicted c →
  ∃ s, candidate_score frame_kp1 descriptor_k c = Some s ∧ (s ≤ bound)%Z.

(** The keypoint [c] of frame k+1 has passed the column filter and the
    distance [CHECK] of one of the two windows around [predicted]. *)
Definition within_search_area (predicted : Q * Q) (c : KeypointData) : Prop :=
  inside_columns kSmallSearchDistance predicted c = true
  ∧ norm_lt predicted (measurement c) (kSmallSearchDistance * 2) = true
  ∨ inside_columns kLargeSearchDistance predicted c = true
    ∧ norm_lt predicted (measurement c) (kLargeSearchDistance * 2) = true.

(** The [double] [q] converts to a value of [int]. *)
Definition in_int_range (q : Q) : Prop :=
  (inject_Z INT_MIN - 1 < q)%Q ∧ (q < inject_Z INT_MAX + 1)%Q.

(** The rows of the window of search distance [d] around [predicted] are
    values of [int] before they are clamped. *)
Definition rows_in_int_range (d : Z) (predicted : Q * Q) : Prop :=
  in_int_range (snd predicted + (1 # 2) - inject_Z d)
  ∧ in_int_range (snd predicted + (1 # 2) + inject_Z d).

(** The column bounds of the window of search distance [d] around
    [predicted] are values of [int]. *)
Definition columns_in_int_range (d : Z) (predicted : Q * Q) : Prop :=
  in_int_range (fst predicted - inject_Z d)
  ∧ in_int_range (fst predicted + inject_Z d).

(** The conversions to [int] of a search around [predicted] that finds a
    match in the small window are defined: the rows of both windows and
    the column bounds of the small one. *)
Definition windows_in_int_range (predicted : Q * Q) : Prop :=
  rows_in_int_range kSmallSearchDistance predicted
  ∧ rows_in_int_range kLargeSearchDistance predicted
  ∧ columns_in_int_range kSmallSearchDistance predicted.

End Invariants.

(** The number of flags that are set. *)
Definition count_flags (flags : list bool) : nat :=
  length (List.filter (λ b : bool, b) flags).

(** ** The identity case *)

(** The keypoints of a frame with their frame indices. *)
Definition indexed_keypoints (measurements : list (Q * Q)) : list KeypointData :=
  imap (λ i p, {| measurement := p; index := i |}) measurements.

(** Insertion of a keypoint into keypoints in ascending order of their
    row, before the first keypoint of the same or of a later row. *)
Fixpoint insert_by_row (c : KeypointData) (l : list KeypointData)
  : list KeypointData :=
  match l with
  | [] => [c]
  | x :: l' =>
      if Qle_bool (row_of c) (row_of x) then c :: l
      else x :: insert_by_row c l'
  end.

Definition sort_by_row (l : list KeypointData) : list KeypointData :=
  foldr insert_by_row [] l.

(** Modelled from the spec: the constructor of [GyroTrackerMatchingData],
    which is not under src/, for the zero rotation and a camera whose
    projection inverts its back-projection. The matching data holds the
    keypoints of frame k+1 in ascending order of their row, each with its
    index in the frame (the spatial index of the spec), and a predicted
    position for every keypoint of frame k (the position predictor of the
    spec), which without rotation is the position of the keypoint; the
    descriptor size is that of frame k+1. Keypoints of one row are kept
    in the order of the frame, which the spec leaves open. *)
Definition matching_data_without_rotation (q_Ckp1_Ck : unit)
    (frame_kp1 frame_k : VisualFrame) : option GyroTrackerMatchingData :=
  keypoints_kp1 ← keypoint_measurements_ frame_kp1;
  keypoints_k ← keypoint_measurements_ frame_k;
  Some {| keypoints_kp1_by_y := sort_by_row (indexed_keypoints keypoints_kp1);
          predicted_keypoint_positions_kp1 := keypoints_k;
          descriptor_size_bytes_ := getDescriptorSizeBytes frame_kp1 |}.

(** Every keypoint of the first [n] matched to itself. *)
Definition identity_matches (n : nat) : list MatchWithScore :=
  map (λ i, {| index_kp1 := i; index_k := i; score := 0 |}) (seq 0 n).

(** The identity case: the two frames have the same keypoints and the
    same descriptors, every predicted position is the position of the
    keypoint of frame k (no rotation, and the projection inverts the
    back-projection), and the matching data holds the keypoints of frame
    k+1 sorted by row. *)
Definition identity_case (md : GyroTrackerMatchingData)
    (frame_kp1 frame_k : VisualFrame) (measurements : list (Q * Q))
    (descriptors : DescriptorsT) : Prop :=
  keypoint_measurements_ frame_k = Some measurements
  ∧ keypoint_measurements_ frame_kp1 = Some measurements
  ∧ descriptors_ frame_k = Some descriptors
  ∧ descriptors_ frame_kp1 = Some descriptors
  ∧ length (desc_cols descriptors) = length measurements
  ∧ descriptor_size_bytes_ md = desc_rows descriptors
  ∧ predicted_keypoint_positions_kp1 md = measurements
  ∧ keypoints_kp1_by_y md ≡ₚ indexed_keypoints measurements
  ∧ sorted_by_row (keypoints_kp1_by_y md).

(** A keypoint in a row of the image strictly above the last one. *)
Definition above_last_row (image_height : nat) (p : Q * Q) : Prop :=
  (0 <= snd p)%Q
  ∧ (snd p < inject_Z (image_height_minus_1 image_height))%Q.

(** The invariant of the small-window loop for keypoint [i] at position
    [p] in the identity case: the running best is below the descriptor
    bit width until the keypoint itself has been taken at that score. *)
Definition self_is_best (kdescriptorSizeBytes : nat) (i : nat) (p : Q * Q)
    (st : SearchState) : Prop :=
  (best_score st < kdescriptorSizeBits kdescriptorSizeBytes)%Z
  ∨ found st = true
    ∧ it_best st = Some {| measurement := p; index := i |}
    ∧ best_score st = kdescriptorSizeBits kdescriptorSizeBytes.

(** The state of the outer loop before the round of keypoint [i] in the
    identity case with [n] keypoints. *)
Definition identity_state (n i : nat) : list bool * list MatchWithScore :=
  (replicate i true ++ replicate (n - i) false, identity_matches i).

(** The cursor of the table construction after the round of row [r]. *)
Definition cursor (kps : list KeypointData) (r : nat) : nat :=
  fst (corner_row_LUT_loop kps (S r)).

(** ** The preconditions of the facade *)

(** What the [CHECK]s of [track] ask of the two frames. *)
Definition track_preconditions (camera_ : Camera) (frame_k kp1 : VisualFrame)
  : Prop :=
  hasKeypointMeasurements frame_k = true
  ∧ hasKeypointMeasurements kp1 = true
  ∧ (∃ g, getCameraGeometry frame_k = Some g ∧ getId camera_ = getId g)
  ∧ (∃ g, getCameraGeometry kp1 = Some g ∧ getId camera_ = getId g)
  ∧ hasTrackIds frame_k = true
  ∧ hasTrackIds kp1 = true
  ∧ (getTimestampNanoseconds frame_k < getTimestampNanoseconds kp1)%Z
  ∧ ∃ descriptors keypoints,
      descriptors_ kp1 = Some descriptors
      ∧ desc_rows descriptors = getDescriptorSizeBytes kp1
      ∧ keypoint_measurements_ kp1 = Some keypoints
      ∧ length keypoints = length (desc_cols descriptors).


(** ** Test data *)

Definition keypoint (column row : Q) (i : nat) : KeypointData :=
  {| measurement := (column, row); index := i |}.

(** The target frame used in the examples, for an image of height 100:
    keypoints at rows 9, 52 and 99 (the last row of the image), with
    frame indices 2, 0 and 1. *)
Definition example_keypoints_kp1 : list KeypointData :=
  [keypoint 5 9 2; keypoint 5 52 0; keypoint 5 99 1].

Definition example_matching_data : GyroTrackerMatchingData :=
  {| keypoints_kp1_by_y := example_keypoints_kp1;
     predicted_keypoint_positions_kp1 := [(5, 10); (5, 50); (5, 90)]%Q;
     descriptor_size_bytes_ := 4 |}.

#[local] Instance example_constants : GyroTrackerConstants :=
  {| kSmallSearchDistance := 10;
     kLargeSearchDistance := 20;
     kMatchingThresholdBitsRatio := 8 # 10 |}.

Definition example_camera : Camera := {| getId := 1; imageHeight := 100 |}.

(** Frame k: keypoints at rows 10, 50 and 90. *)
Definition example_frame_k : VisualFrame :=
  {| keypoint_measurements_ := Some [(5, 10); (5, 50); (5, 90)]%Q;
     track_ids_ := Some [7; 8; 9]%Z;
     descriptors_ :=
       Some {| desc_rows := 4;
               desc_cols := [[1; 2; 3; 4]; [5; 6; 7; 8]; [9; 9; 9; 9]]%Z |};
     getDescriptorSizeBytes := 4;
     getCameraGeometry := Some example_camera;
     getTimestampNanoseconds := 1000 |}.

(** Frame k+1: keypoints at rows 52, 99 and 9. The first has the
    descriptor of keypoint 1 of frame k, the second that of keypoint 2,
    the third differs from that of keypoint 0 in two bits. *)
Definition example_frame_kp1 : VisualFrame :=
  {| keypoint_measurements_ := Some [(5, 52); (5, 99); (5, 9)]%Q;
     track_ids_ := Some [-1; -1; -1]%Z;
     descriptors_ :=
       Some {| desc_rows := 4;
               desc_cols := [[5; 6; 7; 8]; [9; 9; 9; 9]; [1; 2; 3; 7]]%Z |};
     getDescriptorSizeBytes := 4;
     getCameraGeometry := Some example_camera;
     getTimestampNanoseconds := 2000 |}.

Definition example_matches : list MatchWithScore :=
  [{| index_kp1 := 2; index_k := 0; score := 0 |};
   {| index_kp1 := 0; index_k := 1; score := 0 |}].

(** Descriptors of five bytes (40 bits): with the ratio 8/10 the
    threshold is exactly 32 bits. Against the descriptor of frame k, which
    is all zero, the three descriptors of frame k+1 score 32, 33 and 33. *)
Definition boundary_matching_data : GyroTrackerMatchingData :=
  {| keypoints_kp1_by_y := [keypoint 5 9 0; keypoint 5 10 1; keypoint 5 11 2];
     predicted_keypoint_positions_kp1 := [(5, 10)]%Q;
     descriptor_size_bytes_ := 5 |}.

Definition boundary_frame_kp1 : VisualFrame :=
  {| keypoint_measurements_ := Some [(5, 9); (5, 10); (5, 11)]%Q;
     track_ids_ := Some [-1; -1; -1]%Z;
     descriptors_ :=
       Some {| desc_rows := 5;
               desc_cols := [[255; 0; 0; 0; 0]; [127; 0; 0; 0; 0];
                             [254; 0; 0; 0; 0]]%Z |};
     getDescriptorSizeBytes := 5;
     getCameraGeometry := Some example_camera;
     getTimestampNanoseconds := 2000 |}.

Definition boundary_frame_k : VisualFrame :=
  {| keypoint_measurements_ := Some [(5, 10)]%Q;
     track_ids_ := Some [7]%Z;
     descriptors_ := Some {| desc_rows := 5; desc_cols := [[0; 0; 0; 0; 0]]%Z |};
     getDescriptorSizeBytes := 5;
     getCameraGeometry := Some example_camera;
     getTimestampNanoseconds := 1000 |}.

(** The state in which the search for the keypoint of frame k ends on
    the boundary data: the second keypoint of frame k+1 is the best. *)
Definition boundary_final_state : SearchState :=
  {| found := true;
     n_processed_corners := 3;
     it_best := Some (keypoint 5 10 1);
     best_score := 33;
     processed_corners_kp1 := [true; true; true] |}.

(** A search that reaches the large window, with descriptors of five
    bytes and the prediction (5, 50). Frame k+1 has four keypoints: in row
    35 one that an earlier keypoint of frame k has taken; in row 45,
    inside the small window, one that scores 32, the threshold; in row 65
    one that scores 33; in row 68 one in column 40, outside the columns
    of the large window. *)
Definition wide_matching_data : GyroTrackerMatchingData :=
  {| keypoints_kp1_by_y :=
       [keypoint 5 35 0; keypoint 5 45 1; keypoint 5 65 2; keypoint 40 68 3];
     predicted_keypoint_positions_kp1 := [(5, 50)]%Q;
     descriptor_size_bytes_ := 5 |}.

Definition wide_frame_kp1 : VisualFrame :=
  {| keypoint_measurements_ := Some [(5, 35); (5, 45); (5, 65); (40, 68)]%Q;
     track_ids_ := Some [-1; -1; -1; -1]%Z;
     descriptors_ :=
       Some {| desc_rows := 5;
               desc_cols := [[0; 0; 0; 0; 0]; [255; 0; 0; 0; 0];
                             [127; 0; 0; 0; 0]; [0; 0; 0; 0; 0]]%Z |};
     getDescriptorSizeBytes := 5;
     getCameraGeometry := Some example_camera;
     getTimestampNanoseconds := 2000 |}.

Definition wide_frame_k : VisualFrame :=
  {| keypoint_measurements_ := Some [(5, 50)]%Q;
     track_ids_ := Some [7]%Z;
     descriptors_ := Some {| desc_rows := 5; desc_cols := [[0; 0; 0; 0; 0]]%Z |};
     getDescriptorSizeBytes := 5;
     getCameraGeometry := Some example_camera;
     getTimestampNanoseconds := 1000 |}.

Definition wide_matched : list bool := [true; false; false; false].

(** The states of that search after the small window, which scores the
    keypoint in row 45 and takes none, and at the end, after the large
    window has scored the keypoint in row 65 and taken it. *)
Definition wide_small_state : SearchState :=
  {| found := false;
     n_processed_corners := 1;
     it_best := None;
     best_score := 32;
     processed_corners_kp1 := [false; true; false; false] |}.

Definition wide_final_state : SearchState :=
  {| found := true;
     n_processed_corners := 2;
     it_best := Some (keypoint 5 65 2);
     best_score := 33;
     processed_corners_kp1 := [false; true; true; false] |}.

(** The frame [f] with its descriptors replaced. *)
Definition with_descriptors (f : VisualFrame) (d : option DescriptorsT)
  : VisualFrame :=
  {| keypoint_measurements_ := keypoint_measurements_ f;
     track_ids_ := track_ids_ f;
     descriptors_ := d;
     getDescriptorSizeBytes := getDescriptorSizeBytes f;
     getCameraGeometry := getCameraGeometry f;
     getTimestampNanoseconds := getTimestampNanoseconds f |}.

(** Frame k of the example without descriptors. *)
Definition frame_k_without_descriptors : VisualFrame :=
  with_descriptors example_frame_k None.

(** A frame for the identity case with three keypoints in the given
    column at the given rows, and the matching data for matching it
    against itself. *)
Definition identity_frame (column : Q) (rows : list Q) : VisualFrame :=
  {| keypoint_measurements_ := Some (map (λ r, (column, r)) rows);
     track_ids_ := Some [7; 8; 9]%Z;
     descriptors_ :=
       Some {| desc_rows := 4;
               desc_cols := [[1; 2; 3; 4]; [5; 6; 7; 8]; [9; 9; 9; 9]]%Z |};
     getDescriptorSizeBytes := 4;
     getCameraGeometry := Some example_camera;
     getTimestampNanoseconds := 1000 |}.

Definition identity_matching_data (column : Q) (rows : list Q)
  : GyroTrackerMatchingData :=
  {| keypoints_kp1_by_y := indexed_keypoints (map (λ r, (column, r)) rows);
     predicted_keypoint_positions_kp1 := map (λ r, (column, r)) rows;
     descriptor_size_bytes_ := 4 |}.

(** Two keypoints with the same descriptor, the one with the larger
    frame index in the row above the other. *)
Definition twin_frame : VisualFrame :=
  {| keypoint_measurements_ := Some [(5, 12); (5, 10)]%Q;
     track_ids_ := Some [7; 8]%Z;
     descriptors_ :=
       Some {| desc_rows := 4; desc_cols := [[1; 2; 3; 4]; [1; 2; 3; 4]]%Z |};
     getDescriptorSizeBytes := 4;
     getCameraGeometry := Some example_camera;
     getTimestampNanoseconds := 1000 |}.

Definition twin_matching_data : GyroTrackerMatchingData :=
  {| keypoints_kp1_by_y := [keypoint 5 10 1; keypoint 5 12 0];
     predicted_keypoint_positions_kp1 := [(5, 12); (5, 10)]%Q;
     descriptor_size_bytes_ := 4 |}.

(** Two keypoints less than three pixels apart with descriptors that
    differ in one bit, the one with the smaller frame index in the lower row, and
    the matching data for matching the frame against itself. *)
Definition close_frame : VisualFrame :=
  {| keypoint_measurements_ := Some [(59 # 10, 104 # 10); (4, 9)]%Q;
     track_ids_ := Some [7; 8]%Z;
     descriptors_ :=
       Some {| desc_rows := 4; desc_cols := [[1; 2; 3; 5]; [1; 2; 3; 4]]%Z |};
     getDescriptorSizeBytes := 4;
     getCameraGeometry := Some example_camera;
     getTimestampNanoseconds := 1000 |}.

Definition close_matching_data : GyroTrackerMatchingData :=
  {| keypoints_kp1_by_y := [keypoint 4 9 1; keypoint (59 # 10) (104 # 10) 0];
     predicted_keypoint_positions_kp1 := [(59 # 10, 104 # 10); (4, 9)]%Q;
     descriptor_size_bytes_ := 4 |}.

(** The constants of the examples with a small search distance of one
    pixel, and with a threshold ratio of one. *)
Definition one_pixel_constants : GyroTrackerConstants :=
  {| kSmallSearchDistance := 1;
     kLargeSearchDistance := 20;
     kMatchingThresholdBitsRatio := 8 # 10 |}.

Definition all_bits_constants : GyroTrackerConstants :=
  {| kSmallSearchDistance := 10;
     kLargeSearchDistance := 20;
     kMatchingThresholdBitsRatio := 1 |}.

(** The constants of the examples with a negative large search distance. *)
Definition negative_large_constants : GyroTrackerConstants :=
  {| kSmallSearchDistance := 10;
     kLargeSearchDistance := -1;
     kMatchingThresholdBitsRatio := 8 # 10 |}.

(** ** Theorems *)

(** Rows in ascending order, on a list given in full. *)
Ltac sorted_rows :=
  repeat (apply SSorted_cons || apply SSorted_nil
          || apply List.Forall_cons || apply List.Forall_nil);
  unfold Qle; simpl; lia.
Section Comparator.

Lemma all_bytes_complete b : is_byte b → In b all_bytes.
Proof.
  unfold is_byte, all_bytes. intros Hb. apply in_map_iff.
  exists (Z.to_nat b). split; [lia|]. apply in_seq. lia.
Qed.

Lemma clear_lowest_bits_acc fuel : ∀ val d,
  clear_lowest_bits fuel val d
  = (fst (clear_lowest_bits fuel val 0%Z), (d + snd (clear_lowest_bits fuel val 0%Z))%Z).
Proof.
  induction fuel as [|fuel IH]; intros val d; simpl.
  - f_equal. lia.
  - destruct (val =? 0)%Z; simpl.
    + f_equal. lia.
    + rewrite (IH _ (d + 1)%Z), (IH _ (0 + 1)%Z). simpl. f_equal. lia.
Qed.

(** Eight rounds always leave [val = 0], and count the bits in which the
    two bytes differ. Checked on all pairs of bytes. *)
Lemma clear_lowest_bits_bytes_checked :
  forallb (λ a, forallb (λ b,
    let r := clear_lowest_bits 8 (to_uchar (Z.lxor a b)) 0%Z in
    (fst r =? 0)%Z && (snd r =? differing_bits_byte a b)%Z) all_bytes) all_bytes
  = true.
Proof. vm_compute. reflexivity. Qed.

Lemma clear_lowest_bits_bytes a b :
  is_byte a → is_byte b →
  clear_lowest_bits 8 (to_uchar (Z.lxor a b)) 0%Z = (0%Z, differing_bits_byte a b).
Proof.
  intros Ha Hb.
  pose proof clear_lowest_bits_bytes_checked as H.
  rewrite forallb_forall in H. specialize (H a (all_bytes_complete a Ha)).
  rewrite forallb_forall in H. specialize (H b (all_bytes_complete b Hb)).
  cbv beta zeta in H. apply andb_prop in H as [H1 H2].
  apply Z.eqb_eq in H1, H2.
  destruct (clear_lowest_bits 8 _ 0%Z) as [v d]. simpl in H1, H2. congruence.
Qed.

Lemma differing_bits_byte_range a b : (0 ≤ differing_bits_byte a b ≤ 8)%Z.
Proof.
  unfold differing_bits_byte. split; [lia|].
  pose proof (length_filter
    (λ k : nat, xorb (Z.testbit a (Z.of_nat k)) (Z.testbit b (Z.of_nat k)) = true)
    (seq 0 8)) as H.
  rewrite length_seq in H. lia.
Qed.

Lemma nth_is_byte (x : Descriptor) i : Forall is_byte x → is_byte (nth i x 0%Z).
Proof.
  intros Hx. destruct (nth_in_or_default i x 0%Z) as [Hin | ->].
  - rewrite Forall_forall in Hx. apply Hx. by apply list_elem_of_In.
  - unfold is_byte. lia.
Qed.

Lemma hamming_byte_differing x y d i :
  Forall is_byte x → Forall is_byte y →
  hamming_byte x y d i
  = (d + differing_bits_byte (nth i x 0%Z) (nth i y 0%Z))%Z.
Proof.
  intros Hx Hy. unfold hamming_byte.
  rewrite clear_lowest_bits_acc, clear_lowest_bits_bytes by by apply nth_is_byte.
  reflexivity.
Qed.

Lemma hamming_fold_differing x y l : ∀ d,
  Forall is_byte x → Forall is_byte y →
  fold_left (hamming_byte x y) l d
  = (d + fold_right
           (λ i acc, (differing_bits_byte (nth i x 0%Z) (nth i y 0%Z) + acc)%Z)
           0%Z l)%Z.
Proof.
  induction l as [|i l IH]; intros d Hx Hy; simpl.
  - lia.
  - rewrite IH, hamming_byte_differing by done. lia.
Qed.

Lemma differing_bits_range L x y : (0 ≤ differing_bits L x y ≤ 8 * Z.of_nat L)%Z.
Proof.
  unfold differing_bits.
  assert (H : ∀ l, (0 ≤ fold_right
      (λ i acc, (differing_bits_byte (nth i x 0%Z) (nth i y 0%Z) + acc)%Z) 0%Z l
      ≤ 8 * Z.of_nat (length l))%Z).
  { induction l as [|i l IH]; simpl; [lia|].
    pose proof (differing_bits_byte_range (nth i x 0%Z) (nth i y 0%Z)). lia. }
  specialize (H (seq 0 L)). rewrite length_seq in H. exact H.
Qed.

(** The comparator stays within the bit width whatever the bytes read:
    [CHECK_LE(distance, kdescriptorSizeBytes * 8)] always passes. *)
Lemma hamming_byte_le x y d i :
  (d ≤ hamming_byte x y d i ≤ d + 8)%Z.
Proof.
  unfold hamming_byte.
  generalize (nth i x 0%Z) (nth i y 0%Z). intros a b.
  rewrite clear_lowest_bits_acc. cbn [snd].
  set (v := to_uchar (Z.lxor a b)).
  assert (Hv : is_byte v).
  { unfold is_byte, v, to_uchar. apply Z.mod_pos_bound. lia. }
  assert (E : v = to_uchar (Z.lxor v 0)).
  { rewrite Z.lxor_0_r. unfold v, to_uchar. rewrite Z.mod_mod; lia. }
  rewrite E, clear_lowest_bits_bytes; [|exact Hv|unfold is_byte; lia].
  pose proof (differing_bits_byte_range v 0). cbn [snd]. lia.
Qed.

Lemma hammingDistance512_le L x y :
  (0 ≤ hammingDistance512 L x y ≤ 8 * Z.of_nat L)%Z.
Proof.
  unfold hammingDistance512.
  assert (H : ∀ l d, (d ≤ fold_left (hamming_byte x y) l d
                       ≤ d + 8 * Z.of_nat (length l))%Z).
  { induction l as [|i l IH]; intros d; simpl; [lia|].
    specialize (IH (hamming_byte x y d i)).
    pose proof (hamming_byte_le x y d i). lia. }
  specialize (H (seq 0 L) 0%Z). rewrite length_seq in H. lia.
Qed.

Lemma hammingDistance512_differing_bits L x y :
  Forall is_byte x → Forall is_byte y →
  hammingDistance512 L x y = differing_bits L x y.
Proof.
  intros Hx Hy. unfold hammingDistance512, differing_bits.
  rewrite hamming_fold_differing by done. lia.
Qed.

(** C6. For two descriptors of the agreed length of [L] bytes,
    [hammingDistance512] returns the number of bits in which they differ
    (the spec's Hamming distance), and the value lies in [0, 8L]. *)
Theorem hammingDistance512_is_hamming_distance (L : nat) (x y : Descriptor) :
  length x = L → length y = L →
  Forall is_byte x → Forall is_byte y →
  hammingDistance512 L x y = differing_bits L x y
  ∧ (0 ≤ hammingDistance512 L x y ≤ 8 * Z.of_nat L)%Z.
Proof.
  intros _ _ Hx Hy. split.
  - by apply hammingDistance512_differing_bits.
  - apply hammingDistance512_le.
Qed.

Lemma hammingDistance512_is_hamming_distance_witness :
  hammingDistance512 2 [179; 0]%Z [76; 255]%Z = differing_bits 2 [179; 0]%Z [76; 255]%Z
  ∧ (0 ≤ hammingDistance512 2 [179; 0]%Z [76; 255]%Z ≤ 8 * Z.of_nat 2)%Z.
Proof.
  apply (hammingDistance512_is_hamming_distance 2 [179; 0]%Z [76; 255]%Z);
    try reflexivity;
    repeat (apply List.Forall_cons; [unfold is_byte; lia|]); apply List.Forall_nil.
Defined.

End Comparator.

(** ** The row lookup table *)

Section LookupTable.

Lemma Qltb_lt a b : Qltb a b = true ↔ (a < b)%Q.
Proof.
  unfold Qltb. rewrite negb_true_iff. split.
  - intros Hf. apply Qnot_le_lt. intros Hle.
    apply Qle_bool_iff in Hle. congruence.
  - intros Hlt. destruct (Qle_bool b a) eqn:E; [|done].
    apply Qle_bool_iff in E. exfalso. by apply (Qlt_not_le a b).
Qed.

Lemma Qltb_ge a b : Qltb a b = false ↔ (b <= a)%Q.
Proof.
  unfold Qltb. rewrite negb_false_iff. apply Qle_bool_iff.
Qed.

Lemma inject_nat_le (a b : nat) :
  a ≤ b → (inject_Z (Z.of_nat a) <= inject_Z (Z.of_nat b))%Q.
Proof. intros Hab. rewrite <- Zle_Qle. lia. Qed.

(** What the inner loop does: it passes [n] keypoints, all with a row
    below [y], and stops at the end or at a keypoint with a row of [y] or
    more. *)
Lemma advance_cursor_spec y rest : ∀ v, ∃ n,
  advance_cursor y rest v = v + n ∧ n ≤ length rest ∧
  Forall (λ k, (row_of k < inject_Z (Z.of_nat y))%Q) (take n rest) ∧
  (∀ k, rest !! n = Some k → (inject_Z (Z.of_nat y) <= row_of k)%Q).
Proof.
  induction rest as [|k rest IH]; intros v; simpl.
  - exists 0. repeat split; [lia|lia|constructor|]. intros k Hk. done.
  - destruct (Qltb (row_of k) (inject_Z (Z.of_nat y))) eqn:E.
    + destruct (IH (S v)) as (n & Hn & Hlen & Hall & Hstop).
      exists (S n). repeat split; [lia|lia| |].
      * simpl. constructor; [by apply Qltb_lt|done].
      * intros k' Hk'. simpl in Hk'. by apply Hstop.
    + exists 0. repeat split; [lia|lia|constructor|].
      intros k' Hk'. simpl in Hk'. injection Hk' as <-. by apply Qltb_ge.
Qed.

Lemma advance_cursor_ge y rest v : v ≤ advance_cursor y rest v.
Proof. destruct (advance_cursor_spec y rest v) as (n & -> & _). lia. Qed.

Lemma cursor_ok_advance kps y y' v :
  cursor_ok kps y v → y ≤ y' →
  cursor_ok kps y' (advance_cursor y' (drop v kps) v).
Proof.
  intros [Hv Hall] Hy.
  destruct (advance_cursor_spec y' (drop v kps) v) as (n & -> & Hn & Hbelow & _).
  rewrite length_drop in Hn. split; [lia|].
  rewrite <- take_take_drop. apply Forall_app. split; [|done].
  eapply Forall_impl; [exact Hall|]. intros k Hk. simpl in Hk.
  eapply Qlt_le_trans; [exact Hk|]. by apply inject_nat_le.
Qed.

Lemma corner_row_LUT_loop_S kps y :
  corner_row_LUT_loop kps (S y)
  = corner_row_LUT_step kps (corner_row_LUT_loop kps y) y.
Proof.
  unfold corner_row_LUT_loop. rewrite seq_S, fold_left_app. reflexivity.
Qed.

Lemma corner_row_LUT_loop_length kps H :
  length (snd (corner_row_LUT_loop kps H)) = H.
Proof.
  induction H as [|H IH]; [reflexivity|].
  rewrite corner_row_LUT_loop_S. unfold corner_row_LUT_step. simpl.
  rewrite length_app, IH. simpl. lia.
Qed.

(** Entry [r] of the table is the cursor after the round of row [r]. *)
Lemma corner_row_LUT_loop_lookup kps H r :
  r < H →
  snd (corner_row_LUT_loop kps H) !! r = Some (fst (corner_row_LUT_loop kps (S r))).
Proof.
  induction H as [|H IH]; intros Hr; [lia|].
  rewrite (corner_row_LUT_loop_S kps H). unfold corner_row_LUT_step at 1.
  cbn [snd]. destruct (decide (r = H)) as [->|Hne].
  - rewrite lookup_app_r; rewrite corner_row_LUT_loop_length; [|lia].
    rewrite Nat.sub_diag. simpl. rewrite corner_row_LUT_loop_S. reflexivity.
  - rewrite lookup_app_l; [|rewrite corner_row_LUT_loop_length; lia].
    apply IH. lia.
Qed.

Lemma corner_row_LUT_cursor_ok kps r :
  cursor_ok kps r (fst (corner_row_LUT_loop kps (S r))).
Proof.
  induction r as [|r IH].
  - rewrite corner_row_LUT_loop_S. simpl.
    apply (cursor_ok_advance kps 0 0 0); [|lia].
    split; [lia|]. rewrite take_0. constructor.
  - rewrite corner_row_LUT_loop_S. unfold corner_row_LUT_step. cbn [fst].
    apply (cursor_ok_advance kps r); [exact IH|lia].
Qed.

Lemma corner_row_LUT_cursor_mono kps r :
  fst (corner_row_LUT_loop kps r) ≤ fst (corner_row_LUT_loop kps (S r)).
Proof.
  rewrite corner_row_LUT_loop_S. unfold corner_row_LUT_step. cbn [fst].
  apply advance_cursor_ge.
Qed.

Lemma corner_row_LUT_cursor_mono_le kps r r' :
  r ≤ r' →
  fst (corner_row_LUT_loop kps r) ≤ fst (corner_row_LUT_loop kps r').
Proof.
  induction 1 as [|r' _ IH]; [lia|].
  pose proof (corner_row_LUT_cursor_mono kps r'). lia.
Qed.

Lemma count_rows_below_app r l1 l2 :
  count_rows_below r (l1 ++ l2) = count_rows_below r l1 + count_rows_below r l2.
Proof. unfold count_rows_below. by rewrite List.filter_app, length_app. Qed.

Lemma count_rows_below_all r l :
  Forall (λ k, (row_of k < inject_Z (Z.of_nat r))%Q) l →
  count_rows_below r l = length l.
Proof.
  unfold count_rows_below. induction 1 as [|k l Hk _ IH]; simpl; [done|].
  apply Qltb_lt in Hk. rewrite Hk. simpl. by rewrite IH.
Qed.

Lemma count_rows_below_none r l :
  Forall (λ k, (inject_Z (Z.of_nat r) <= row_of k)%Q) l →
  count_rows_below r l = 0.
Proof.
  unfold count_rows_below. induction 1 as [|k l Hk _ IH]; simpl; [done|].
  apply Qltb_ge in Hk. by rewrite Hk.
Qed.

(** On keypoints sorted by row, the cursor after the round of row [r] is
    the number of keypoints with a row below [r]. *)
Lemma corner_row_LUT_cursor_count kps r :
  sorted_by_row kps →
  fst (corner_row_LUT_loop kps (S r)) = count_rows_below r kps.
Proof.
  intros Hsorted.
  assert (Hprev : ∃ y v, y ≤ r ∧ cursor_ok kps y v ∧
            fst (corner_row_LUT_loop kps (S r)) = advance_cursor r (drop v kps) v).
  { rewrite corner_row_LUT_loop_S. unfold corner_row_LUT_step. cbn [fst].
    destruct r as [|r].
    - exists 0, 0. repeat split; [lia|simpl; lia|rewrite take_0; constructor].
    - exists r, (fst (corner_row_LUT_loop kps (S r))).
      repeat split; [lia|apply corner_row_LUT_cursor_ok..]. }
  destruct Hprev as (y & v & Hy & [Hv Hall] & ->).
  destruct (advance_cursor_spec r (drop v kps) v) as (n & -> & Hn & Hbelow & Hstop).
  rewrite length_drop in Hn.
  rewrite <- (take_drop (v + n) kps) at 1.
  rewrite count_rows_below_app, count_rows_below_all, count_rows_below_none.
  - rewrite length_take. lia.
  - unfold sorted_by_row in Hsorted.
    rewrite <- (take_drop (v + n) kps) in Hsorted.
    apply StronglySorted_app_1_r in Hsorted.
    rewrite lookup_drop in Hstop.
    destruct (drop (v + n) kps) as [|k rest] eqn:E; [constructor|].
    assert (Hk : kps !! (v + n) = Some k).
    { rewrite <- (Nat.add_0_r (v + n)), <- lookup_drop, E. reflexivity. }
    specialize (Hstop k Hk).
    apply StronglySorted_cons in Hsorted as [Hrest _].
    constructor; [done|].
    eapply Forall_impl; [exact Hrest|]. intros k' Hk'. simpl in Hk'.
    by eapply Qle_trans.
  - rewrite <- take_take_drop. apply Forall_app. split; [|done].
    eapply Forall_impl; [exact Hall|]. intros k Hk. simpl in Hk.
    eapply Qlt_le_trans; [exact Hk|]. by apply inject_nat_le.
Qed.

Lemma corner_row_LUT_length md H : length (corner_row_LUT md H) = H.
Proof. apply corner_row_LUT_loop_length. Qed.

Lemma corner_row_LUT_lookup md H r :
  r < H →
  corner_row_LUT md H !! r
  = Some (fst (corner_row_LUT_loop (keypoints_kp1_by_y md) (S r))).
Proof. apply corner_row_LUT_loop_lookup. Qed.

(** C2. The table has one entry per image row, entry [r] is the number of
    keypoints of frame k+1 whose row is strictly less than [r], and the
    entries never decrease. The keypoints are those of the matching data,
    which keeps them sorted by row. *)
Theorem corner_row_LUT_counts_rows_below (md : GyroTrackerMatchingData) (H : nat) :
  sorted_by_row (keypoints_kp1_by_y md) →
  length (corner_row_LUT md H) = H
  ∧ (∀ r, r < H →
       corner_row_LUT md H !! r
       = Some (count_rows_below r (keypoints_kp1_by_y md)))
  ∧ (∀ r, S r < H →
       ∃ a b, corner_row_LUT md H !! r = Some a
              ∧ corner_row_LUT md H !! S r = Some b ∧ a ≤ b).
Proof.
  intros Hsorted. split; [apply corner_row_LUT_length|]. split.
  - intros r Hr. rewrite corner_row_LUT_lookup by done.
    by rewrite corner_row_LUT_cursor_count.
  - intros r Hr. eexists _, _.
    split; [apply corner_row_LUT_lookup; lia|].
    split; [apply corner_row_LUT_lookup; lia|].
    apply corner_row_LUT_cursor_mono.
Qed.

Lemma count_rows_below_le r l : count_rows_below r l ≤ length l.
Proof. unfold count_rows_below. apply List.filter_length_le. Qed.

Lemma count_rows_below_total r l :
  count_rows_below r l = length l
  ↔ Forall (λ k, (row_of k < inject_Z (Z.of_nat r))%Q) l.
Proof.
  split; [|apply count_rows_below_all].
  induction l as [|k l IH]; intros Hcount; [constructor|].
  pose proof (count_rows_below_le r l) as Hle.
  unfold count_rows_below in *. simpl in Hcount.
  destruct (Qltb (row_of k) (inject_Z (Z.of_nat r))) eqn:E; simpl in Hcount.
  - constructor; [by apply Qltb_lt|]. apply IH. lia.
  - lia.
Qed.

Lemma example_keypoints_sorted : sorted_by_row example_keypoints_kp1.
Proof.
  unfold sorted_by_row, example_keypoints_kp1.
  sorted_rows.
Qed.

Lemma corner_row_LUT_counts_rows_below_witness :
  sorted_by_row (keypoints_kp1_by_y example_matching_data)
  ∧ length (corner_row_LUT example_matching_data 100) = 100
  ∧ (∀ r, r < 100 →
       corner_row_LUT example_matching_data 100 !! r
       = Some (count_rows_below r (keypoints_kp1_by_y example_matching_data)))
  ∧ (∀ r, S r < 100 →
       ∃ a b, corner_row_LUT example_matching_data 100 !! r = Some a
              ∧ corner_row_LUT example_matching_data 100 !! S r = Some b ∧ a ≤ b).
Proof.
  assert (Hs : sorted_by_row (keypoints_kp1_by_y example_matching_data)).
  { unfold sorted_by_row. simpl. unfold example_keypoints_kp1.
    sorted_rows. }
  split; [exact Hs|].
  exact (corner_row_LUT_counts_rows_below example_matching_data 100 Hs).
Defined.

(** C8, as the code has it. The last entry [table[H-1]] of the table of
    an image of height [H > 0] is the number of keypoints of frame k+1
    whose row is strictly less than [H-1]; it is the number of all
    keypoints exactly when every keypoint has a row below [H-1]. *)
Theorem corner_row_LUT_last_entry (md : GyroTrackerMatchingData) (H : nat) :
  sorted_by_row (keypoints_kp1_by_y md) → 0 < H →
  corner_row_LUT md H !! (H - 1)
  = Some (count_rows_below (H - 1) (keypoints_kp1_by_y md))
  ∧ (count_rows_below (H - 1) (keypoints_kp1_by_y md) = num_points_kp1 md
     ↔ Forall (λ k, (row_of k < inject_Z (Z.of_nat (H - 1)))%Q)
              (keypoints_kp1_by_y md)).
Proof.
  intros Hsorted HH. split.
  - rewrite corner_row_LUT_lookup by lia.
    by rewrite corner_row_LUT_cursor_count.
  - apply count_rows_below_total.
Qed.

Lemma corner_row_LUT_last_entry_witness :
  sorted_by_row (keypoints_kp1_by_y example_matching_data) ∧ 0 < 100
  ∧ corner_row_LUT example_matching_data 100 !! (100 - 1)
    = Some (count_rows_below (100 - 1) (keypoints_kp1_by_y example_matching_data))
  ∧ (count_rows_below (100 - 1) (keypoints_kp1_by_y example_matching_data)
     = num_points_kp1 example_matching_data
     ↔ Forall (λ k, (row_of k < inject_Z (Z.of_nat (100 - 1)))%Q)
              (keypoints_kp1_by_y example_matching_data)).
Proof.
  assert (Hs : sorted_by_row (keypoints_kp1_by_y example_matching_data)).
  { unfold sorted_by_row. simpl. unfold example_keypoints_kp1.
    sorted_rows. }
  assert (Hh : 0 < 100) by lia.
  split; [exact Hs|]. split; [exact Hh|].
  exact (corner_row_LUT_last_entry example_matching_data 100 Hs Hh).
Defined.

(** C8 as stated fails: in an image of height 100 with keypoints at rows
    9, 52 and 99, the last entry of the table is 2 while frame k+1 has 3
    keypoints. *)
Lemma corner_row_LUT_last_entry_not_total :
  sorted_by_row (keypoints_kp1_by_y example_matching_data)
  ∧ corner_row_LUT example_matching_data 100 !! (100 - 1) = Some 2
  ∧ num_points_kp1 example_matching_data = 3.
Proof.
  split; [apply example_keypoints_sorted|]. split; vm_compute; reflexivity.
Qed.

End LookupTable.


(** ** Conversions to [int] *)

Section Conversions.

Lemma double_to_int_Some q z :
  double_to_int q = Some z ↔ z = truncate q ∧ (INT_MIN ≤ z ≤ INT_MAX)%Z.
Proof.
  unfold double_to_int. cbv zeta.
  destruct ((INT_MIN <=? truncate q)%Z && (truncate q <=? INT_MAX)%Z) eqn:E.
  - apply andb_true_iff in E as [E1 E2].
    apply Z.leb_le in E1, E2. split.
    + intros [= <-]. done.
    + intros [-> _]. done.
  - split; [done|]. intros [-> [E1 E2]].
    apply Z.leb_le in E1, E2. rewrite E1, E2 in E. done.
Qed.

Lemma truncate_nonneg q : (0 <= q)%Q → (0 ≤ truncate q)%Z.
Proof.
  unfold Qle, truncate. simpl. intros Hq.
  apply Z.quot_pos; lia.
Qed.

(** A [double] with an integer value converts to that integer. *)
Lemma truncate_integer q z : (q == inject_Z z)%Q → truncate q = z.
Proof.
  unfold Qeq, truncate. simpl. intros Hq.
  rewrite Z.mul_1_r in Hq. rewrite Hq. apply Z.quot_mul. lia.
Qed.

Lemma truncate_floor q : (0 <= q)%Q → truncate q = Qfloor q.
Proof.
  destruct q as [n d]. unfold Qle, truncate, Qfloor. simpl. intros Hq.
  apply Z.quot_div_nonneg; lia.
Qed.

Lemma truncate_ceiling q : (q <= 0)%Q → truncate q = Qceiling q.
Proof.
  destruct q as [n d]. unfold Qle, truncate, Qceiling, Qfloor. simpl.
  intros Hq. rewrite <- (Z.opp_involutive n) at 1.
  rewrite Z.quot_opp_l by lia. f_equal. apply Z.quot_div_nonneg; lia.
Qed.

(** The conversion rounds towards zero. *)
Lemma truncate_le q : (0 <= q)%Q → (inject_Z (truncate q) <= q)%Q.
Proof. intros Hq. rewrite truncate_floor by done. apply Qfloor_le. Qed.

Lemma truncate_gt q : (q < inject_Z (truncate q) + 1)%Q.
Proof.
  destruct (Qlt_le_dec q 0) as [Hneg|Hpos].
  - rewrite truncate_ceiling by by apply Qlt_le_weak.
    pose proof (Qle_ceiling q). lra.
  - rewrite truncate_floor by done.
    pose proof (Qlt_floor q) as Hf. rewrite inject_Z_plus in Hf. exact Hf.
Qed.

Lemma truncate_lt q : (inject_Z (truncate q) - 1 < q)%Q.
Proof.
  destruct (Qlt_le_dec q 0) as [Hneg|Hpos].
  - rewrite truncate_ceiling by by apply Qlt_le_weak.
    pose proof (Qceiling_lt q) as Hc. unfold Z.sub in Hc.
    rewrite inject_Z_plus in Hc. change (inject_Z (- (1))) with (- (1))%Q in Hc.
    lra.
  - pose proof (truncate_le q Hpos). lra.
Qed.

Lemma truncate_nonpos q : (q <= 0)%Q → (truncate q ≤ 0)%Z.
Proof.
  intros Hq. rewrite truncate_ceiling by done.
  pose proof (Qceiling_lt q) as Hc.
  assert (inject_Z (Qceiling q - 1) < inject_Z 0)%Q as Hlt
    by (eapply Qlt_le_trans; [exact Hc|exact Hq]).
  rewrite <- Zlt_Qlt in Hlt. lia.
Qed.

Lemma truncate_mono a b : (a <= b)%Q → (truncate a ≤ truncate b)%Z.
Proof.
  intros Hab. destruct (Qlt_le_dec a 0) as [Ha|Ha].
  - destruct (Qlt_le_dec b 0) as [Hb|Hb].
    + rewrite !truncate_ceiling by by apply Qlt_le_weak.
      by apply Qceiling_resp_le.
    + pose proof (truncate_nonpos a (Qlt_le_weak _ _ Ha)).
      pose proof (truncate_nonneg b Hb). lia.
  - rewrite !truncate_floor by (done || by eapply Qle_trans).
    by apply Qfloor_resp_le.
Qed.

(** The integral part of [q] is a value of [int] exactly when [q] lies
    strictly between [INT_MIN - 1] and [INT_MAX + 1]. *)
Lemma truncate_in_int_range q :
  (INT_MIN ≤ truncate q ≤ INT_MAX)%Z
  ↔ (inject_Z INT_MIN - 1 < q)%Q ∧ (q < inject_Z INT_MAX + 1)%Q.
Proof.
  pose proof (truncate_gt q) as Hgt. pose proof (truncate_lt q) as Hlt.
  assert (Hmin : (INT_MIN ≤ 0)%Z) by (unfold INT_MIN; lia).
  assert (Hmax : (0 ≤ INT_MAX)%Z) by (unfold INT_MAX; lia).
  revert Hmin Hmax. generalize INT_MIN INT_MAX. intros lo hi Hmin Hmax. split.
  - intros [Hlo Hhi]. rewrite Zle_Qle in Hlo, Hhi. split; lra.
  - intros [Hlo Hhi]. destruct (Qlt_le_dec q 0) as [Hneg|Hpos].
    + pose proof (truncate_nonpos q (Qlt_le_weak _ _ Hneg)).
      split; [|lia].
      assert (inject_Z (lo - 1) < inject_Z (truncate q))%Q as H'.
      { rewrite truncate_ceiling by by apply Qlt_le_weak.
        pose proof (Qle_ceiling q).
        unfold Z.sub. rewrite inject_Z_plus.
        change (inject_Z (- (1))) with (- (1))%Q. lra. }
      rewrite <- Zlt_Qlt in H'. lia.
    + pose proof (truncate_nonneg q Hpos). pose proof (truncate_le q Hpos).
      split; [lia|].
      assert (inject_Z (truncate q) < inject_Z (hi + 1))%Q as H'.
      { rewrite inject_Z_plus. change (inject_Z 1) with 1%Q. lra. }
      rewrite <- Zlt_Qlt in H'. lia.
Qed.

Lemma double_to_int_defined q :
  (inject_Z INT_MIN - 1 < q)%Q → (q < inject_Z INT_MAX + 1)%Q →
  double_to_int q = Some (truncate q).
Proof.
  intros Hlo Hhi. apply double_to_int_Some. split; [done|].
  by apply truncate_in_int_range.
Qed.

Lemma double_to_int_in_range q z :
  double_to_int q = Some z →
  (inject_Z INT_MIN - 1 < q)%Q ∧ (q < inject_Z INT_MAX + 1)%Q.
Proof.
  intros [-> Hr]%double_to_int_Some. by apply truncate_in_int_range.
Qed.

(** The distance check of a window cannot fail for a candidate in a row
    at or above the prediction whose offsets from the prediction are
    those the window allows, when the search distance is two pixels or
    more. *)
Lemma norm_bound (px py x y D : Q) :
  (2 <= D)%Q → (px - D - 1 < x)%Q → (x < px + D + 1)%Q →
  (py - D - (1 # 2) < y)%Q → (y <= py)%Q →
  ((px - x) * (px - x) + (py - y) * (py - y) < (2 * D) * (2 * D))%Q.
Proof.
  intros HD H1 H2 H3 H4.
  assert (A : ((px - x) * (px - x) < (D + 1) * (D + 1))%Q) by nra.
  assert (B : ((py - y) * (py - y) < (D + (1 # 2)) * (D + (1 # 2)))%Q) by nra.
  nra.
Qed.

End Conversions.

(** ** The search of the two windows *)

Section Search.
Context `{GyroTrackerConstants}.
Variable L : nat.

Lemma CHECK_Some cond u : CHECK cond = Some u ↔ cond = true.
Proof. destruct cond, u; simpl; split; congruence. Qed.

Lemma CHECK_true cond : cond = true → CHECK cond = Some tt.
Proof. by intros ->. Qed.

Lemma readable_Some n x u : readable n x = Some u ↔ n ≤ length x.
Proof.
  unfold readable. destruct (n <=? length x) eqn:E.
  - apply Nat.leb_le in E. by destruct u.
  - apply Nat.leb_gt in E. split; [done|lia].
Qed.

Lemma readable_true n x : n ≤ length x → readable n x = Some tt.
Proof. apply readable_Some. Qed.

(** An invariant of the loop body is an invariant of the loop. *)
Lemma for_each_invariant {St A : Type} (P : St → Prop) (body : St → A → option St)
    (l : list A) : ∀ s s',
  (∀ s a s', a ∈ l → P s → body s a = Some s' → P s') →
  P s → for_each body s l = Some s' → P s'.
Proof.
  induction l as [|a l IH]; intros s s' Hbody Hs Hrun; simpl in Hrun.
  - by injection Hrun as <-.
  - destruct (body s a) as [s1|] eqn:E; simpl in Hrun; [|done].
    apply (IH s1 s'); [|by eapply Hbody; [left|..]|done].
    intros s2 a2 s3 Ha2. apply Hbody. by right.
Qed.

Lemma for_each_app {St A : Type} (body : St → A → option St) (l1 l2 : list A) s :
  for_each body s (l1 ++ l2) = s1 ← for_each body s l1; for_each body s1 l2.
Proof.
  revert s. induction l1 as [|a l1 IH]; intros s; simpl; [done|].
  destruct (body s a) as [s1|]; simpl; [apply IH|done].
Qed.

(** The loop over [seq a n] with an invariant that depends on the loop
    variable. *)
Lemma for_each_seq_invariant {St : Type} (P : nat → St → Prop)
    (body : St → nat → option St) n : ∀ a s s',
  (∀ i s s', a ≤ i < a + n → P i s → body s i = Some s' → P (S i) s') →
  P a s → for_each body s (seq a n) = Some s' → P (a + n) s'.
Proof.
  induction n as [|n IH]; intros a s s' Hbody Hs Hrun; simpl in Hrun.
  - injection Hrun as <-. by rewrite Nat.add_0_r.
  - destruct (body s a) as [s1|] eqn:E; simpl in Hrun; [|done].
    replace (a + S n) with (S a + n) by lia.
    apply (IH (S a) s1 s'); [|apply (Hbody a s); [lia|done..]|done].
    intros i s2 s3 Hi. apply Hbody. lia.
Qed.

(** What [score_candidate] does when it returns: the candidate has a
    descriptor, the comparator reads both views within their bytes, the
    candidate is counted and marked as processed, and it becomes the best
    exactly when its score strictly exceeds the running best. *)
Lemma score_candidate_Some sd md frame_kp1 predicted descriptor_k st it st' :
  score_candidate L sd md frame_kp1 predicted descriptor_k st it = Some st' →
  ∃ d, index it < num_points_kp1 md
    ∧ getDescriptor frame_kp1 (index it) = Some d
    ∧ (L ≤ length descriptor_k ∧ L ≤ length d)
    ∧ n_processed_corners st' = S (n_processed_corners st)
    ∧ processed_corners_kp1 st' = <[index it := true]> (processed_corners_kp1 st)
    ∧ ((best_score st < match_score L descriptor_k d)%Z
         ∧ norm_lt predicted (measurement it) (sd * 2) = true
         ∧ found st' = true ∧ it_best st' = Some it
         ∧ best_score st' = match_score L descriptor_k d
       ∨ (match_score L descriptor_k d ≤ best_score st)%Z
         ∧ found st' = found st ∧ it_best st' = it_best st
         ∧ best_score st' = best_score st).
Proof.
  unfold score_candidate. intros Hrun.
  destruct (CHECK (index it <? num_points_kp1 md)) as [[]|] eqn:Hidx;
    simpl in Hrun; [|done].
  apply CHECK_Some, Nat.ltb_lt in Hidx.
  destruct (getDescriptor frame_kp1 (index it)) as [d|] eqn:Hd;
    simpl in Hrun; [|done].
  destruct (readable L descriptor_k) as [[]|] eqn:Hrk; simpl in Hrun; [|done].
  destruct (readable L d) as [[]|] eqn:Hrd; simpl in Hrun; [|done].
  apply readable_Some in Hrk, Hrd.
  exists d. split; [done|]. split; [done|]. split; [done|].
  destruct (best_score st <? match_score L descriptor_k d)%Z eqn:Hcmp.
  - apply Z.ltb_lt in Hcmp.
    destruct (CHECK (norm_lt predicted (measurement it) (sd * 2))) as [[]|] eqn:Hn;
      simpl in Hrun; [|done].
    apply CHECK_Some in Hn. injection Hrun as <-. simpl.
    split; [done|]. split; [done|]. left. done.
  - apply Z.ltb_ge in Hcmp. simpl in Hrun. injection Hrun as <-. simpl.
    split; [done|]. split; [done|]. right. done.
Qed.

(** The small-window step either leaves the state as it is (the
    candidate is outside the columns or already matched) or scores the
    candidate, which is then inside the columns and not yet matched. *)
Lemma small_window_step_Some md frame_kp1 matched bounds predicted descriptor_k
    st it st' :
  small_window_step L md frame_kp1 matched bounds predicted descriptor_k st it
  = Some st' →
  (outside_columns bounds it = true ∨ matched !! index it = Some true) ∧ st' = st
  ∨ outside_columns bounds it = false
    ∧ matched !! index it = Some false
    ∧ score_candidate L kSmallSearchDistance md frame_kp1 predicted descriptor_k
        st it = Some st'.
Proof.
  unfold small_window_step. intros Hrun.
  destruct (outside_columns bounds it) eqn:Hcol.
  { left. split; [by left|congruence]. }
  destruct (matched !! index it) as [[|]|] eqn:Hm; simpl in Hrun; [| |done].
  { left. split; [by right|congruence]. }
  right. done.
Qed.

Lemma large_window_step_Some md frame_kp1 matched bounds predicted descriptor_k
    st it st' :
  large_window_step L md frame_kp1 matched bounds predicted descriptor_k st it
  = Some st' →
  st' = st
  ∨ outside_columns bounds it = false
    ∧ processed_corners_kp1 st !! index it = Some false
    ∧ matched !! index it = Some false
    ∧ score_candidate L kLargeSearchDistance md frame_kp1 predicted descriptor_k
        st it = Some st'.
Proof.
  unfold large_window_step. intros Hrun.
  destruct (processed_corners_kp1 st !! index it) as [[|]|] eqn:Hp;
    simpl in Hrun; [left; congruence| |done].
  destruct (matched !! index it) as [[|]|] eqn:Hm; simpl in Hrun;
    [left; congruence| |done].
  destruct (outside_columns bounds it) eqn:Hcol.
  { left. congruence. }
  right. done.
Qed.

(** A step of either window leaves the state as it is or scores the
    candidate, which is then inside the column bounds and not matched. *)
Lemma window_step_Some w md frame_kp1 matched bounds predicted descriptor_k
    st it st' :
  window_step L w md frame_kp1 matched bounds predicted descriptor_k st it
  = Some st' →
  st' = st
  ∨ outside_columns bounds it = false
    ∧ matched !! index it = Some false
    ∧ score_candidate L (window_distance w) md frame_kp1 predicted descriptor_k
        st it = Some st'.
Proof.
  destruct w; simpl; intros Hrun.
  - apply small_window_step_Some in Hrun as [[_ ->]|(? & ? & ?)]; auto.
  - apply large_window_step_Some in Hrun as [->|(? & ? & ? & ?)]; auto.
Qed.

(** The column bounds, where they are values of [int]. *)
Lemma column_bounds_Some d predicted bounds :
  column_bounds d predicted = Some bounds ↔
  bounds = (truncate (fst predicted - inject_Z d),
            truncate (fst predicted + inject_Z d))
  ∧ (INT_MIN ≤ fst bounds ≤ INT_MAX)%Z ∧ (INT_MIN ≤ snd bounds ≤ INT_MAX)%Z.
Proof.
  unfold column_bounds. split.
  - intros Hrun.
    destruct (double_to_int (fst predicted - inject_Z d)) as [l|] eqn:El;
      simpl in Hrun; [|done].
    destruct (double_to_int (fst predicted + inject_Z d)) as [r|] eqn:Er;
      simpl in Hrun; [|done].
    injection Hrun as <-. apply double_to_int_Some in El as [-> ?].
    apply double_to_int_Some in Er as [-> ?]. done.
  - intros (-> & Hl & Hr). simpl in Hl, Hr.
    rewrite (proj2 (double_to_int_Some _ _) (conj eq_refl Hl)). simpl.
    rewrite (proj2 (double_to_int_Some _ _) (conj eq_refl Hr)). done.
Qed.

Lemma inside_columns_Some d predicted bounds c :
  column_bounds d predicted = Some bounds →
  inside_columns d predicted c = negb (outside_columns bounds c).
Proof. unfold inside_columns. by intros ->. Qed.

Lemma inside_columns_true d predicted c :
  inside_columns d predicted c = true →
  ∃ bounds, column_bounds d predicted = Some bounds
            ∧ outside_columns bounds c = false.
Proof.
  unfold inside_columns. destruct (column_bounds d predicted) as [b|]; [|done].
  intros Hc. exists b. split; [done|]. by apply negb_true_iff.
Qed.

(** The clamped rows of a window, where the rows are values of [int]
    before they are clamped. *)
Lemma search_rows_Some image_height predicted d idx :
  search_rows image_height predicted d = Some idx ↔
  idx = (clamp 0 (image_height_minus_1 image_height)
           (truncate (snd predicted + (1 # 2) - inject_Z d)),
         clamp 0 (image_height_minus_1 image_height)
           (truncate (snd predicted + (1 # 2) + inject_Z d)))
  ∧ (INT_MIN ≤ truncate (snd predicted + (1 # 2) - inject_Z d) ≤ INT_MAX)%Z
  ∧ (INT_MIN ≤ truncate (snd predicted + (1 # 2) + inject_Z d) ≤ INT_MAX)%Z.
Proof.
  unfold search_rows. split.
  - intros Hrun.
    destruct (double_to_int (snd predicted + (1 # 2) - inject_Z d)) as [t|] eqn:Et;
      simpl in Hrun; [|done].
    destruct (double_to_int (snd predicted + (1 # 2) + inject_Z d)) as [b|] eqn:Eb;
      simpl in Hrun; [|done].
    injection Hrun as <-. apply double_to_int_Some in Et as [-> ?].
    apply double_to_int_Some in Eb as [-> ?]. done.
  - intros (-> & Ht & Hb).
    rewrite (proj2 (double_to_int_Some _ _) (conj eq_refl Ht)). simpl.
    rewrite (proj2 (double_to_int_Some _ _) (conj eq_refl Hb)). done.
Qed.

End Search.

(** ** The matches of a call *)

Section Matches.
Context `{GyroTrackerConstants}.
Variable kdescriptorSizeBytes : nat.
Local Abbreviation L := kdescriptorSizeBytes.

Lemma search_invariant_weaken threshold frame_kp1 matched descriptor_k
    (P Q : KeypointData → Prop) st :
  (∀ c, P c → Q c) →
  search_invariant L threshold frame_kp1 matched descriptor_k P st →
  search_invariant L threshold frame_kp1 matched descriptor_k Q st.
Proof.
  unfold search_invariant. intros HPQ. destruct (found st); [|done].
  intros (c & d & ? & ? & ?). exists c, d. split; [done|]. split; [auto|done].
Qed.

Lemma search_invariant_initial md threshold frame_kp1 matched descriptor_k P :
  search_invariant L threshold frame_kp1 matched descriptor_k P
    (initial_search_state md threshold).
Proof. unfold search_invariant. simpl. done. Qed.

(** The running best never falls below the threshold. *)
Lemma search_invariant_best_score threshold frame_kp1 matched descriptor_k P st :
  search_invariant L threshold frame_kp1 matched descriptor_k P st →
  (threshold ≤ best_score st)%Z.
Proof.
  unfold search_invariant. destruct (found st).
  - intros (c & d & _ & _ & _ & _ & _ & _ & _ & Hlt). lia.
  - intros [_ ->]. lia.
Qed.

Lemma search_invariant_score_candidate sd md threshold frame_kp1 matched predicted
    descriptor_k (P : KeypointData → Prop) st it st' :
  P it → matched !! index it = Some false →
  search_invariant L threshold frame_kp1 matched descriptor_k P st →
  score_candidate L sd md frame_kp1 predicted descriptor_k st it = Some st' →
  search_invariant L threshold frame_kp1 matched descriptor_k P st'.
Proof.
  intros HP Hm Hinv Hrun.
  pose proof (search_invariant_best_score _ _ _ _ _ _ Hinv) as Hge.
  apply score_candidate_Some in Hrun
    as (d & _ & Hd & [Hlk Hld] & _ & _
        & [(Hlt & _ & Hf & Hb & Hs)|(_ & Hf & Hb & Hs)]).
  - unfold search_invariant. rewrite Hf. exists it, d.
    repeat split; [done..|lia].
  - unfold search_invariant in *. rewrite Hf, Hb, Hs. exact Hinv.
Qed.

Lemma search_invariant_loop w md threshold frame_kp1 matched bounds predicted
    descriptor_k (P : KeypointData → Prop) corners st st' :
  (∀ c, c ∈ corners → P c) →
  search_invariant L threshold frame_kp1 matched descriptor_k P st →
  for_each (window_step L w md frame_kp1 matched bounds predicted descriptor_k)
    st corners = Some st' →
  search_invariant L threshold frame_kp1 matched descriptor_k P st'.
Proof.
  intros HP. apply for_each_invariant. intros s it s' Hin Hs Hstep.
  apply window_step_Some in Hstep as [->|(_ & Hm & Hstep)]; [done|].
  eapply search_invariant_score_candidate; eauto.
Qed.

(** What the search of the small window computes before its loop. *)
Lemma search_small_window_Some md frame_kp1 matched predicted descriptor_k
    corners st :
  search_small_window L md frame_kp1 matched predicted descriptor_k corners
  = Some st →
  ∃ threshold bounds,
    initial_best_score L = Some threshold
    ∧ column_bounds kSmallSearchDistance predicted = Some bounds
    ∧ for_each (window_step L SmallWindow md frame_kp1 matched bounds predicted
                  descriptor_k) (initial_search_state md threshold) corners
      = Some st.
Proof.
  unfold search_small_window. intros Hrun.
  destruct (initial_best_score L) as [threshold|]; simpl in Hrun; [|done].
  destruct (column_bounds kSmallSearchDistance predicted) as [bounds|];
    simpl in Hrun; [|done].
  by exists threshold, bounds.
Qed.

(** The large window is searched only from a state without a match. *)
Lemma search_large_window_Some md frame_kp1 matched predicted descriptor_k
    corners st0 st :
  search_large_window L md frame_kp1 matched predicted descriptor_k corners st0
  = Some st →
  found st0 = true ∧ st = st0
  ∨ found st0 = false
    ∧ ∃ bounds,
        column_bounds kLargeSearchDistance predicted = Some bounds
        ∧ for_each (window_step L LargeWindow md frame_kp1 matched bounds
                      predicted descriptor_k) st0 corners = Some st.
Proof.
  unfold search_large_window. destruct (found st0).
  - intros [= <-]. by left.
  - intros Hrun. right. split; [done|].
    destruct (column_bounds kLargeSearchDistance predicted) as [bounds|];
      simpl in Hrun; [|done].
    by exists bounds.
Qed.

Lemma nearest_corners_Some md image_height predicted corners :
  nearest_corners md image_height predicted = Some corners →
  ∃ idx, search_rows image_height predicted kSmallSearchDistance = Some idx
    ∧ window_corners md image_height (corner_row_LUT md image_height) idx
      = Some corners.
Proof.
  unfold nearest_corners. intros Hrun.
  destruct (search_rows image_height predicted kSmallSearchDistance) as [idx|];
    simpl in Hrun; [|done].
  by exists idx.
Qed.

Lemma near_corners_Some md image_height predicted corners :
  near_corners md image_height predicted = Some corners →
  ∃ idx, search_rows image_height predicted kLargeSearchDistance = Some idx
    ∧ window_corners md image_height (corner_row_LUT md image_height) idx
      = Some corners.
Proof.
  unfold near_corners. intros Hrun.
  destruct (search_rows image_height predicted kLargeSearchDistance) as [idx|];
    simpl in Hrun; [|done].
  by exists idx.
Qed.

(** Every keypoint between the two iterators of a window is a keypoint
    of frame k+1 whose row is below [image_height - 1]: the end iterator
    is an entry of the table at a row of at most [image_height - 1]. *)
Lemma window_corners_reachable md image_height idx corners :
  window_corners md image_height (corner_row_LUT md image_height) idx
  = Some corners →
  ∀ c, c ∈ corners → reachable_corner image_height md c.
Proof.
  unfold window_corners, iterator_range. intros Hrun c Hc.
  destruct (corner_row_LUT md image_height !! Z.to_nat (Z.min (fst idx)
              (image_height_minus_1 image_height))) as [b|] eqn:Hb;
    simpl in Hrun; [|done].
  destruct (corner_row_LUT md image_height !! Z.to_nat (Z.min (snd idx + 1)
              (image_height_minus_1 image_height))) as [e|] eqn:He;
    simpl in Hrun; [|done].
  destruct (CHECK (b <=? e)) as [[]|] eqn:Hbe; simpl in Hrun; [|done].
  destruct (CHECK (e <=? length (keypoints_kp1_by_y md))) as [[]|] eqn:Hel;
    simpl in Hrun; [|done].
  injection Hrun as <-.
  apply CHECK_Some, Nat.leb_le in Hbe.
  pose proof (lookup_lt_Some _ _ _ He) as Hlt.
  rewrite corner_row_LUT_length in Hlt.
  rewrite corner_row_LUT_lookup in He by done.
  pose proof (corner_row_LUT_cursor_ok (keypoints_kp1_by_y md) (Z.to_nat
    (Z.min (snd idx + 1) (image_height_minus_1 image_height)))) as [_ Hall].
  injection He as He. rewrite He in Hall. clear He.
  rewrite take_drop_commute in Hc.
  replace (b + (e - b)) with e in Hc by lia.
  apply list_elem_of_lookup in Hc as [j Hj]. rewrite lookup_drop in Hj.
  assert (Hin : c ∈ take e (keypoints_kp1_by_y md)).
  { apply list_elem_of_lookup. eauto. }
  split.
  - apply list_elem_of_lookup in Hin as [j' Hj'].
    apply lookup_take_Some in Hj' as [Hj' _].
    apply list_elem_of_lookup. eauto.
  - rewrite Forall_forall in Hall. specialize (Hall c Hin). simpl in Hall.
    eapply Qlt_le_trans; [exact Hall|].
    rewrite <- Zle_Qle. unfold image_height_minus_1 in *. lia.
Qed.

Lemma nearest_corners_reachable md image_height predicted corners :
  nearest_corners md image_height predicted = Some corners →
  ∀ c, c ∈ corners → reachable_corner image_height md c.
Proof.
  intros (idx & _ & Hw)%nearest_corners_Some.
  by eapply window_corners_reachable.
Qed.

Lemma near_corners_reachable md image_height predicted corners :
  near_corners md image_height predicted = Some corners →
  ∀ c, c ∈ corners → reachable_corner image_height md c.
Proof.
  intros (idx & _ & Hw)%near_corners_Some.
  by eapply window_corners_reachable.
Qed.

Lemma check_rows_Some image_height idx u :
  check_rows image_height idx = Some u →
  (0 ≤ fst idx ≤ snd idx)%Z ∧ (snd idx < Z.of_nat image_height)%Z.
Proof.
  unfold check_rows. intros Hrun.
  repeat match type of Hrun with
  | context [CHECK ?b] =>
      let E := fresh "E" in
      destruct (CHECK b) as [[]|] eqn:E; simpl in Hrun; [|done];
      apply CHECK_Some in E
  end.
  apply Z.leb_le in E, E0, E1. apply Z.ltb_lt in E2, E3. lia.
Qed.

(** What the searches for keypoint [i] of frame k go through when they
    return. *)
Lemma search_keypoint_inv image_height md frame_kp1 frame_k matched i st :
  search_keypoint L image_height md frame_kp1 frame_k matched i = Some st →
  ∃ predicted descriptor_k idxnearest idxnear small large st_small,
    predicted_keypoint_positions_kp1 md !! i = Some predicted
    ∧ getDescriptor frame_k i = Some descriptor_k
    ∧ search_rows image_height predicted kSmallSearchDistance = Some idxnearest
    ∧ search_rows image_height predicted kLargeSearchDistance = Some idxnear
    ∧ check_rows image_height idxnearest = Some tt
    ∧ check_rows image_height idxnear = Some tt
    ∧ nearest_corners md image_height predicted = Some small
    ∧ near_corners md image_height predicted = Some large
    ∧ search_small_window L md frame_kp1 matched predicted descriptor_k small
      = Some st_small
    ∧ search_large_window L md frame_kp1 matched predicted descriptor_k large
        st_small = Some st.
Proof.
  unfold search_keypoint. intros Hrun.
  destruct (predicted_keypoint_positions_kp1 md !! i) as [predicted|] eqn:Hp;
    cbn [mbind option_bind] in Hrun; [|done].
  destruct (getDescriptor frame_k i) as [descriptor_k|] eqn:Hd;
    cbn [mbind option_bind] in Hrun; [|done].
  destruct (search_rows image_height predicted kSmallSearchDistance)
    as [idxnearest|] eqn:Hs; cbn [mbind option_bind] in Hrun; [|done].
  destruct (search_rows image_height predicted kLargeSearchDistance)
    as [idxnear|] eqn:Hl; cbn [mbind option_bind] in Hrun; [|done].
  destruct (check_rows image_height idxnearest) as [[]|] eqn:Hcs;
    cbn [mbind option_bind] in Hrun; [|done].
  destruct (check_rows image_height idxnear) as [[]|] eqn:Hcl;
    cbn [mbind option_bind] in Hrun; [|done].
  destruct (nearest_corners md image_height predicted) as [small|] eqn:Hsmall;
    cbn [mbind option_bind] in Hrun; [|done].
  destruct (near_corners md image_height predicted) as [large|] eqn:Hlarge;
    cbn [mbind option_bind] in Hrun; [|done].
  destruct (search_small_window L md frame_kp1 matched predicted descriptor_k
              small) as [st_small|] eqn:Hs1;
    cbn [mbind option_bind] in Hrun; [|done].
  exists predicted, descriptor_k, idxnearest, idxnear, small, large, st_small.
  split_and!; done.
Qed.

(** The searches for keypoint [i] of frame k end in a state that
    satisfies the invariant for reachable corners. *)
Lemma search_keypoint_Some image_height md frame_kp1 frame_k matched i st :
  search_keypoint L image_height md frame_kp1 frame_k matched i = Some st →
  ∃ descriptor_k threshold,
    i < num_points_k md
    ∧ getDescriptor frame_k i = Some descriptor_k
    ∧ initial_best_score L = Some threshold
    ∧ search_invariant L threshold frame_kp1 matched descriptor_k
        (reachable_corner image_height md) st.
Proof.
  intros (predicted & descriptor_k & idxS & idxL & small & large & st1
          & Hp & Hd & _ & _ & _ & _ & Hsmall & Hlarge & Hs1 & Hrun)
         %search_keypoint_inv.
  apply search_small_window_Some in Hs1 as (threshold & bounds & Ht & _ & Hs1).
  exists descriptor_k, threshold.
  split; [by eapply lookup_lt_Some|]. split; [done|]. split; [done|].
  assert (Hinv1 : search_invariant L threshold frame_kp1 matched descriptor_k
                    (reachable_corner image_height md) st1).
  { eapply search_invariant_loop; [|apply search_invariant_initial|exact Hs1].
    by eapply nearest_corners_reachable. }
  apply search_large_window_Some in Hrun as [[_ ->]|(_ & b & _ & Hrun)]; [done|].
  eapply search_invariant_loop; [|exact Hinv1|exact Hrun].
  by eapply near_corners_reachable.
Qed.

Lemma matches_invariant_initial image_height md frame_kp1 frame_k :
  matches_invariant L image_height md frame_kp1 frame_k 0
    (replicate (num_points_kp1 md) false, []).
Proof. repeat split; simpl; constructor. Qed.

(** The round of keypoint [i] keeps the invariant of the outer loop. *)
Lemma match_keypoint_invariant image_height md frame_kp1 frame_k i st st' :
  matches_invariant L image_height md frame_kp1 frame_k i st →
  match_keypoint L image_height md frame_kp1 frame_k st i = Some st' →
  matches_invariant L image_height md frame_kp1 frame_k (S i) st'.
Proof.
  destruct st as [matched ms]. intros (Hall & Hnd1 & Hnd0) Hrun.
  simpl in Hall, Hnd1, Hnd0. unfold match_keypoint in Hrun.
  destruct (search_keypoint L image_height md frame_kp1 frame_k matched i)
    as [search|] eqn:Hsearch; simpl in Hrun; [|done].
  apply search_keypoint_Some in Hsearch
    as (descriptor_k & threshold & Hi & Hdk & Hthr & Hinv).
  unfold search_invariant in Hinv. destruct (found search).
  - destruct Hinv
      as (c & d & Hbest & Hreach & Hm & Hd & Hlk & Hld & Hscore & Hlt).
    rewrite Hbest in Hrun. simpl in Hrun. rewrite Hm in Hrun. simpl in Hrun.
    injection Hrun as <-.
    assert (Hfresh : ∀ m, m ∈ ms → index_kp1 m ≠ index c).
    { intros m Hin Heq. rewrite Forall_forall in Hall.
      destruct (Hall m Hin) as [Ht _]. congruence. }
    repeat split; simpl.
    + apply Forall_app. split.
      * rewrite Forall_forall in Hall |- *. intros m Hin.
        destruct (Hall m Hin) as (Ht & Hk & Hacc).
        split; [|split; [lia|done]].
        rewrite list_lookup_insert_ne; [done|]. intros Heq.
        by apply (Hfresh m Hin).
      * constructor; [|constructor]. simpl. split; [|split; [lia|]].
        { apply list_lookup_insert_eq. by eapply lookup_lt_Some. }
        split; [done|]. split; [done|]. simpl.
        exists c, descriptor_k, d, threshold. rewrite <- Hscore. done.
    + rewrite List.map_app. simpl. apply NoDup_app. split; [done|].
      split; [|apply NoDup_singleton].
      intros t Ht Ht'. apply list_elem_of_singleton in Ht'. subst t.
      apply list_elem_of_In, in_map_iff in Ht as (m & Heq & Hin).
      apply list_elem_of_In in Hin. by apply (Hfresh m Hin).
    + rewrite List.map_app. simpl. apply NoDup_app. split; [done|].
      split; [|apply NoDup_singleton].
      intros t Ht Ht'. apply list_elem_of_singleton in Ht'. subst t.
      apply list_elem_of_In, in_map_iff in Ht as (m & Heq & Hin).
      apply list_elem_of_In in Hin. rewrite Forall_forall in Hall.
      destruct (Hall m Hin) as (_ & Hk & _). lia.
  - injection Hrun as <-. repeat split; simpl; [|done..].
    eapply Forall_impl; [exact Hall|]. simpl. intros m (? & ? & ?).
    split; [done|]. split; [lia|done].
Qed.

(** The loop of a call that returns. *)
Lemma matchFeatures_inv camera_ md frame_kp1 frame_k matches :
  matchFeatures L camera_ md frame_kp1 frame_k = Some matches →
  L * 8 ≤ 512
  ∧ ∃ flags,
      for_each (match_keypoint L (imageHeight camera_) md frame_kp1 frame_k)
        (replicate (num_points_kp1 md) false, []) (seq 0 (num_points_k md))
      = Some (flags, matches).
Proof.
  unfold matchFeatures. intros Hrun.
  destruct (CHECK (length (corner_row_LUT md (imageHeight camera_))
                   =? imageHeight camera_)) as [[]|]; simpl in Hrun; [|done].
  destruct (CHECK (L * 8 <=? 512)) as [[]|] eqn:Hw; simpl in Hrun; [|done].
  apply CHECK_Some, Nat.leb_le in Hw. split; [done|].
  destruct (for_each (match_keypoint L (imageHeight camera_) md frame_kp1 frame_k)
              (replicate (num_points_kp1 md) false, [])
              (seq 0 (num_points_k md))) as [[flags ms]|] eqn:Hloop;
    simpl in Hrun; [|done].
  injection Hrun as <-. by exists flags.
Qed.

(** The matches of a call that returns: the records are accepted
    matches, and no index of either frame occurs twice. *)
Lemma matchFeatures_Some camera_ md frame_kp1 frame_k matches :
  matchFeatures L camera_ md frame_kp1 frame_k = Some matches →
  Forall (accepted_match L (imageHeight camera_) md frame_kp1 frame_k) matches
  ∧ NoDup (map index_kp1 matches)
  ∧ NoDup (map index_k matches).
Proof.
  intros (_ & flags & Hloop)%matchFeatures_inv.
  apply (for_each_seq_invariant
           (matches_invariant L (imageHeight camera_) md frame_kp1 frame_k))
    in Hloop.
  - destruct Hloop as (Hall & Hnd1 & Hnd0). split; [|done].
    eapply Forall_impl; [exact Hall|]. simpl. by intros m (_ & _ & ?).
  - intros i s s' _. apply match_keypoint_invariant.
  - apply matches_invariant_initial.
Qed.

Lemma initial_best_score_nonneg threshold :
  (0 <= kMatchingThresholdBitsRatio)%Q →
  initial_best_score L = Some threshold → (0 ≤ threshold)%Z.
Proof.
  intros Hr [-> _]%double_to_int_Some. apply truncate_nonneg.
  apply Qmult_le_0_compat; [|done].
  unfold kdescriptorSizeBits. rewrite <- (Zle_Qle 0). lia.
Qed.

Lemma NoDup_map_injective {A B : Type} (f : A → B) (l : list A) a b :
  NoDup (map f l) → a ∈ l → b ∈ l → f a = f b → a = b.
Proof.
  induction l as [|x l IH]; simpl; intros Hnd Ha Hb Hab.
  - by apply elem_of_nil in Ha.
  - apply NoDup_cons in Hnd as [Hx Hnd].
    apply elem_of_cons in Ha as [->|Ha]; apply elem_of_cons in Hb as [->|Hb].
    + done.
    + exfalso. apply Hx. rewrite Hab. apply list_elem_of_In, in_map.
      by apply list_elem_of_In.
    + exfalso. apply Hx. rewrite <- Hab. apply list_elem_of_In, in_map.
      by apply list_elem_of_In.
    + by apply IH.
Qed.

(** C1. The matches of a call are injective on both sides: no index of
    frame k+1 and no index of frame k occurs in two match records. This
    holds in every call, whatever value the static descriptor size has. *)
Theorem matchFeatures_injective (camera_ : Camera) (md : GyroTrackerMatchingData)
    (frame_kp1 frame_k : VisualFrame) (matches : list MatchWithScore) :
  matchFeatures kdescriptorSizeBytes camera_ md frame_kp1 frame_k = Some matches →
  NoDup (map index_kp1 matches) ∧ NoDup (map index_k matches).
Proof. intros Hrun. by apply matchFeatures_Some in Hrun as (_ & ? & ?). Qed.

(** The same for [track], whatever the constructor of the matching data. *)
Lemma track_injective {Quaternion : Type}
    (matching_data :
       Quaternion → VisualFrame → VisualFrame → option GyroTrackerMatchingData)
    camera_ q frame_k frame_kp1 out matches :
  track L matching_data camera_ q frame_k frame_kp1 out = Some matches →
  NoDup (map index_kp1 matches) ∧ NoDup (map index_k matches).
Proof.
  unfold track. intros Hrun.
  destruct (track_checks camera_ frame_k frame_kp1 out) as [kp1|];
    simpl in Hrun; [|done].
  destruct (matching_data q kp1 frame_k) as [md|]; simpl in Hrun; [|done].
  by apply matchFeatures_Some in Hrun as (_ & ? & ?).
Qed.

(** C5. Every match record of a call pairs the index of the accepted
    keypoint of frame k+1 with the index of the keypoint of frame k and
    carries the score 0. The score computed for the two descriptors
    exceeds the threshold, so with a threshold ratio that is not negative
    it is not the score of the record. *)
Theorem matchFeatures_placeholder_score (camera_ : Camera)
    (md : GyroTrackerMatchingData) (frame_kp1 frame_k : VisualFrame)
    (matches : list MatchWithScore) (m : MatchWithScore) :
  matchFeatures kdescriptorSizeBytes camera_ md frame_kp1 frame_k = Some matches →
  m ∈ matches →
  score m = 0%Q
  ∧ ∃ c descriptor_k descriptor_kp1 threshold,
      c ∈ keypoints_kp1_by_y md
      ∧ index_kp1 m = index c
      ∧ index_k m < num_points_k md
      ∧ getDescriptor frame_k (index_k m) = Some descriptor_k
      ∧ getDescriptor frame_kp1 (index_kp1 m) = Some descriptor_kp1
      ∧ initial_best_score kdescriptorSizeBytes = Some threshold
      ∧ (threshold
         < match_score kdescriptorSizeBytes descriptor_k descriptor_kp1)%Z
      ∧ ((0 <= kMatchingThresholdBitsRatio)%Q →
         ¬ (score m
            == inject_Z (match_score kdescriptorSizeBytes descriptor_k
                           descriptor_kp1))%Q).
Proof.
  intros Hrun Hm. apply matchFeatures_Some in Hrun as (Hall & _ & _).
  rewrite Forall_forall in Hall.
  destruct (Hall m Hm)
    as (Hs & Hk & c & dk & d & t & [Hc _] & Hi & Hdk & Hd & _ & _ & Ht & Hlt).
  split; [done|]. exists c, dk, d, t. repeat split; try done.
  intros Hr Heq. rewrite Hs in Heq.
  pose proof (initial_best_score_nonneg t Hr Ht) as Hnn.
  unfold Qeq in Heq. simpl in Heq. lia.
Qed.

(** C10. A keypoint of frame k+1 whose row is [image_height - 1] or more
    lies in neither window of any predicted position, and its index is in
    no match record of the call. The indices of the keypoints of frame
    k+1 are pairwise distinct. *)
Theorem last_row_keypoint_never_matched (camera_ : Camera)
    (md : GyroTrackerMatchingData) (frame_kp1 frame_k : VisualFrame)
    (matches : list MatchWithScore) (k : KeypointData) :
  matchFeatures kdescriptorSizeBytes camera_ md frame_kp1 frame_k = Some matches →
  NoDup (map index (keypoints_kp1_by_y md)) →
  k ∈ keypoints_kp1_by_y md →
  (inject_Z (image_height_minus_1 (imageHeight camera_)) <= row_of k)%Q →
  (∀ predicted corners,
     nearest_corners md (imageHeight camera_) predicted = Some corners
     ∨ near_corners md (imageHeight camera_) predicted = Some corners →
     k ∉ corners)
  ∧ index k ∉ map index_kp1 matches.
Proof.
  intros Hrun Hnd Hk Hrow. split.
  - intros predicted corners Hw Hin.
    assert (Hreach : reachable_corner (imageHeight camera_) md k).
    { destruct Hw as [Hw|Hw];
        [by eapply nearest_corners_reachable|by eapply near_corners_reachable]. }
    destruct Hreach as [_ Hlt]. by apply (Qlt_not_le _ _ Hlt).
  - intros Hin. apply list_elem_of_In, in_map_iff in Hin as (m & Heq & Hm).
    apply list_elem_of_In in Hm.
    apply matchFeatures_Some in Hrun as (Hall & _ & _).
    rewrite Forall_forall in Hall.
    destruct (Hall m Hm) as (_ & _ & c & _ & _ & _ & [Hc Hlt] & Hi & _).
    assert (c = k) as ->.
    { eapply NoDup_map_injective; [exact Hnd|done..|congruence]. }
    by apply (Qlt_not_le _ _ Hlt).
Qed.

End Matches.

(** ** The range of a window in the sorted keypoints *)

Section WindowRange.

Lemma cursor_is_ok kps r : cursor_ok kps r (cursor kps r).
Proof. apply corner_row_LUT_cursor_ok. Qed.

Lemma cursor_mono kps r r' : r ≤ r' → cursor kps r ≤ cursor kps r'.
Proof. intros Hr. apply corner_row_LUT_cursor_mono_le. lia. Qed.

Lemma count_rows_below_zero r l :
  count_rows_below r l = 0 →
  Forall (λ k, (inject_Z (Z.of_nat r) <= row_of k)%Q) l.
Proof.
  unfold count_rows_below. induction l as [|k l IH]; simpl; [constructor|].
  destruct (Qltb (row_of k) (inject_Z (Z.of_nat r))) eqn:E; simpl; [lia|].
  intros Hl. constructor; [by apply Qltb_ge|by apply IH].
Qed.

(** On sorted keypoints, those from the cursor of row [r] on have a row
    of [r] or more. *)
Lemma cursor_drop_ge kps r :
  sorted_by_row kps →
  Forall (λ k, (inject_Z (Z.of_nat r) <= row_of k)%Q) (drop (cursor kps r) kps).
Proof.
  intros Hsorted. apply count_rows_below_zero.
  pose proof (corner_row_LUT_cursor_count kps r Hsorted) as Hcount.
  fold (cursor kps r) in Hcount.
  destruct (cursor_is_ok kps r) as [Hlen Hall].
  rewrite <- (take_drop (cursor kps r) kps) in Hcount at 2.
  rewrite count_rows_below_app, count_rows_below_all in Hcount by done.
  rewrite length_take in Hcount. lia.
Qed.

Lemma position_lt_cursor kps r j c :
  sorted_by_row kps → kps !! j = Some c →
  (row_of c < inject_Z (Z.of_nat r))%Q → j < cursor kps r.
Proof.
  intros Hsorted Hj Hrow. destruct (decide (j < cursor kps r)) as [|Hge]; [done|].
  pose proof (cursor_drop_ge kps r Hsorted) as Hall.
  rewrite Forall_forall in Hall. exfalso.
  apply (Qlt_not_le _ _ Hrow), Hall.
  apply list_elem_of_lookup. exists (j - cursor kps r).
  rewrite lookup_drop. rewrite <- Hj. f_equal. lia.
Qed.

Lemma position_ge_cursor kps r j c :
  kps !! j = Some c →
  (inject_Z (Z.of_nat r) <= row_of c)%Q → cursor kps r ≤ j.
Proof.
  intros Hj Hrow. destruct (decide (cursor kps r ≤ j)) as [|Hlt]; [done|].
  destruct (cursor_is_ok kps r) as [_ Hall].
  rewrite Forall_forall in Hall. exfalso.
  apply (Qle_not_lt _ _ Hrow), Hall.
  apply list_elem_of_lookup. exists j. rewrite lookup_take_lt by lia. done.
Qed.

(** The keypoints between the cursors of two rows are those with a row
    between the two. *)
Lemma window_range_rows kps top bottom c :
  sorted_by_row kps →
  c ∈ take (cursor kps bottom - cursor kps top) (drop (cursor kps top) kps) →
  c ∈ kps
  ∧ (inject_Z (Z.of_nat top) <= row_of c)%Q
  ∧ (row_of c < inject_Z (Z.of_nat bottom))%Q.
Proof.
  intros Hsorted Hc. apply list_elem_of_lookup in Hc as [j Hj].
  apply lookup_take_Some in Hj as [Hj Hlt]. split; [|split].
  - rewrite lookup_drop in Hj. apply list_elem_of_lookup. eauto.
  - pose proof (cursor_drop_ge kps top Hsorted) as Hall.
    rewrite Forall_forall in Hall. apply Hall.
    apply list_elem_of_lookup. eauto.
  - destruct (cursor_is_ok kps bottom) as [_ Hall].
    rewrite Forall_forall in Hall. apply Hall.
    rewrite lookup_drop in Hj.
    apply list_elem_of_lookup. exists (cursor kps top + j).
    rewrite lookup_take_lt by lia. done.
Qed.

Lemma window_range_elem kps top bottom j c :
  sorted_by_row kps → kps !! j = Some c →
  (inject_Z (Z.of_nat top) <= row_of c)%Q →
  (row_of c < inject_Z (Z.of_nat bottom))%Q →
  c ∈ take (cursor kps bottom - cursor kps top) (drop (cursor kps top) kps).
Proof.
  intros Hsorted Hj Htop Hbottom.
  pose proof (position_ge_cursor kps top j c Hj Htop).
  pose proof (position_lt_cursor kps bottom j c Hsorted Hj Hbottom).
  apply list_elem_of_lookup. exists (j - cursor kps top).
  rewrite lookup_take_lt by lia. rewrite lookup_drop. rewrite <- Hj. f_equal. lia.
Qed.

(** When the [CHECK]s on the clamped rows pass, the two iterators of the
    window exist and the range between them is that of the cursors. *)
Lemma window_corners_total md image_height idx :
  (0 ≤ fst idx ≤ snd idx)%Z → (snd idx < Z.of_nat image_height)%Z →
  window_corners md image_height (corner_row_LUT md image_height) idx
  = Some (take
      (cursor (keypoints_kp1_by_y md)
         (Z.to_nat (Z.min (snd idx + 1) (image_height_minus_1 image_height)))
       - cursor (keypoints_kp1_by_y md)
           (Z.to_nat (Z.min (fst idx) (image_height_minus_1 image_height))))
      (drop (cursor (keypoints_kp1_by_y md)
               (Z.to_nat (Z.min (fst idx) (image_height_minus_1 image_height))))
         (keypoints_kp1_by_y md))).
Proof.
  intros Hidx Hlt. unfold window_corners, image_height_minus_1.
  set (top := Z.to_nat (Z.min (fst idx) (Z.of_nat image_height - 1))).
  set (bottom := Z.to_nat (Z.min (snd idx + 1) (Z.of_nat image_height - 1))).
  assert (Htop : top < image_height) by lia.
  assert (Hbottom : bottom < image_height) by lia.
  assert (Htb : top ≤ bottom) by lia.
  rewrite !corner_row_LUT_lookup by done. simpl.
  fold (cursor (keypoints_kp1_by_y md) top).
  fold (cursor (keypoints_kp1_by_y md) bottom).
  unfold iterator_range.
  rewrite (CHECK_true (cursor (keypoints_kp1_by_y md) top
                       <=? cursor (keypoints_kp1_by_y md) bottom))
    by by apply Nat.leb_le, cursor_mono.
  simpl.
  rewrite (CHECK_true (cursor (keypoints_kp1_by_y md) bottom
                       <=? length (keypoints_kp1_by_y md))); [done|].
  apply Nat.leb_le. by destruct (cursor_is_ok (keypoints_kp1_by_y md) bottom).
Qed.

End WindowRange.

(** ** Equal and different descriptors *)

Section DescriptorEquality.

Lemma hamming_byte_self x d i : hamming_byte x x d i = d.
Proof. unfold hamming_byte. by rewrite Z.lxor_nilpotent. Qed.

(** A descriptor is at distance 0 from itself. *)
Lemma hammingDistance512_self L x : hammingDistance512 L x x = 0%Z.
Proof.
  unfold hammingDistance512. generalize (seq 0 L). intros l.
  induction l as [|i l IH]; simpl; [done|]. by rewrite hamming_byte_self.
Qed.

Lemma differing_bits_byte_zero_checked :
  forallb (λ a, forallb (λ b,
    implb (differing_bits_byte a b =? 0)%Z (a =? b)%Z) all_bytes) all_bytes
  = true.
Proof. vm_compute. reflexivity. Qed.

Lemma differing_bits_byte_zero a b :
  is_byte a → is_byte b → differing_bits_byte a b = 0%Z → a = b.
Proof.
  intros Ha Hb Hz. pose proof differing_bits_byte_zero_checked as H.
  rewrite forallb_forall in H. specialize (H a (all_bytes_complete a Ha)).
  rewrite forallb_forall in H. specialize (H b (all_bytes_complete b Hb)).
  cbv beta in H. rewrite Hz in H. simpl in H. by apply Z.eqb_eq.
Qed.

Lemma differing_bits_sum_zero x y l :
  fold_right (λ i acc, (differing_bits_byte (nth i x 0%Z) (nth i y 0%Z) + acc)%Z)
    0%Z l = 0%Z →
  ∀ i, In i l → differing_bits_byte (nth i x 0%Z) (nth i y 0%Z) = 0%Z.
Proof.
  induction l as [|j l IH]; simpl; intros Hsum i Hi; [done|].
  pose proof (differing_bits_byte_range (nth j x 0%Z) (nth j y 0%Z)) as Hj.
  assert (Hrest : (0 ≤ fold_right (λ i acc,
            (differing_bits_byte (nth i x 0%Z) (nth i y 0%Z) + acc)%Z) 0%Z l)%Z).
  { clear. induction l as [|k l IH]; simpl; [lia|].
    pose proof (differing_bits_byte_range (nth k x 0%Z) (nth k y 0%Z)). lia. }
  destruct Hi as [->|Hi]; [lia|]. apply IH; [lia|done].
Qed.

(** Two different descriptors of [L] bytes are at a positive distance. *)
Lemma hammingDistance512_distinct L x y :
  length x = L → length y = L → Forall is_byte x → Forall is_byte y →
  x ≠ y → (0 < hammingDistance512 L x y)%Z.
Proof.
  intros Hlx Hly Hx Hy Hne.
  pose proof (hammingDistance512_differing_bits L x y Hx Hy) as Heq.
  pose proof (hammingDistance512_le L x y) as [Hge _].
  destruct (decide (hammingDistance512 L x y = 0%Z)) as [Hz|]; [|lia].
  exfalso. apply Hne. rewrite Heq in Hz. unfold differing_bits in Hz.
  apply (List.nth_ext _ _ 0%Z 0%Z); [congruence|].
  intros i Hi. apply differing_bits_byte_zero; [by apply nth_is_byte..|].
  apply (differing_bits_sum_zero x y (seq 0 L)); [done|].
  apply in_seq. lia.
Qed.

End DescriptorEquality.

(** ** The rows of a window *)

Section WindowRows.

Lemma double_to_int_in_int_range q :
  in_int_range q → double_to_int q = Some (truncate q).
Proof. intros [Hlo Hhi]. by apply double_to_int_defined. Qed.

Lemma check_rows_pass image_height idx :
  (0 ≤ fst idx ≤ snd idx)%Z → (snd idx < Z.of_nat image_height)%Z →
  check_rows image_height idx = Some tt.
Proof.
  intros Ha Hb. unfold check_rows.
  rewrite (CHECK_true (fst idx <=? snd idx)%Z) by (apply Z.leb_le; lia).
  simpl. rewrite (CHECK_true (0 <=? fst idx)%Z) by (apply Z.leb_le; lia).
  simpl. rewrite (CHECK_true (0 <=? snd idx)%Z) by (apply Z.leb_le; lia).
  simpl. rewrite (CHECK_true (fst idx <? _)%Z) by (apply Z.ltb_lt; lia).
  simpl. apply CHECK_true, Z.ltb_lt. lia.
Qed.

(** The rows of a window are defined exactly when they are values of
    [int] before they are clamped. *)
Lemma search_rows_defined image_height p d :
  rows_in_int_range d p ↔ ∃ idx, search_rows image_height p d = Some idx.
Proof.
  split.
  - intros [Ht Hb]. eexists. apply search_rows_Some. split; [reflexivity|].
    split; by apply truncate_in_int_range.
  - intros (idx & (_ & Ht & Hb)%search_rows_Some).
    split; by apply truncate_in_int_range.
Qed.

Lemma column_bounds_defined d p :
  columns_in_int_range d p ↔ ∃ bounds, column_bounds d p = Some bounds.
Proof.
  split.
  - intros [Hl Hr]. eexists. apply column_bounds_Some. split; [reflexivity|].
    split; by apply truncate_in_int_range.
  - intros (bounds & (-> & Hl & Hr)%column_bounds_Some).
    split; by apply truncate_in_int_range.
Qed.

(** The clamped rows of any prediction pass the [CHECK]s when the image
    has a row and the search distance is not negative. *)
Lemma search_rows_in_image image_height p d idx :
  0 < image_height → (0 ≤ d)%Z →
  search_rows image_height p d = Some idx →
  (0 ≤ fst idx ≤ snd idx)%Z ∧ (snd idx < Z.of_nat image_height)%Z.
Proof.
  intros HH Hd (-> & _ & _)%search_rows_Some.
  unfold clamp, image_height_minus_1. cbn [fst snd].
  assert (Hmono : (truncate (snd p + (1 # 2) - inject_Z d)
                   ≤ truncate (snd p + (1 # 2) + inject_Z d))%Z).
  { apply truncate_mono.
    assert (0 <= inject_Z d)%Q by by rewrite <- (Zle_Qle 0). lra. }
  lia.
Qed.

Lemma above_last_row_height image_height p :
  above_last_row image_height p → (0 < image_height_minus_1 image_height)%Z.
Proof.
  intros (Hy & Hlt). rewrite Zlt_Qlt. by eapply Qle_lt_trans.
Qed.

(** For a search distance [d ≥ 1], the rows [top] and [bottom] whose
    table entries bound the window enclose the row of the prediction,
    and lie within [d + 1/2] above and [d + 3/2] below it. *)
Lemma search_rows_window image_height p d idx :
  above_last_row image_height p → (1 ≤ d)%Z →
  search_rows image_height p d = Some idx →
  let top := Z.min (fst idx) (image_height_minus_1 image_height) in
  let bottom := Z.min (snd idx + 1) (image_height_minus_1 image_height) in
  (0 ≤ top ≤ bottom)%Z
  ∧ (snd p - inject_Z d - (1 # 2) < inject_Z top)%Q
  ∧ (inject_Z top <= snd p)%Q
  ∧ (snd p < inject_Z bottom)%Q
  ∧ (inject_Z bottom <= snd p + inject_Z d + (3 # 2))%Q.
Proof.
  intros Hp Hd (-> & _ & _)%search_rows_Some.
  pose proof (above_last_row_height _ _ Hp) as Hh.
  destruct Hp as (Hy & Hlt).
  unfold clamp. cbn [fst snd].
  set (Hm1 := image_height_minus_1 image_height) in *.
  set (t0 := truncate (snd p + (1 # 2) - inject_Z d)).
  set (t1 := truncate (snd p + (1 # 2) + inject_Z d)).
  assert (HD : (1 <= inject_Z d)%Q) by by rewrite <- (Zle_Qle 1).
  assert (A1 : (snd p + (1 # 2) - inject_Z d < inject_Z t0 + 1)%Q)
    by apply truncate_gt.
  assert (A2 : (t0 ≤ 0)%Z ∨ (inject_Z t0 <= snd p + (1 # 2) - inject_Z d)%Q).
  { destruct (Qlt_le_dec (snd p + (1 # 2) - inject_Z d) 0) as [Hn|Hn].
    - left. by apply truncate_nonpos, Qlt_le_weak.
    - right. by apply truncate_le. }
  assert (B1 : (inject_Z t1 <= snd p + (1 # 2) + inject_Z d)%Q)
    by (apply truncate_le; lra).
  assert (B2 : (snd p + (1 # 2) + inject_Z d < inject_Z t1 + 1)%Q)
    by apply truncate_gt.
  assert (B3 : (0 ≤ t1)%Z) by (apply truncate_nonneg; lra).
  assert (M : (t0 ≤ t1)%Z) by (apply truncate_mono; lra).
  assert (T0 : (t0 < Hm1)%Z).
  { destruct A2 as [A2|A2]; [lia|]. rewrite Zlt_Qlt. lra. }
  assert (Etop : Z.min (Z.min (Z.max t0 0) Hm1) Hm1 = Z.max t0 0) by lia.
  assert (Ebottom : Z.min (Z.min (Z.max t1 0) Hm1 + 1) Hm1 = Z.min (t1 + 1) Hm1)
    by lia.
  rewrite Etop, Ebottom. split; [lia|].
  assert (Qtop : (inject_Z t0 <= inject_Z (Z.max t0 0))%Q)
    by (rewrite <- Zle_Qle; lia).
  split; [lra|]. split.
  - destruct (Z.max_spec t0 0) as [[Hc ->]|[Hc ->]]; [done|].
    destruct A2 as [A2|A2]; [|lra].
    assert (t0 = 0%Z) as -> by lia. done.
  - assert (Qb : (inject_Z (Z.min (t1 + 1) Hm1) <= inject_Z (t1 + 1))%Q)
      by (rewrite <- Zle_Qle; lia).
    rewrite inject_Z_plus in Qb. change (inject_Z 1) with 1%Q in Qb.
    split; [|lra].
    destruct (Z.min_spec (t1 + 1) Hm1) as [[Hc ->]|[Hc ->]]; [|done].
    rewrite inject_Z_plus. change (inject_Z 1) with 1%Q. lra.
Qed.

End WindowRows.

(** ** The columns of a window *)

Section WindowColumns.

Lemma outside_columns_false bounds c :
  outside_columns bounds c = false ↔
  (inject_Z (fst bounds) <= col_of c)%Q ∧ (col_of c <= inject_Z (snd bounds))%Q.
Proof.
  unfold outside_columns. rewrite orb_false_iff, !Qltb_ge. done.
Qed.

(** A prediction lies inside its own columns, whatever its sign: the
    conversion moves each bound by less than one pixel. *)
Lemma self_inside_columns d p bounds i :
  (1 ≤ d)%Z → column_bounds d p = Some bounds →
  outside_columns bounds {| measurement := p; index := i |} = false.
Proof.
  intros Hd (-> & _ & _)%column_bounds_Some.
  apply outside_columns_false. unfold col_of. simpl.
  assert (HD : (1 <= inject_Z d)%Q) by by rewrite <- (Zle_Qle 1).
  pose proof (truncate_lt (fst p - inject_Z d)).
  pose proof (truncate_gt (fst p + inject_Z d)).
  split; lra.
Qed.

(** The column of a candidate inside the columns is less than [d + 1]
    away from the prediction. *)
Lemma inside_columns_bounds d p bounds c :
  column_bounds d p = Some bounds → outside_columns bounds c = false →
  (fst p - inject_Z d - 1 < col_of c)%Q ∧ (col_of c < fst p + inject_Z d + 1)%Q.
Proof.
  intros (-> & _ & _)%column_bounds_Some [Hl Hr]%outside_columns_false.
  simpl in Hl, Hr.
  pose proof (truncate_gt (fst p - inject_Z d)).
  pose proof (truncate_lt (fst p + inject_Z d)).
  split; lra.
Qed.

(** The distance check of a window of search distance [d ≥ 2] passes for
    every candidate inside the columns whose row is between [top] and
    the row of the prediction. *)
Lemma window_norm_lt image_height d p bounds idx c :
  above_last_row image_height p → (2 ≤ d)%Z →
  column_bounds d p = Some bounds →
  search_rows image_height p d = Some idx →
  outside_columns bounds c = false →
  (inject_Z (Z.min (fst idx) (image_height_minus_1 image_height)) <= row_of c)%Q →
  (row_of c <= snd p)%Q →
  norm_lt p (measurement c) (d * 2) = true.
Proof.
  intros Hp Hd Hb Hidx Hin Htop Hbottom.
  assert (Hd1 : (1 ≤ d)%Z) by lia.
  destruct (search_rows_window image_height p d idx Hp Hd1 Hidx)
    as (_ & Ht1 & _ & _ & Hb2).
  destruct (inside_columns_bounds d p bounds c Hb Hin) as [Hc1 Hc2].
  assert (HD : (2 <= inject_Z d)%Q) by by rewrite <- (Zle_Qle 2).
  unfold norm_lt. apply andb_true_iff. split; [apply Z.ltb_lt; lia|].
  apply Qltb_lt. unfold col_of, row_of in *.
  rewrite !inject_Z_mult. change (inject_Z 2) with 2%Q.
  pose proof (norm_bound (fst p) (snd p) (fst (measurement c))
                (snd (measurement c)) (inject_Z d) HD) as Hn.
  assert (Hgoal : ((fst p - fst (measurement c)) * (fst p - fst (measurement c))
             + (snd p - snd (measurement c)) * (snd p - snd (measurement c))
             < 2 * inject_Z d * (2 * inject_Z d))%Q) by (apply Hn; lra).
  eapply Qlt_le_trans; [exact Hgoal|]. lra.
Qed.

End WindowColumns.

(** ** The identity case *)

Section IdentityCase.
Context `{GyroTrackerConstants}.
Variable kdescriptorSizeBytes : nat.
Variables (camera_ : Camera) (md : GyroTrackerMatchingData).
Variables (frame_kp1 frame_k : VisualFrame).
Variables (measurements : list (Q * Q)) (descriptors : DescriptorsT).
Variable threshold : Z.
Hypothesis Hcase : identity_case md frame_kp1 frame_k measurements descriptors.
Hypothesis Hstatic : kdescriptorSizeBytes = descriptor_size_bytes_ md.
Hypothesis Habove : Forall (above_last_row (imageHeight camera_)) measurements.
Hypothesis Hrange : Forall windows_in_int_range measurements.
Hypothesis Hdistinct : NoDup (desc_cols descriptors).
Hypothesis Hbytes :
  Forall (λ d, length d = desc_rows descriptors ∧ Forall is_byte d)
    (desc_cols descriptors).
Hypothesis Hwidth : kdescriptorSizeBytes * 8 ≤ 512.
Hypothesis Hthreshold : initial_best_score kdescriptorSizeBytes = Some threshold.
Hypothesis Hbelow : (threshold < kdescriptorSizeBits kdescriptorSizeBytes)%Z.
Hypothesis Hsmall : (2 ≤ kSmallSearchDistance)%Z.
Hypothesis Hlarge : (0 ≤ kLargeSearchDistance)%Z.

Local Abbreviation L := kdescriptorSizeBytes.
Local Abbreviation kps := (keypoints_kp1_by_y md).
Local Abbreviation bits := (kdescriptorSizeBits kdescriptorSizeBytes).
Local Abbreviation self i p := {| measurement := p; index := i |}.

Lemma identity_keypoints c :
  c ∈ kps ↔ ∃ i p, c = self i p ∧ measurements !! i = Some p.
Proof.
  destruct Hcase as (_ & _ & _ & _ & _ & _ & _ & Hperm & _).
  rewrite Hperm. apply elem_of_lookup_imap.
Qed.

Lemma identity_num_points_kp1 : num_points_kp1 md = length measurements.
Proof.
  destruct Hcase as (_ & _ & _ & _ & _ & _ & _ & Hperm & _).
  unfold num_points_kp1. rewrite Hperm. apply length_imap.
Qed.

Lemma identity_num_points_k : num_points_k md = length measurements.
Proof.
  destruct Hcase as (_ & _ & _ & _ & _ & _ & Hpred & _).
  unfold num_points_k. by rewrite Hpred.
Qed.

Lemma identity_getDescriptor i :
  getDescriptor frame_k i = desc_cols descriptors !! i
  ∧ getDescriptor frame_kp1 i = desc_cols descriptors !! i.
Proof.
  destruct Hcase as (_ & _ & Hk & Hkp1 & _).
  unfold getDescriptor. by rewrite Hk, Hkp1.
Qed.

(** Every descriptor of the frame has the length the comparator reads. *)
Lemma identity_descriptor_length i d :
  desc_cols descriptors !! i = Some d → length d = L ∧ Forall is_byte d.
Proof.
  intros Hi. destruct Hcase as (_ & _ & _ & _ & _ & Hsize & _).
  rewrite Forall_forall in Hbytes.
  destruct (Hbytes d) as [Hld Hbd]; [by eapply list_elem_of_lookup_2|].
  split; [congruence|done].
Qed.

Lemma identity_match_score_self d : match_score L d d = bits.
Proof. unfold match_score. rewrite hammingDistance512_self. lia. Qed.

Lemma identity_match_score_le d d' : (match_score L d d' ≤ bits)%Z.
Proof.
  unfold match_score, kdescriptorSizeBits.
  pose proof (hammingDistance512_le L d d'). lia.
Qed.

Lemma identity_match_score_other i j d d' :
  desc_cols descriptors !! i = Some d → desc_cols descriptors !! j = Some d' →
  i ≠ j → (match_score L d d' < bits)%Z.
Proof.
  intros Hi Hj Hne. unfold match_score.
  destruct (identity_descriptor_length i d Hi) as [Hld Hbd].
  destruct (identity_descriptor_length j d' Hj) as [Hld' Hbd'].
  assert (d ≠ d') as Hdd.
  { intros ->. apply Hne. by eapply NoDup_lookup. }
  pose proof (hammingDistance512_distinct L d d' Hld Hld' Hbd Hbd' Hdd).
  lia.
Qed.

(** One round of the small-window loop in the identity case, for a
    candidate in a row between the top of the window and the row of the
    keypoint, or after the keypoint itself has been taken: it does not
    abort, it keeps the invariant, and the keypoint itself reaches the
    full score. *)
Lemma small_window_step_identity i p dk matched bounds idx st c :
  measurements !! i = Some p → desc_cols descriptors !! i = Some dk →
  length matched = length measurements → matched !! i = Some false →
  column_bounds kSmallSearchDistance p = Some bounds →
  search_rows (imageHeight camera_) p kSmallSearchDistance = Some idx →
  c ∈ kps →
  (inject_Z (Z.min (fst idx) (image_height_minus_1 (imageHeight camera_)))
   <= row_of c)%Q ∧ (row_of c <= snd p)%Q
  ∨ best_score st = bits →
  self_is_best L i p st →
  ∃ st', small_window_step L md frame_kp1 matched bounds p dk st c = Some st'
    ∧ self_is_best L i p st'
    ∧ (best_score st = bits → best_score st' = bits)
    ∧ (c = self i p → best_score st' = bits).
Proof.
  intros Hp Hdk Hlen Hfree Hbounds Hidx Hc Hrows Hinv.
  assert (Hpa : above_last_row (imageHeight camera_) p).
  { rewrite Forall_forall in Habove. apply Habove.
    by eapply list_elem_of_lookup_2. }
  apply identity_keypoints in Hc as (j & pj & -> & Hj).
  pose proof (lookup_lt_Some _ _ _ Hj) as Hjn.
  assert (Hself : self j pj = self i p → j = i ∧ pj = p).
  { intros Heq. by injection Heq as -> ->. }
  unfold small_window_step.
  destruct (outside_columns bounds (self j pj)) eqn:Hcol.
  { exists st. repeat split; [done..|]. intros [-> ->]%Hself.
    rewrite (self_inside_columns kSmallSearchDistance p bounds) in Hcol
      by (done || lia).
    done. }
  destruct (lookup_lt_is_Some_2 matched j ltac:(lia)) as [m Hm].
  cbn [index]. rewrite Hm. simpl. destruct m.
  { exists st. repeat split; [done..|]. intros [-> ->]%Hself. congruence. }
  unfold score_candidate. cbn [index measurement].
  rewrite (CHECK_true (j <? num_points_kp1 md))
    by (apply Nat.ltb_lt; by rewrite identity_num_points_kp1).
  simpl.
  destruct (identity_getDescriptor j) as [_ ->].
  assert (Hjd : j < length (desc_cols descriptors)).
  { destruct Hcase as (_ & _ & _ & _ & -> & _). done. }
  destruct (lookup_lt_is_Some_2 _ j Hjd) as [dj Hdj].
  rewrite Hdj. simpl.
  destruct (identity_descriptor_length i dk Hdk) as [Hlk _].
  destruct (identity_descriptor_length j dj Hdj) as [Hlj _].
  rewrite !readable_true by lia. simpl.
  pose proof (identity_match_score_le dk dj) as Hle.
  destruct (best_score st <? match_score L dk dj)%Z eqn:Hcmp.
  - apply Z.ltb_lt in Hcmp.
    destruct Hrows as [[Htop Hbottom]|Hfull]; [|lia].
    rewrite (CHECK_true (norm_lt _ _ _))
      by (by apply (window_norm_lt (imageHeight camera_) kSmallSearchDistance
                      p bounds idx {| measurement := pj; index := j |})).
    simpl. eexists. split; [done|]. simpl.
    destruct (decide (j = i)) as [->|Hne].
    + assert (pj = p) as -> by congruence.
      assert (dj = dk) as -> by congruence.
      rewrite identity_match_score_self. split; [|done].
      right. done.
    + pose proof (identity_match_score_other i j dk dj Hdk Hdj ltac:(done)).
      split; [by left|]. split; [lia|]. intros [-> _]%Hself. done.
  - apply Z.ltb_ge in Hcmp. simpl. eexists. split; [done|]. simpl.
    split; [done|]. split; [done|]. intros [-> ->]%Hself.
    assert (dj = dk) as -> by congruence.
    rewrite identity_match_score_self in Hcmp.
    destruct Hinv as [Hlt|(_ & _ & Heq)]; [lia|done].
Qed.

(** The loop over a range of the sorted keypoints in which the keypoint
    itself comes after keypoints in rows between the top of the window
    and its own: it ends with the full score. *)
Lemma small_window_loop_identity i p dk matched bounds idx corners : ∀ st,
  measurements !! i = Some p → desc_cols descriptors !! i = Some dk →
  length matched = length measurements → matched !! i = Some false →
  column_bounds kSmallSearchDistance p = Some bounds →
  search_rows (imageHeight camera_) p kSmallSearchDistance = Some idx →
  (inject_Z (Z.min (fst idx) (image_height_minus_1 (imageHeight camera_)))
   <= snd p)%Q →
  (∀ c, c ∈ corners → c ∈ kps) →
  best_score st = bits
  ∨ (∃ l1 l2, corners = l1 ++ self i p :: l2
       ∧ Forall (λ c,
           (inject_Z (Z.min (fst idx)
                        (image_height_minus_1 (imageHeight camera_)))
            <= row_of c)%Q ∧ (row_of c <= snd p)%Q) l1) →
  self_is_best L i p st →
  ∃ st', for_each (small_window_step L md frame_kp1 matched bounds p dk)
           st corners = Some st'
    ∧ self_is_best L i p st'
    ∧ best_score st' = bits.
Proof.
  induction corners as [|c corners IH];
    intros st Hp Hdk Hlen Hfree Hbounds Hidx Htop Hkps Hrows Hinv.
  - exists st. simpl. split; [done|]. split; [done|].
    destruct Hrows as [?|(l1 & l2 & Heq & _)]; [done|].
    by destruct l1.
  - assert (Hc : c ∈ kps) by (apply Hkps; by left).
    assert (Hstep_rows :
      (inject_Z (Z.min (fst idx) (image_height_minus_1 (imageHeight camera_)))
       <= row_of c)%Q ∧ (row_of c <= snd p)%Q
      ∨ best_score st = bits).
    { destruct Hrows as [?|(l1 & l2 & Heq & Hall)]; [by right|]. left.
      destruct l1 as [|c1 l1]; simpl in Heq; injection Heq as -> _.
      - unfold row_of. simpl. split; [done|apply Qle_refl].
      - by apply Forall_cons in Hall as [? _]. }
    destruct (small_window_step_identity i p dk matched bounds idx st c)
      as (st1 & Hstep & Hinv1 & Hkeep & Hself); try done.
    destruct (IH st1) as (st' & Hrun & Hinv' & Hbest); try done.
    { intros c' Hc'. apply Hkps. by right. }
    { destruct Hrows as [?|(l1 & l2 & Heq & Hall)]; [left; auto|].
      destruct l1 as [|c1 l1]; simpl in Heq; injection Heq as -> ->.
      - left. by apply Hself.
      - right. exists l1, l2. split; [done|].
        by apply Forall_cons in Hall as [_ ?]. }
    exists st'. simpl. rewrite Hstep. simpl. done.
Qed.

(** Both searches for keypoint [i] in the identity case end with the
    keypoint itself as the best. *)
Lemma search_keypoint_identity i p matched :
  measurements !! i = Some p →
  length matched = length measurements → matched !! i = Some false →
  ∃ st, search_keypoint L (imageHeight camera_) md frame_kp1 frame_k matched i
        = Some st
    ∧ found st = true ∧ it_best st = Some (self i p).
Proof.
  intros Hp Hlen Hfree.
  assert (Hpa : above_last_row (imageHeight camera_) p).
  { rewrite Forall_forall in Habove. apply Habove.
    by eapply list_elem_of_lookup_2. }
  assert (Hpr : windows_in_int_range p).
  { rewrite Forall_forall in Hrange. apply Hrange.
    by eapply list_elem_of_lookup_2. }
  destruct Hpr as (HrS & HrL & HcS).
  apply (search_rows_defined (imageHeight camera_)) in HrS as [idxS HidxS].
  apply (search_rows_defined (imageHeight camera_)) in HrL as [idxL HidxL].
  apply column_bounds_defined in HcS as [bounds Hbounds].
  destruct Hcase as (_ & _ & _ & _ & Hdl & _ & Hpred & Hperm & Hsorted).
  assert (Hi : i < length (desc_cols descriptors)).
  { rewrite Hdl. by eapply lookup_lt_Some. }
  destruct (lookup_lt_is_Some_2 _ i Hi) as [dk Hdk].
  unfold search_keypoint. rewrite Hpred, Hp. cbn [mbind option_bind].
  destruct (identity_getDescriptor i) as [-> _]. rewrite Hdk.
  cbn [mbind option_bind]. rewrite HidxS, HidxL. cbn [mbind option_bind].
  assert (Hheight : 0 < imageHeight camera_).
  { pose proof (above_last_row_height _ _ Hpa) as Hh.
    unfold image_height_minus_1 in Hh. lia. }
  assert (Hsmall0 : (0 ≤ kSmallSearchDistance)%Z) by lia.
  assert (Hsmall1 : (1 ≤ kSmallSearchDistance)%Z) by lia.
  destruct (search_rows_in_image (imageHeight camera_) p kSmallSearchDistance
              idxS Hheight Hsmall0 HidxS) as [Hs1 Hs2].
  destruct (search_rows_in_image (imageHeight camera_) p kLargeSearchDistance
              idxL Hheight Hlarge HidxL) as [Hl1 Hl2].
  rewrite !check_rows_pass by done. cbn [mbind option_bind].
  unfold nearest_corners, near_corners. rewrite HidxS, HidxL.
  cbn [mbind option_bind]. rewrite !window_corners_total by done.
  cbn [mbind option_bind].
  destruct (search_rows_window (imageHeight camera_) p kSmallSearchDistance
              idxS Hpa Hsmall1 HidxS) as (Htb & _ & Htop & Hbottom & _).
  set (top := Z.min (fst idxS) (image_height_minus_1 (imageHeight camera_))) in *.
  set (bottom := Z.min (snd idxS + 1)
                   (image_height_minus_1 (imageHeight camera_))) in *.
  assert (Etop : Z.of_nat (Z.to_nat top) = top) by lia.
  assert (Ebottom : Z.of_nat (Z.to_nat bottom) = bottom) by lia.
  set (corners := take (cursor kps (Z.to_nat bottom) - cursor kps (Z.to_nat top))
                    (drop (cursor kps (Z.to_nat top)) kps)).
  assert (Hin : self i p ∈ corners).
  { assert (Hin : self i p ∈ kps) by (apply identity_keypoints; eauto).
    apply list_elem_of_lookup in Hin as [j Hj].
    eapply window_range_elem; [done|exact Hj|..]; unfold row_of; simpl.
    - by rewrite Etop.
    - by rewrite Ebottom. }
  assert (Hsorted' : sorted_by_row corners).
  { unfold sorted_by_row in *.
    rewrite <- (take_drop (cursor kps (Z.to_nat top)) kps) in Hsorted.
    apply StronglySorted_app_1_r in Hsorted.
    rewrite <- (take_drop (cursor kps (Z.to_nat bottom)
                           - cursor kps (Z.to_nat top))
                  (drop (cursor kps (Z.to_nat top)) kps)) in Hsorted.
    by apply StronglySorted_app_1_l in Hsorted. }
  pose proof Hin as Hsplit.
  apply list_elem_of_split in Hsplit as (l1 & l2 & Hsplit).
  destruct (small_window_loop_identity i p dk matched bounds idxS corners
              (initial_search_state md threshold))
    as (st & Hrun & Hinv & Hfull); try done.
  { intros c Hc. by apply window_range_rows in Hc as (? & _). }
  { right. exists l1, l2. split; [done|].
    apply Forall_forall. intros c Hc. split.
    - assert (Hc' : c ∈ corners).
      { rewrite Hsplit. apply elem_of_app. by left. }
      apply window_range_rows in Hc' as (_ & Hr & _); [|done].
      by rewrite Etop in Hr.
    - rewrite Hsplit in Hsorted'.
      apply (StronglySorted_app_1_elem_of _ _ _ c (self i p)) in Hsorted';
        [done|done|by left]. }
  { left. simpl. exact Hbelow. }
  unfold search_small_window. rewrite Hthreshold, Hbounds.
  cbn [mbind option_bind]. fold corners. rewrite Hrun.
  cbn [mbind option_bind].
  destruct Hinv as [Hlt|(Hf & Hb & _)]; [lia|].
  exists st. unfold search_large_window. rewrite Hf. done.
Qed.

Lemma identity_matches_S i :
  identity_matches (S i)
  = identity_matches i ++ [{| index_kp1 := i; index_k := i; score := 0 |}].
Proof. unfold identity_matches. by rewrite seq_S, List.map_app. Qed.

Lemma identity_flags_lookup n i :
  i < n → (replicate i true ++ replicate (n - i) false) !! i = Some false.
Proof.
  intros Hi. rewrite lookup_app_r; rewrite length_replicate; [|lia].
  rewrite Nat.sub_diag. apply lookup_replicate_2. lia.
Qed.

Lemma identity_flags_insert n i :
  i < n →
  <[i := true]> (replicate i true ++ replicate (n - i) false)
  = replicate (S i) true ++ replicate (n - S i) false.
Proof.
  intros Hi.
  rewrite <- (Nat.add_0_r i) at 1.
  rewrite <- (length_replicate i true) at 1.
  rewrite insert_app_r.
  replace (n - i) with (S (n - S i)) by lia.
  rewrite (replicate_S_end i true), <- app_assoc. reflexivity.
Qed.

(** The round of keypoint [i] matches it to itself. *)
Lemma match_keypoint_identity i :
  i < length measurements →
  match_keypoint L (imageHeight camera_) md frame_kp1 frame_k
    (identity_state (length measurements) i) i
  = Some (identity_state (length measurements) (S i)).
Proof.
  intros Hi. destruct (lookup_lt_is_Some_2 measurements i Hi) as [p Hp].
  unfold identity_state, match_keypoint.
  destruct (search_keypoint_identity i p
              (replicate i true ++ replicate (length measurements - i) false))
    as (st & -> & Hf & Hb).
  - done.
  - rewrite length_app, !length_replicate. lia.
  - by apply identity_flags_lookup.
  - simpl. rewrite Hf, Hb. simpl.
    rewrite identity_flags_lookup by done. simpl.
    by rewrite identity_flags_insert, identity_matches_S.
Qed.

Lemma for_each_identity n : ∀ a,
  a + n ≤ length measurements →
  for_each (match_keypoint L (imageHeight camera_) md frame_kp1 frame_k)
    (identity_state (length measurements) a) (seq a n)
  = Some (identity_state (length measurements) (a + n)).
Proof.
  induction n as [|n IH]; intros a Ha; cbn [for_each seq].
  - by rewrite Nat.add_0_r.
  - rewrite match_keypoint_identity by lia. cbn [mbind option_bind].
    rewrite IH by lia. do 2 f_equal. lia.
Qed.

(** In the identity case, under the conditions of this section, the call
    returns every keypoint matched to itself. *)
Lemma matchFeatures_identity :
  matchFeatures L camera_ md frame_kp1 frame_k
  = Some (identity_matches (length measurements)).
Proof.
  unfold matchFeatures.
  rewrite (CHECK_true (_ =? _))
    by (apply Nat.eqb_eq, corner_row_LUT_length).
  simpl. rewrite (CHECK_true (_ <=? _)) by by apply Nat.leb_le.
  simpl. rewrite identity_num_points_kp1, identity_num_points_k.
  pose proof (for_each_identity (length measurements) 0 ltac:(lia)) as Hrun.
  unfold identity_state in Hrun at 1. simpl in Hrun.
  rewrite Nat.sub_0_r in Hrun.
  change (identity_matches 0) with (@nil MatchWithScore) in Hrun.
  rewrite Hrun. reflexivity.
Qed.

End IdentityCase.

(** C7, as the code has it. In the identity case the call returns every
    keypoint of frame k matched to itself, and the Hamming distance of the
    two descriptors of a keypoint is 0, when: the static descriptor size
    is that of the matching data (as in the first call of the program);
    every keypoint lies in a row from 0 to strictly above the last row of
    the image, at coordinates for which the conversions to [int] are
    defined; the descriptors of the frame are pairwise different byte
    strings of the descriptor length (at most 512 bits); the threshold is
    below the descriptor bit width; the small search distance is at least
    2 and the large one is not negative. *)
Theorem identity_case_self_matches `{GyroTrackerConstants}
    (kdescriptorSizeBytes : nat) (camera_ : Camera)
    (md : GyroTrackerMatchingData) (frame_kp1 frame_k : VisualFrame)
    (measurements : list (Q * Q)) (descriptors : DescriptorsT)
    (threshold : Z) :
  identity_case md frame_kp1 frame_k measurements descriptors →
  kdescriptorSizeBytes = descriptor_size_bytes_ md →
  Forall (above_last_row (imageHeight camera_)) measurements →
  Forall windows_in_int_range measurements →
  NoDup (desc_cols descriptors) →
  Forall (λ d, length d = desc_rows descriptors ∧ Forall is_byte d)
    (desc_cols descriptors) →
  kdescriptorSizeBytes * 8 ≤ 512 →
  initial_best_score kdescriptorSizeBytes = Some threshold →
  (threshold < kdescriptorSizeBits kdescriptorSizeBytes)%Z →
  (2 ≤ kSmallSearchDistance)%Z →
  (0 ≤ kLargeSearchDistance)%Z →
  matchFeatures kdescriptorSizeBytes camera_ md frame_kp1 frame_k
  = Some (identity_matches (length measurements))
  ∧ ∀ i descriptor_k descriptor_kp1,
      getDescriptor frame_k i = Some descriptor_k →
      getDescriptor frame_kp1 i = Some descriptor_kp1 →
      hammingDistance512 kdescriptorSizeBytes descriptor_k descriptor_kp1
      = 0%Z.
Proof.
  intros Hcase Hstatic Habove Hrange Hdistinct Hbytes Hwidth Hthreshold Hbelow
    Hsmall Hlarge.
  split.
  - by eapply matchFeatures_identity.
  - intros i dk dkp1 Hk Hkp1.
    destruct (identity_getDescriptor md frame_kp1 frame_k measurements
                descriptors Hcase i) as [Ek Ekp1].
    assert (dk = dkp1) as -> by congruence.
    apply hammingDistance512_self.
Qed.

Lemma identity_case_self_matches_witness :
  matchFeatures 4 example_camera (identity_matching_data 5 [10; 50; 90]%Q)
    (identity_frame 5 [10; 50; 90]%Q) (identity_frame 5 [10; 50; 90]%Q)
  = Some (identity_matches 3)
  ∧ ∀ i descriptor_k descriptor_kp1,
      getDescriptor (identity_frame 5 [10; 50; 90]%Q) i = Some descriptor_k →
      getDescriptor (identity_frame 5 [10; 50; 90]%Q) i = Some descriptor_kp1 →
      hammingDistance512 4 descriptor_k descriptor_kp1 = 0%Z.
Proof.
  apply (identity_case_self_matches 4 example_camera
           (identity_matching_data 5 [10; 50; 90]%Q)
           (identity_frame 5 [10; 50; 90]%Q) (identity_frame 5 [10; 50; 90]%Q)
           [(5, 10); (5, 50); (5, 90)]%Q
           {| desc_rows := 4;
              desc_cols := [[1; 2; 3; 4]; [5; 6; 7; 8]; [9; 9; 9; 9]]%Z |}
           25).
  - repeat split; try reflexivity.
    unfold sorted_by_row. simpl.
    sorted_rows.
  - reflexivity.
  - repeat (apply List.Forall_cons || apply List.Forall_nil);
      repeat split; vm_compute; (reflexivity || discriminate).
  - repeat (apply List.Forall_cons || apply List.Forall_nil);
      repeat split; vm_compute; reflexivity.
  - apply (bool_decide_unpack _). vm_compute. exact I.
  - repeat (apply List.Forall_cons || apply List.Forall_nil
            || split || reflexivity); unfold is_byte; lia.
  - simpl. lia.
  - vm_compute. reflexivity.
  - vm_compute. reflexivity.
  - simpl. lia.
  - simpl. lia.
Defined.

(** C7 as stated fails: with three keypoints at rows 10, 50 and 99 of an
    image of height 100, in the identity case, the keypoint in the last
    row is not matched. *)
Lemma identity_case_last_row_unmatched :
  identity_case (identity_matching_data 5 [10; 50; 99]%Q)
    (identity_frame 5 [10; 50; 99]%Q) (identity_frame 5 [10; 50; 99]%Q)
    [(5, 10); (5, 50); (5, 99)]%Q
    {| desc_rows := 4;
       desc_cols := [[1; 2; 3; 4]; [5; 6; 7; 8]; [9; 9; 9; 9]]%Z |}
  ∧ matchFeatures 4 example_camera (identity_matching_data 5 [10; 50; 99]%Q)
      (identity_frame 5 [10; 50; 99]%Q) (identity_frame 5 [10; 50; 99]%Q)
    = Some (identity_matches 2)
  ∧ identity_matches 2 ≠ identity_matches 3
  ∧ ¬ In 2 (map index_k (identity_matches 2)).
Proof.
  split; [|split; [vm_compute; reflexivity|split]].
  - repeat split; try reflexivity.
    unfold sorted_by_row. simpl.
    sorted_rows.
  - discriminate.
  - simpl. lia.
Qed.

(** The other conditions, each at an input without it. A keypoint in a
    row above the image is below the first entry of the table and is
    never a candidate. *)
Lemma identity_case_negative_row_unmatched :
  matchFeatures 4 example_camera (identity_matching_data 5 [-1; 50; 90]%Q)
    (identity_frame 5 [-1; 50; 90]%Q) (identity_frame 5 [-1; 50; 90]%Q)
  = Some [{| index_kp1 := 1; index_k := 1; score := 0 |};
          {| index_kp1 := 2; index_k := 2; score := 0 |}].
Proof. vm_compute. reflexivity. Qed.

(** At a column whose bounds are no values of [int] the conversion is
    undefined. *)
Lemma identity_case_far_column_undefined :
  matchFeatures 4 example_camera
    (identity_matching_data 10000000000 [10; 50; 90]%Q)
    (identity_frame 10000000000 [10; 50; 90]%Q)
    (identity_frame 10000000000 [10; 50; 90]%Q)
  = None.
Proof. vm_compute. reflexivity. Qed.

(** Two keypoints that share a descriptor: each is matched to the other,
    at Hamming distance 0. *)
Lemma identity_case_twins_swapped :
  identity_case twin_matching_data twin_frame twin_frame [(5, 12); (5, 10)]%Q
    {| desc_rows := 4; desc_cols := [[1; 2; 3; 4]; [1; 2; 3; 4]]%Z |}
  ∧ matchFeatures 4 example_camera twin_matching_data twin_frame twin_frame
    = Some [{| index_kp1 := 1; index_k := 0; score := 0 |};
            {| index_kp1 := 0; index_k := 1; score := 0 |}].
Proof.
  split; [|vm_compute; reflexivity].
  repeat split; try reflexivity.
  - simpl. apply perm_swap.
  - unfold sorted_by_row. simpl.
    sorted_rows.
Qed.

(** With a small search distance of one pixel a neighbour that is taken
    before the keypoint itself fails the [CHECK] on its distance, and the
    call aborts; with a search distance of ten pixels it returns the
    identity. *)
Lemma identity_case_one_pixel_aborts :
  @matchFeatures one_pixel_constants 4 example_camera close_matching_data
    close_frame close_frame = None
  ∧ matchFeatures 4 example_camera close_matching_data close_frame close_frame
    = Some (identity_matches 2).
Proof. split; vm_compute; reflexivity. Qed.

(** With a threshold of all the bits of the descriptor no score exceeds
    it, and nothing is matched. *)
Lemma identity_case_all_bits_unmatched :
  @matchFeatures all_bits_constants 4 example_camera
    (identity_matching_data 5 [10; 50; 90]%Q)
    (identity_frame 5 [10; 50; 90]%Q) (identity_frame 5 [10; 50; 90]%Q)
  = Some [].
Proof. vm_compute. reflexivity. Qed.

(** In a later call of a program whose first call had descriptors of two
    bytes, the comparator reads two bytes of the four: keypoints whose
    descriptors agree in the first two bytes are not told apart. *)
Lemma identity_case_static_of_first_call :
  matchFeatures 2 example_camera close_matching_data close_frame close_frame
  = Some [{| index_kp1 := 1; index_k := 0; score := 0 |};
          {| index_kp1 := 0; index_k := 1; score := 0 |}].
Proof. vm_compute. reflexivity. Qed.

(** With a negative large search distance the first row of the large
    window is below its last, the [CHECK] on the two rows fails, and the
    call aborts. *)
Lemma identity_case_negative_large_distance_aborts :
  @matchFeatures negative_large_constants 4 example_camera
    (identity_matching_data 5 [10; 50; 90]%Q)
    (identity_frame 5 [10; 50; 90]%Q) (identity_frame 5 [10; 50; 90]%Q)
  = None.
Proof. vm_compute. reflexivity. Qed.

(** ** The facade *)

Section Facade.
Context `{GyroTrackerConstants}.
Variable kdescriptorSizeBytes : nat.

(** What the [CHECK]s of [track] establish. *)
Lemma track_checks_Some camera_ frame_k frame_kp1 out kp1 :
  track_checks camera_ frame_k frame_kp1 out = Some kp1 →
  frame_kp1 = Some kp1
  ∧ is_Some out
  ∧ hasKeypointMeasurements frame_k = true
  ∧ hasKeypointMeasurements kp1 = true
  ∧ (∃ g, getCameraGeometry frame_k = Some g ∧ getId camera_ = getId g)
  ∧ (∃ g, getCameraGeometry kp1 = Some g ∧ getId camera_ = getId g)
  ∧ hasTrackIds frame_k = true
  ∧ hasTrackIds kp1 = true
  ∧ (getTimestampNanoseconds frame_k < getTimestampNanoseconds kp1)%Z
  ∧ ∃ descriptors keypoints,
      descriptors_ kp1 = Some descriptors
      ∧ desc_rows descriptors = getDescriptorSizeBytes kp1
      ∧ keypoint_measurements_ kp1 = Some keypoints
      ∧ length keypoints = length (desc_cols descriptors).
Proof.
  unfold track_checks. intros Hrun.
  destruct (CHECK (hasKeypointMeasurements frame_k)) as [[]|] eqn:E1;
    simpl in Hrun; [|done].
  destruct frame_kp1 as [f|]; simpl in Hrun; [|done].
  destruct (CHECK (hasKeypointMeasurements f)) as [[]|] eqn:E2;
    simpl in Hrun; [|done].
  destruct (getCameraGeometry frame_k) as [gk|]; simpl in Hrun; [|done].
  destruct (CHECK (getId camera_ =? getId gk)%Z) as [[]|] eqn:E3;
    simpl in Hrun; [|done].
  destruct (getCameraGeometry f) as [gkp1|] eqn:Eg; simpl in Hrun; [|done].
  destruct (CHECK (getId camera_ =? getId gkp1)%Z) as [[]|] eqn:E4;
    simpl in Hrun; [|done].
  destruct out as [o|]; simpl in Hrun; [|done].
  destruct (CHECK (hasTrackIds frame_k)) as [[]|] eqn:E5; simpl in Hrun; [|done].
  destruct (CHECK (hasTrackIds f)) as [[]|] eqn:E6; simpl in Hrun; [|done].
  destruct (CHECK (getTimestampNanoseconds frame_k <? getTimestampNanoseconds f)%Z)
    as [[]|] eqn:E7; simpl in Hrun; [|done].
  destruct (CHECK (hasDescriptors f)) as [[]|] eqn:E8; simpl in Hrun; [|done].
  destruct (descriptors_ f) as [D|] eqn:ED; simpl in Hrun; [|done].
  destruct (CHECK (desc_rows D =? getDescriptorSizeBytes f)) as [[]|] eqn:E9;
    simpl in Hrun; [|done].
  destruct (keypoint_measurements_ f) as [kps|] eqn:EK; simpl in Hrun; [|done].
  destruct (CHECK (length kps =? length (desc_cols D))) as [[]|] eqn:E10;
    simpl in Hrun; [|done].
  injection Hrun as <-.
  apply CHECK_Some in E1, E2, E3, E4, E5, E6, E7, E8, E9, E10.
  apply Z.eqb_eq in E3, E4. apply Z.ltb_lt in E7. apply Nat.eqb_eq in E9, E10.
  repeat split; try done; eauto 10.
Qed.

Lemma track_checks_pass camera_ frame_k kp1 out :
  track_preconditions camera_ frame_k kp1 →
  track_checks camera_ frame_k (Some kp1) (Some out) = Some kp1.
Proof.
  intros (Hk & Hkp1 & (gk & Hgk & Hidk) & (gkp1 & Hgkp1 & Hidkp1) & Htk & Htkp1
          & Hts & D & kps & HD & Hrows & Hkps & Hcols).
  unfold track_checks. rewrite Hk. simpl. rewrite Hkp1. simpl.
  rewrite Hgk. simpl. rewrite (CHECK_true (_ =? _)%Z) by by apply Z.eqb_eq.
  simpl. rewrite Hgkp1. simpl.
  rewrite (CHECK_true (_ =? _)%Z) by by apply Z.eqb_eq.
  simpl. rewrite Htk. simpl. rewrite Htkp1. simpl.
  rewrite (CHECK_true (_ <? _)%Z) by by apply Z.ltb_lt.
  simpl. unfold hasDescriptors. rewrite HD. simpl.
  rewrite (CHECK_true (_ =? _)) by by apply Nat.eqb_eq.
  simpl. rewrite Hkps. simpl.
  rewrite (CHECK_true (_ =? _)) by by apply Nat.eqb_eq.
  reflexivity.
Qed.

(** The [CHECK]s of [track] do not look at the descriptors of frame k. *)
Lemma track_checks_ignore_frame_k_descriptors camera_ frame_k frame_kp1 out d :
  track_checks camera_ (with_descriptors frame_k d) frame_kp1 out
  = track_checks camera_ frame_k frame_kp1 out.
Proof. reflexivity. Qed.





(** X11. [track] returns matches exactly when neither pointer is null,
    every precondition it checks holds, the matching data is built, and
    the matching of the two frames returns these matches. In every other
    case it does not return; the content the output container had before
    the call plays no part. *)
Theorem track_returns_iff {Quaternion : Type}
    (matching_data :
       Quaternion → VisualFrame → VisualFrame → option GyroTrackerMatchingData)
    (camera_ : Camera) (q : Quaternion) (frame_k : VisualFrame)
    (frame_kp1 : option VisualFrame) (out : option (list MatchWithScore))
    (matches : list MatchWithScore) :
  track kdescriptorSizeBytes matching_data camera_ q frame_k frame_kp1 out
  = Some matches
  ↔ ∃ kp1 md, frame_kp1 = Some kp1 ∧ is_Some out
      ∧ track_preconditions camera_ frame_k kp1
      ∧ matching_data q kp1 frame_k = Some md
      ∧ matchFeatures kdescriptorSizeBytes camera_ md kp1 frame_k
        = Some matches.
Proof.
  unfold track. split.
  - intros Hrun.
    destruct (track_checks camera_ frame_k frame_kp1 out) as [kp1|] eqn:Hc;
      simpl in Hrun; [|done].
    destruct (matching_data q kp1 frame_k) as [md|] eqn:Hmd;
      simpl in Hrun; [|done].
    apply track_checks_Some in Hc
      as (-> & Hout & ? & ? & ? & ? & ? & ? & ? & ?).
    exists kp1, md. repeat split; done.
  - intros (kp1 & md & -> & [o ->] & Hpre & Hmd & Hrun).
    rewrite track_checks_pass by done. simpl. by rewrite Hmd.
Qed.

End Facade.

(** The matching data of the example is the one the constructor as
    modelled builds for the two frames, with or without the descriptors
    of frame k. *)
Lemma example_matching_data_modelled :
  matching_data_without_rotation tt example_frame_kp1 example_frame_k
  = Some example_matching_data
  ∧ matching_data_without_rotation tt example_frame_kp1
      frame_k_without_descriptors = Some example_matching_data.
Proof. split; vm_compute; reflexivity. Qed.

(** The frame k of the example without descriptors passes every [CHECK]
    of [track]: the abort comes from the accessor in [matchFeatures]. *)
Lemma track_checks_pass_without_frame_k_descriptors :
  hasDescriptors frame_k_without_descriptors = false
  ∧ track_checks example_camera frame_k_without_descriptors
      (Some example_frame_kp1) (Some []) = Some example_frame_kp1.
Proof. split; vm_compute; reflexivity. Qed.


(** So is the matching data of the other searches and calls that are
    computed in this file. *)
Lemma test_matching_data_modelled :
  matching_data_without_rotation tt boundary_frame_kp1 boundary_frame_k
  = Some boundary_matching_data
  ∧ matching_data_without_rotation tt wide_frame_kp1 wide_frame_k
    = Some wide_matching_data
  ∧ matching_data_without_rotation tt (identity_frame 5 [10; 50; 90]%Q)
      (identity_frame 5 [10; 50; 90]%Q)
    = Some (identity_matching_data 5 [10; 50; 90]%Q)
  ∧ matching_data_without_rotation tt (identity_frame 5 [10; 50; 99]%Q)
      (identity_frame 5 [10; 50; 99]%Q)
    = Some (identity_matching_data 5 [10; 50; 99]%Q)
  ∧ matching_data_without_rotation tt twin_frame twin_frame
    = Some twin_matching_data
  ∧ matching_data_without_rotation tt close_frame close_frame
    = Some close_matching_data.
Proof. repeat split; vm_compute; reflexivity. Qed.

(** ** The output of a call *)

Section Output.
Context `{GyroTrackerConstants}.
Variable kdescriptorSizeBytes : nat.
Local Abbreviation L := kdescriptorSizeBytes.

(** The two ways a round of the outer loop ends: no candidate was found
    and the state is unchanged, or the best candidate is flagged and one
    record is appended. *)
Lemma match_keypoint_Some image_height md frame_kp1 frame_k flags ms i st' :
  match_keypoint L image_height md frame_kp1 frame_k (flags, ms) i = Some st' →
  ∃ search,
    search_keypoint L image_height md frame_kp1 frame_k flags i = Some search
    ∧ (found search = false ∧ st' = (flags, ms)
       ∨ ∃ c, found search = true ∧ it_best search = Some c
           ∧ index c < length flags
           ∧ st' = (<[index c := true]> flags,
                    ms ++ [{| index_kp1 := index c; index_k := i; score := 0 |}])).
Proof.
  unfold match_keypoint. intros Hrun.
  destruct (search_keypoint L image_height md frame_kp1 frame_k flags i)
    as [search|]; simpl in Hrun; [|done].
  exists search. split; [done|]. destruct (found search).
  - destruct (it_best search) as [c|]; simpl in Hrun; [|done].
    destruct (flags !! index c) as [m|] eqn:Hm; simpl in Hrun; [|done].
    injection Hrun as <-. right. exists c. repeat split.
    by eapply lookup_lt_Some.
  - injection Hrun as <-. by left.
Qed.

(** An invariant of the rounds of the outer loop holds of the output. *)
Lemma matchFeatures_invariant (P : nat → list bool * list MatchWithScore → Prop)
    camera_ md frame_kp1 frame_k matches :
  P 0 (replicate (num_points_kp1 md) false, []) →
  (∀ i st st', i < num_points_k md → P i st →
     match_keypoint L (imageHeight camera_) md frame_kp1 frame_k st i = Some st' →
     P (S i) st') →
  matchFeatures L camera_ md frame_kp1 frame_k = Some matches →
  ∃ flags, P (num_points_k md) (flags, matches).
Proof.
  intros Hinit Hstep (_ & flags & Hloop)%matchFeatures_inv.
  exists flags.
  apply (for_each_seq_invariant P) in Hloop; [done| |done].
  intros i s s' Hi. apply Hstep. lia.
Qed.

(** X1. A call emits at most one record per keypoint of frame k and at
    most one per keypoint of frame k+1. *)
Theorem matchFeatures_count (camera_ : Camera) (md : GyroTrackerMatchingData)
    (frame_kp1 frame_k : VisualFrame) (matches : list MatchWithScore) :
  matchFeatures L camera_ md frame_kp1 frame_k = Some matches →
  length matches ≤ num_points_k md ∧ length matches ≤ num_points_kp1 md.
Proof.
  intros Hrun. apply matchFeatures_Some in Hrun as (Hall & Hnd1 & Hnd0).
  rewrite Forall_forall in Hall. split.
  - assert (Hle : length (map index_k matches)
                  ≤ length (seq 0 (num_points_k md))).
    { apply NoDup_ListNoDup in Hnd0. apply (NoDup_incl_length Hnd0). intros k Hk.
      apply in_map_iff in Hk as (m & <- & Hm). apply list_elem_of_In in Hm.
      destruct (Hall m Hm) as (_ & Hlt & _). apply in_seq. lia. }
    by rewrite length_map, length_seq in Hle.
  - assert (Hle : length (map index_kp1 matches)
                  ≤ length (map index (keypoints_kp1_by_y md))).
    { apply NoDup_ListNoDup in Hnd1. apply (NoDup_incl_length Hnd1). intros t Ht.
      apply in_map_iff in Ht as (m & <- & Hm). apply list_elem_of_In in Hm.
      destruct (Hall m Hm) as (_ & _ & c & _ & _ & _ & [Hc _] & -> & _).
      apply in_map. by apply list_elem_of_In. }
    by rewrite !length_map in Hle.
Qed.

(** X2. The records of a call are in strictly ascending order of the
    index in frame k. *)
Theorem matchFeatures_ascending (camera_ : Camera) (md : GyroTrackerMatchingData)
    (frame_kp1 frame_k : VisualFrame) (matches : list MatchWithScore) :
  matchFeatures L camera_ md frame_kp1 frame_k = Some matches →
  StronglySorted lt (map index_k matches).
Proof.
  intros Hrun.
  apply (matchFeatures_invariant (λ i st,
           StronglySorted lt (map index_k (snd st))
           ∧ Forall (λ k, k < i) (map index_k (snd st)))) in Hrun
    as (flags & Hsorted & _); [done|..].
  - simpl. split; constructor.
  - intros i [flags ms] st' _ [Hsorted Hlt] Hstep. simpl in Hsorted, Hlt.
    apply match_keypoint_Some in Hstep
      as (search & _ & [[_ ->]|(c & _ & _ & _ & ->)]); simpl.
    + split; [done|]. eapply Forall_impl; [exact Hlt|]. simpl. lia.
    + rewrite List.map_app. simpl. split.
      * apply StronglySorted_app. split; [|split].
        -- intros a b Ha Hb. apply list_elem_of_singleton in Hb as ->.
           rewrite Forall_forall in Hlt. by apply Hlt.
        -- done.
        -- repeat constructor.
      * apply Forall_app. split.
        -- eapply Forall_impl; [exact Hlt|]. simpl. lia.
        -- repeat constructor.
Qed.

End Output.

Lemma matchFeatures_count_witness :
  length example_matches ≤ num_points_k example_matching_data
  ∧ length example_matches ≤ num_points_kp1 example_matching_data.
Proof.
  apply (matchFeatures_count 4 example_camera example_matching_data
           example_frame_kp1 example_frame_k example_matches).
  vm_compute. reflexivity.
Defined.

Lemma matchFeatures_ascending_witness :
  StronglySorted lt (map index_k example_matches).
Proof.
  apply (matchFeatures_ascending 4 example_camera example_matching_data
           example_frame_kp1 example_frame_k example_matches).
  vm_compute. reflexivity.
Defined.

(** ** The two loops over a window *)

Section Loops.
Context `{GyroTrackerConstants}.
Variable kdescriptorSizeBytes : nat.
Local Abbreviation L := kdescriptorSizeBytes.

Lemma keeps_processed_refl st : keeps_processed st st.
Proof. split; auto. Qed.

Lemma keeps_processed_trans st0 st1 st2 :
  keeps_processed st0 st1 → keeps_processed st1 st2 → keeps_processed st0 st2.
Proof. intros [Hl1 Hk1] [Hl2 Hk2]. split; [congruence|auto]. Qed.

Lemma keeps_processed_score_candidate sd md frame_kp1 predicted descriptor_k
    st it st' :
  score_candidate L sd md frame_kp1 predicted descriptor_k st it = Some st' →
  keeps_processed st st'.
Proof.
  intros Hrun.
  apply score_candidate_Some in Hrun as (d & _ & _ & _ & _ & Hp & _).
  unfold keeps_processed. rewrite Hp.
  split; [apply length_insert|]. intros j Hj.
  destruct (decide (index it = j)) as [->|Hne].
  - rewrite list_lookup_insert_eq; [done|]. by eapply lookup_lt_Some.
  - by rewrite list_lookup_insert_ne.
Qed.

Lemma keeps_processed_step w md frame_kp1 matched bounds predicted descriptor_k
    st it st' :
  window_step L w md frame_kp1 matched bounds predicted descriptor_k st it
  = Some st' →
  keeps_processed st st'.
Proof.
  intros Hrun. apply window_step_Some in Hrun as [->|(_ & _ & Hrun)];
    [apply keeps_processed_refl|by eapply keeps_processed_score_candidate].
Qed.

Lemma keeps_processed_loop w md frame_kp1 matched bounds predicted descriptor_k
    corners st st' :
  for_each (window_step L w md frame_kp1 matched bounds predicted descriptor_k)
    st corners = Some st' →
  keeps_processed st st'.
Proof.
  apply (for_each_invariant (keeps_processed st)); [|apply keeps_processed_refl].
  intros s it s' _ Hs Hstep. eapply keeps_processed_trans; [exact Hs|].
  by eapply keeps_processed_step.
Qed.

(** A flag that a loop has set belongs to a candidate of its range that
    got past the [continue]s. *)
Lemma window_loop_flags w md frame_kp1 matched bounds predicted descriptor_k
    corners st0 st :
  for_each (window_step L w md frame_kp1 matched bounds predicted descriptor_k)
    st0 corners = Some st →
  ∀ j, processed_corners_kp1 st !! j = Some true →
       processed_corners_kp1 st0 !! j = Some true
       ∨ ∃ c, c ∈ corners ∧ index c = j
              ∧ outside_columns bounds c = false
              ∧ matched !! index c = Some false.
Proof.
  apply (for_each_invariant (λ s, ∀ j,
           processed_corners_kp1 s !! j = Some true →
           processed_corners_kp1 st0 !! j = Some true
           ∨ ∃ c, c ∈ corners ∧ index c = j
                  ∧ outside_columns bounds c = false
                  ∧ matched !! index c = Some false)); [|auto].
  intros s c s' Hin Hs Hstep j Hj.
  apply window_step_Some in Hstep as [->|(Hcol & Hm & Hstep)]; [auto|].
  apply score_candidate_Some in Hstep as (d & _ & _ & _ & _ & Hp & _).
  rewrite Hp in Hj. destruct (decide (index c = j)) as [<-|Hne].
  - right. by exists c.
  - rewrite list_lookup_insert_ne in Hj by done. auto.
Qed.

(** A candidate of the range of a loop that gets past the [continue]s of
    the small window has its flag set afterwards. *)
Lemma small_window_loop_flagged md frame_kp1 matched bounds predicted
    descriptor_k corners st0 st c :
  for_each (window_step L SmallWindow md frame_kp1 matched bounds predicted
              descriptor_k) st0 corners = Some st →
  c ∈ corners → outside_columns bounds c = false →
  matched !! index c = Some false →
  length (processed_corners_kp1 st0) = num_points_kp1 md →
  processed_corners_kp1 st !! index c = Some true.
Proof.
  intros Hrun Hin Hcol Hm Hlen.
  apply list_elem_of_split in Hin as (l1 & l2 & ->).
  rewrite for_each_app in Hrun.
  destruct (for_each _ st0 l1) as [s1|] eqn:H1; simpl in Hrun; [|done].
  destruct (small_window_step L md frame_kp1 matched bounds predicted
              descriptor_k s1 c) as [s2|] eqn:H2; simpl in Hrun; [|done].
  apply keeps_processed_loop in H1 as [Hl1 _].
  apply (keeps_processed_loop SmallWindow) in Hrun as [_ Hk2].
  apply Hk2.
  unfold small_window_step in H2. rewrite Hcol, Hm in H2. simpl in H2.
  apply score_candidate_Some in H2 as (d & Hidx & _ & _ & _ & Hp & _).
  rewrite Hp. apply list_lookup_insert_eq. lia.
Qed.

(** The score of a candidate that is scored, and what it does to the
    running best. *)
Lemma score_candidate_best sd md frame_kp1 predicted descriptor_k st c st' :
  score_candidate L sd md frame_kp1 predicted descriptor_k st c = Some st' →
  ∃ s, candidate_score L frame_kp1 descriptor_k c = Some s
    ∧ ((s ≤ best_score st)%Z
       ∧ found st' = found st ∧ it_best st' = it_best st
       ∧ best_score st' = best_score st
       ∨ (best_score st < s)%Z
         ∧ found st' = true ∧ it_best st' = Some c ∧ best_score st' = s).
Proof.
  intros Hrun. unfold candidate_score.
  apply score_candidate_Some in Hrun
    as (d & _ & Hd & _ & _ & _ & [(Hlt & _ & Hf & Hb & Hs)|(Hle & Hf & Hb & Hs)]);
    rewrite Hd; simpl; eexists; (split; [done|]); [right|left]; done.
Qed.

(** A round of the small-window loop skips what is not a candidate and
    scores what is. *)
Lemma small_window_step_cases md frame_kp1 matched bounds predicted descriptor_k
    st c st' :
  column_bounds kSmallSearchDistance predicted = Some bounds →
  small_window_step L md frame_kp1 matched bounds predicted descriptor_k st c
  = Some st' →
  ¬ small_window_candidate matched predicted c ∧ st' = st
  ∨ small_window_candidate matched predicted c
    ∧ score_candidate L kSmallSearchDistance md frame_kp1 predicted descriptor_k
        st c = Some st'.
Proof.
  intros Hb Hrun. unfold small_window_candidate.
  rewrite (inside_columns_Some _ _ _ _ Hb).
  apply small_window_step_Some in Hrun as [[[Hcol|Hm] ->]|(Hcol & Hm & Hrun)].
  - left. split; [|done]. rewrite Hcol. by intros [? _].
  - left. split; [|done]. rewrite Hm. by intros [_ ?].
  - right. rewrite Hcol. done.
Qed.

(** What a round does to the running best, in terms of the score of the
    candidate. *)
Lemma small_window_step_best md frame_kp1 matched bounds predicted descriptor_k
    st c st' :
  column_bounds kSmallSearchDistance predicted = Some bounds →
  small_window_step L md frame_kp1 matched bounds predicted descriptor_k st c
  = Some st' →
  candidate_at_most L frame_kp1 matched predicted descriptor_k (best_score st') c
  ∧ (found st' = found st ∧ it_best st' = it_best st
     ∧ best_score st' = best_score st
     ∨ found st' = true ∧ it_best st' = Some c
       ∧ small_window_candidate matched predicted c
       ∧ candidate_score L frame_kp1 descriptor_k c = Some (best_score st')
       ∧ (best_score st < best_score st')%Z).
Proof.
  intros Hb Hrun. unfold candidate_at_most.
  apply (small_window_step_cases _ _ _ _ _ _ _ _ _ Hb) in Hrun
    as [[Hno ->]|[Hc Hrun]].
  { split; [done|]. by left. }
  apply score_candidate_best in Hrun
    as (s & Hs & [(Hle & Hf & Hbest & Hsc)|(Hlt & Hf & Hbest & Hsc)]).
  - split.
    + intros _. exists s. split; [done|lia].
    + by left.
  - split.
    + intros _. exists s. split; [done|lia].
    + right. rewrite Hsc. done.
Qed.

Lemma candidate_at_most_mono frame_kp1 matched predicted descriptor_k b b' c :
  (b ≤ b')%Z →
  candidate_at_most L frame_kp1 matched predicted descriptor_k b c →
  candidate_at_most L frame_kp1 matched predicted descriptor_k b' c.
Proof.
  intros Hb Hc Hcand. destruct (Hc Hcand) as (s & Hs & Hle).
  exists s. split; [done|lia].
Qed.

(** The loop from any state: either the best is the one it started with
    and no candidate of the range scores above it, or the best is a
    candidate of the range that scores above every candidate before it
    and at least as high as every candidate after it. *)
Lemma small_window_loop_best md frame_kp1 matched bounds predicted descriptor_k
    corners : ∀ st0 st,
  column_bounds kSmallSearchDistance predicted = Some bounds →
  for_each (small_window_step L md frame_kp1 matched bounds predicted
              descriptor_k) st0 corners = Some st →
  found st = found st0 ∧ it_best st = it_best st0
  ∧ best_score st = best_score st0
  ∧ Forall (candidate_at_most L frame_kp1 matched predicted descriptor_k
              (best_score st0)) corners
  ∨ ∃ before c after,
      corners = before ++ c :: after
      ∧ found st = true ∧ it_best st = Some c
      ∧ small_window_candidate matched predicted c
      ∧ candidate_score L frame_kp1 descriptor_k c = Some (best_score st)
      ∧ (best_score st0 < best_score st)%Z
      ∧ Forall (candidate_at_most L frame_kp1 matched predicted descriptor_k
                  (best_score st - 1)) before
      ∧ Forall (candidate_at_most L frame_kp1 matched predicted descriptor_k
                  (best_score st)) after.
Proof.
  induction corners as [|c0 corners IH]; intros st0 st Hb Hrun; simpl in Hrun.
  - injection Hrun as <-. left. split_and!; [done..|constructor].
  - destruct (small_window_step L md frame_kp1 matched bounds predicted
                descriptor_k st0 c0) as [st1|] eqn:Hstep; simpl in Hrun; [|done].
    apply (small_window_step_best _ _ _ _ _ _ _ _ _ Hb) in Hstep as [Hc0 Hstep].
    destruct (IH st1 st Hb Hrun)
      as [(Hf & Hbest & Hs & Hall)
         |(before & c & after & -> & Hf & Hbest & Hc & Hsc & Hlt & Hbef & Haft)].
    + destruct Hstep as [(Hf1 & Hb1 & Hs1)|(Hf1 & Hb1 & Hc1 & Hsc1 & Hlt1)].
      * left. rewrite Hf, Hbest, Hs, Hf1, Hb1, Hs1. split_and!; [done..|].
        rewrite <- Hs1. by constructor.
      * right. exists [], c0, corners. rewrite Hf, Hbest, Hs.
        split_and!; [done..|constructor|done].
    + right. exists (c0 :: before), c, after.
      assert (best_score st0 ≤ best_score st1)%Z
        by (destruct Hstep as [(_ & _ & ->)|(_ & _ & _ & _ & ?)]; lia).
      split_and!; [done..|lia| |done].
      constructor; [|done].
      eapply candidate_at_most_mono; [|exact Hc0]. lia.
Qed.

(** X12. The small window takes the first of the best: when it finds a
    candidate, that candidate is one of its range that got past the
    filters, its score exceeds the threshold and the score of every
    candidate before it in the range, and no candidate after it scores
    higher. When it finds none, no candidate of the range scores above
    the threshold. *)
Theorem small_window_takes_first_best (md : GyroTrackerMatchingData)
    (frame_kp1 : VisualFrame) (matched : list bool) (predicted : Q * Q)
    (descriptor_k : Descriptor) (corners : list KeypointData)
    (st : SearchState) :
  search_small_window L md frame_kp1 matched predicted descriptor_k corners
  = Some st →
  ∃ threshold,
    initial_best_score L = Some threshold
    ∧ if found st then
        ∃ before c after,
          corners = before ++ c :: after
          ∧ it_best st = Some c
          ∧ small_window_candidate matched predicted c
          ∧ candidate_score L frame_kp1 descriptor_k c = Some (best_score st)
          ∧ (threshold < best_score st)%Z
          ∧ Forall (candidate_at_most L frame_kp1 matched predicted descriptor_k
                      (best_score st - 1)) before
          ∧ Forall (candidate_at_most L frame_kp1 matched predicted descriptor_k
                      (best_score st)) after
      else
        it_best st = None
        ∧ Forall (candidate_at_most L frame_kp1 matched predicted descriptor_k
                    threshold) corners.
Proof.
  intros (threshold & bounds & Ht & Hb & Hrun)%search_small_window_Some.
  exists threshold. split; [done|]. simpl in Hrun.
  apply (small_window_loop_best _ _ _ _ _ _ _ _ _ Hb) in Hrun
    as [(Hf & Hbest & Hs & Hall)
       |(before & c & after & -> & Hf & Hbest & Hc & Hsc & Hlt & Hbef & Haft)].
  - rewrite Hf. simpl. split; [by rewrite Hbest|done].
  - rewrite Hf. exists before, c, after. split_and!; done.
Qed.

End Loops.


(** The small window on the boundary data: of the three candidates, which
    score 32, 33 and 33, it takes the second, the first to score above
    the threshold of 32. *)
Lemma small_window_takes_first_best_witness :
  let L := 5 in
  let md := boundary_matching_data in
  let frame_kp1 := boundary_frame_kp1 in
  let matched := replicate 3 false in
  let predicted := (5, 10)%Q in
  let descriptor_k := [0; 0; 0; 0; 0]%Z in
  let corners := keypoints_kp1_by_y boundary_matching_data in
  let st := boundary_final_state in
  search_small_window L md frame_kp1 matched predicted descriptor_k corners
  = Some st
  ∧ ∃ threshold,
      initial_best_score L = Some threshold
      ∧ if found st then
          ∃ before c after,
            corners = before ++ c :: after
            ∧ it_best st = Some c
            ∧ small_window_candidate matched predicted c
            ∧ candidate_score L frame_kp1 descriptor_k c = Some (best_score st)
            ∧ (threshold < best_score st)%Z
            ∧ Forall (candidate_at_most L frame_kp1 matched predicted
                        descriptor_k (best_score st - 1)) before
            ∧ Forall (candidate_at_most L frame_kp1 matched predicted
                        descriptor_k (best_score st)) after
        else
          it_best st = None
          ∧ Forall (candidate_at_most L frame_kp1 matched predicted
                      descriptor_k threshold) corners.
Proof.
  intros L md frame_kp1 matched predicted descriptor_k corners st.
  assert (Hrun : search_small_window L md frame_kp1 matched predicted
                   descriptor_k corners = Some st)
    by (vm_compute; reflexivity).
  split; [exact Hrun|].
  exact (small_window_takes_first_best 5 boundary_matching_data
           boundary_frame_kp1 (replicate 3 false) (5, 10)%Q [0; 0; 0; 0; 0]%Z
           (keypoints_kp1_by_y boundary_matching_data) boundary_final_state
           Hrun).
Defined.

(** ** The two phases of a search *)

Section Phases.
Context `{GyroTrackerConstants}.
Variable kdescriptorSizeBytes : nat.
Local Abbreviation L := kdescriptorSizeBytes.





(** The corners of a window are a part of the vector of keypoints. *)
Lemma window_corners_sublist md image_height LUT idx corners :
  window_corners md image_height LUT idx = Some corners →
  corners `sublist_of` keypoints_kp1_by_y md.
Proof.
  unfold window_corners, iterator_range. intros Hrun.
  destruct (LUT !! Z.to_nat (Z.min (fst idx)
              (image_height_minus_1 image_height))) as [b|];
    simpl in Hrun; [|done].
  destruct (LUT !! Z.to_nat (Z.min (snd idx + 1)
              (image_height_minus_1 image_height))) as [e|];
    simpl in Hrun; [|done].
  destruct (CHECK (b <=? e)) as [[]|]; simpl in Hrun; [|done].
  destruct (CHECK (e <=? length (keypoints_kp1_by_y md))) as [[]|];
    simpl in Hrun; [|done].
  injection Hrun as <-.
  etransitivity; [apply sublist_take|apply sublist_drop].
Qed.

Lemma sublist_NoDup_index (l k : list KeypointData) :
  l `sublist_of` k → NoDup (map index k) → NoDup (map index l).
Proof.
  intros Hsub Hnd. eapply sublist_NoDup; [exact Hnd|].
  by apply (fmap_sublist index).
Qed.

(** The rounds of the loop over the large window: a candidate is skipped
    when one of the three tests says so, and scored otherwise. *)
Lemma large_window_step_cases md frame_kp1 matched bounds predicted descriptor_k
    st c st' :
  large_window_step L md frame_kp1 matched bounds predicted descriptor_k st c
  = Some st' →
  scored_in_large_window (processed_corners_kp1 st) matched bounds c = false
  ∧ st' = st
  ∨ scored_in_large_window (processed_corners_kp1 st) matched bounds c = true
    ∧ processed_corners_kp1 st !! index c = Some false
    ∧ matched !! index c = Some false
    ∧ outside_columns bounds c = false
    ∧ score_candidate L kLargeSearchDistance md frame_kp1 predicted descriptor_k
        st c = Some st'.
Proof.
  unfold large_window_step, scored_in_large_window, flag_set. intros Hrun.
  destruct (processed_corners_kp1 st !! index c) as [[|]|] eqn:Hp;
    simpl in Hrun; [| |done].
  { left. split; [|congruence]. by rewrite bool_decide_eq_true_2. }
  destruct (matched !! index c) as [[|]|] eqn:Hm; simpl in Hrun; [| |done].
  { left. split; [|congruence]. rewrite (bool_decide_eq_true_2 (Some true = _));
      [|done]. by rewrite andb_false_r. }
  destruct (outside_columns bounds c) eqn:Hcol.
  { left. split; [|congruence]. by rewrite andb_false_r. }
  right. rewrite !bool_decide_eq_false_2 by done. done.
Qed.

(** The loop over the small window scores the candidates of its range
    that get past its two tests, in the order of the range. *)
Lemma small_window_loop_scores md frame_kp1 matched bounds predicted descriptor_k
    corners : ∀ st0 st,
  for_each (small_window_step L md frame_kp1 matched bounds predicted
              descriptor_k) st0 corners = Some st →
  for_each (score_candidate L kSmallSearchDistance md frame_kp1 predicted
              descriptor_k) st0
    (List.filter (scored_in_small_window matched bounds) corners) = Some st.
Proof.
  induction corners as [|c corners IH]; intros st0 st Hrun; simpl in Hrun;
    [done|].
  destruct (small_window_step L md frame_kp1 matched bounds predicted
              descriptor_k st0 c) as [st1|] eqn:Hstep; simpl in Hrun; [|done].
  simpl. unfold scored_in_small_window at 1, flag_set.
  apply small_window_step_Some in Hstep as [[[Hcol|Hm] ->]|(Hcol & Hm & Hstep)].
  - rewrite Hcol. simpl. by apply IH.
  - rewrite (bool_decide_eq_true_2 _ Hm), andb_false_r. by apply IH.
  - rewrite Hcol, bool_decide_eq_false_2 by (rewrite Hm; done). simpl.
    rewrite Hstep. simpl. by apply IH.
Qed.

(** The loop over the large window runs as on the candidates of its
    range that were not processed when it started, are not matched to an
    earlier keypoint of frame k and are within its column bounds. *)
Lemma large_window_loop_filter md frame_kp1 matched bounds predicted descriptor_k
    st0 corners : ∀ st st',
  keeps_processed st0 st →
  for_each (large_window_step L md frame_kp1 matched bounds predicted
              descriptor_k) st corners = Some st' →
  for_each (large_window_step L md frame_kp1 matched bounds predicted
              descriptor_k) st
    (List.filter (scored_in_large_window (processed_corners_kp1 st0) matched
                    bounds) corners) = Some st'.
Proof.
  induction corners as [|c corners IH]; intros st st' Hkeep Hrun;
    simpl in Hrun; [done|].
  destruct (large_window_step L md frame_kp1 matched bounds predicted
              descriptor_k st c) as [st1|] eqn:Hstep; simpl in Hrun; [|done].
  assert (Hkeep1 : keeps_processed st0 st1).
  { eapply keeps_processed_trans; [exact Hkeep|].
    by apply (keeps_processed_step kdescriptorSizeBytes LargeWindow) in Hstep. }
  simpl.
  destruct (scored_in_large_window (processed_corners_kp1 st0) matched bounds c)
    eqn:Hpred; simpl.
  - rewrite Hstep. simpl. by apply IH.
  - apply large_window_step_cases in Hstep
      as [[_ ->]|(_ & Hp & Hm & Hcol & _)]; [by apply IH|].
    exfalso. unfold scored_in_large_window, flag_set in Hpred.
    rewrite Hcol, (bool_decide_eq_false_2 (matched !! _ = _)) in Hpred
      by (rewrite Hm; done).
    rewrite !andb_true_r in Hpred. apply negb_false_iff in Hpred.
    apply bool_decide_eq_true in Hpred. destruct Hkeep as [_ Hk].
    apply Hk in Hpred. congruence.
Qed.

(** When no two candidates of its range have the same index, the loop
    over the large window scores these candidates, in the order of the
    range. *)
Lemma large_window_loop_scores md frame_kp1 matched bounds predicted descriptor_k
    st0 corners : ∀ st st',
  NoDup (map index corners) →
  (∀ c, c ∈ corners →
        processed_corners_kp1 st !! index c
        = processed_corners_kp1 st0 !! index c) →
  for_each (large_window_step L md frame_kp1 matched bounds predicted
              descriptor_k) st corners = Some st' →
  for_each (score_candidate L kLargeSearchDistance md frame_kp1 predicted
              descriptor_k) st
    (List.filter (scored_in_large_window (processed_corners_kp1 st0) matched
                    bounds) corners) = Some st'.
Proof.
  induction corners as [|c corners IH]; intros st st' Hnd Hagree Hrun;
    simpl in Hrun; [done|].
  destruct (large_window_step L md frame_kp1 matched bounds predicted
              descriptor_k st c) as [st1|] eqn:Hstep; simpl in Hrun; [|done].
  simpl in Hnd. apply NoDup_cons in Hnd as [Hc Hnd].
  assert (Hsame : scored_in_large_window (processed_corners_kp1 st0) matched
                    bounds c
                  = scored_in_large_window (processed_corners_kp1 st) matched
                      bounds c).
  { unfold scored_in_large_window, flag_set.
    rewrite (Hagree c) by by left. done. }
  simpl. rewrite Hsame.
  apply large_window_step_cases in Hstep
    as [[-> ->]|(-> & Hp & Hm & Hcol & Hstep)]; simpl.
  - apply IH; [done| |done]. intros c' Hc'. apply Hagree. by right.
  - rewrite Hstep. simpl. apply IH; [done| |done].
    intros c' Hc'. rewrite <- Hagree by by right.
    apply score_candidate_Some in Hstep as (d & _ & _ & _ & _ & -> & _).
    apply list_lookup_insert_ne. intros Heq. apply Hc. rewrite Heq.
    apply list_elem_of_In, in_map. by apply list_elem_of_In.
Qed.


(** A candidate of the small range that gets past the tests of the small
    window has its flag set after the loop. *)
Lemma small_window_loop_scored_flagged md frame_kp1 matched bounds predicted
    descriptor_k corners st0 st c :
  for_each (small_window_step L md frame_kp1 matched bounds predicted
              descriptor_k) st0 corners = Some st →
  c ∈ corners → scored_in_small_window matched bounds c = true →
  length (processed_corners_kp1 st0) = num_points_kp1 md →
  processed_corners_kp1 st !! index c = Some true.
Proof.
  intros Hrun Hin Hsc Hlen.
  pose proof Hin as Hin'.
  apply list_elem_of_split in Hin' as (l1 & l2 & ->).
  pose proof Hrun as Hrun'.
  rewrite for_each_app in Hrun'.
  destruct (for_each _ st0 l1) as [s1|] eqn:H1; simpl in Hrun'; [|done].
  destruct (small_window_step L md frame_kp1 matched bounds predicted
              descriptor_k s1 c) as [s2|] eqn:H2; simpl in Hrun'; [|done].
  unfold scored_in_small_window, flag_set in Hsc.
  apply andb_true_iff in Hsc as [Hcol Hm].
  apply negb_true_iff in Hcol. apply negb_true_iff in Hm.
  apply bool_decide_eq_false in Hm.
  apply small_window_step_Some in H2 as [[[Hc|Hc] _]|(_ & Hm' & _)];
    [congruence|done|].
  exact (small_window_loop_flagged kdescriptorSizeBytes md frame_kp1 matched
           bounds predicted descriptor_k (l1 ++ c :: l2) st0 st c Hrun Hin Hcol
           Hm' Hlen).
Qed.



(** C4. In the search for a keypoint of frame k, the small window scores
    the candidates of its range that are within its columns and not
    matched before, and sets the processed flag of exactly these. The
    loop over the large window is run only if the small window has taken
    no candidate: otherwise the search ends in the state the small window
    left. When it is run, the loop goes as on the candidates of its range
    that are not flagged as processed by the small window, not matched
    before and within its columns; when no two candidates of the range
    have the same index, it scores these candidates, in the order of the
    range. In both windows a candidate is scored by the same rule: the
    running best becomes the larger of itself and the score
    [descriptor bits - Hamming distance], the candidate is taken as the
    best when its score is strictly the larger, and it is counted and
    flagged as processed. *)
Theorem wide_phase_gating (image_height : nat) (md : GyroTrackerMatchingData)
    (frame_kp1 frame_k : VisualFrame) (matched : list bool) (i : nat)
    (st : SearchState) :
  search_keypoint L image_height md frame_kp1 frame_k matched i = Some st →
  ∃ predicted descriptor_k threshold small large bounds_small st_small,
    predicted_keypoint_positions_kp1 md !! i = Some predicted
    ∧ getDescriptor frame_k i = Some descriptor_k
    ∧ initial_best_score L = Some threshold
    ∧ nearest_corners md image_height predicted = Some small
    ∧ near_corners md image_height predicted = Some large
    ∧ column_bounds kSmallSearchDistance predicted = Some bounds_small
    ∧ for_each (score_candidate L kSmallSearchDistance md frame_kp1 predicted
                  descriptor_k) (initial_search_state md threshold)
        (List.filter (scored_in_small_window matched bounds_small) small)
      = Some st_small
    ∧ (∀ j, processed_corners_kp1 st_small !! j = Some true
            ↔ ∃ c, c ∈ small ∧ index c = j
                   ∧ scored_in_small_window matched bounds_small c = true)
    ∧ (found st_small = true → st = st_small)
    ∧ (found st_small = false →
       ∃ bounds_large,
         column_bounds kLargeSearchDistance predicted = Some bounds_large
         ∧ for_each (large_window_step L md frame_kp1 matched bounds_large
                       predicted descriptor_k) st_small
             (List.filter (scored_in_large_window (processed_corners_kp1 st_small)
                             matched bounds_large) large)
           = Some st
         ∧ (NoDup (map index large) →
            for_each (score_candidate L kLargeSearchDistance md frame_kp1
                        predicted descriptor_k) st_small
              (List.filter (scored_in_large_window
                              (processed_corners_kp1 st_small) matched
                              bounds_large) large)
            = Some st))
    ∧ (∀ search_distance s c s',
         score_candidate L search_distance md frame_kp1 predicted descriptor_k
           s c = Some s' →
         ∃ descriptor_kp1,
           getDescriptor frame_kp1 (index c) = Some descriptor_kp1
           ∧ best_score s'
             = Z.max (best_score s) (match_score L descriptor_k descriptor_kp1)
           ∧ found s'
             = found s
               || (best_score s <? match_score L descriptor_k descriptor_kp1)%Z
           ∧ it_best s'
             = (if (best_score s <? match_score L descriptor_k descriptor_kp1)%Z
                then Some c else it_best s)
           ∧ n_processed_corners s' = S (n_processed_corners s)
           ∧ processed_corners_kp1 s'
             = <[index c := true]> (processed_corners_kp1 s)).
Proof.
  intros (predicted & descriptor_k & idxS & idxL & small & large & st_small
          & Hp & Hd & _ & _ & _ & _ & Hsmall & Hlarge & Hs1 & Hrun)
         %search_keypoint_inv.
  apply search_small_window_Some in Hs1 as (threshold & bounds & Ht & Hb & Hloop).
  exists predicted, descriptor_k, threshold, small, large, bounds, st_small.
  do 6 (split; [done|]).
  split; [by apply small_window_loop_scores|].
  split; [|split; [|split]].
  - intros j. split.
    + intros Hj.
      apply (window_loop_flags kdescriptorSizeBytes SmallWindow) with (j := j)
        in Hloop as [Hset0|(c & Hc & Hidx & Hcol & Hm)]; [| |done].
      * simpl in Hset0. apply lookup_replicate in Hset0 as [? _]. done.
      * exists c. split; [done|]. split; [done|].
        unfold scored_in_small_window, flag_set.
        rewrite Hcol, bool_decide_eq_false_2 by (rewrite Hm; done). done.
    + intros (c & Hc & <- & Hsc).
      eapply small_window_loop_scored_flagged; [exact Hloop|done|done|].
      simpl. apply length_replicate.
  - intros Hf.
    apply search_large_window_Some in Hrun as [[_ ->]|(Hnf & _)];
      [done|congruence].
  - intros Hf.
    apply search_large_window_Some in Hrun as [[Hf' _]|(_ & bl & Hbl & Hrun)];
      [congruence|].
    exists bl. split; [done|]. simpl in Hrun. split.
    + apply large_window_loop_filter; [apply keeps_processed_refl|done].
    + intros Hnd. by apply large_window_loop_scores.
  - intros sd s c s' Hscore.
    apply score_candidate_Some in Hscore
      as (d & _ & Hd' & _ & Hn & Hpr
          & [(Hlt & _ & Hf & Hbest & Hsc)|(Hle & Hf & Hbest & Hsc)]);
      exists d.
    + assert (Hltb : (best_score s <? match_score L descriptor_k d)%Z = true)
        by by apply Z.ltb_lt.
      rewrite Hltb, orb_true_r. split_and!; try done. lia.
    + assert (Hltb : (best_score s <? match_score L descriptor_k d)%Z = false)
        by by apply Z.ltb_ge.
      rewrite Hltb, orb_false_r. split_and!; try done. lia.
Qed.

End Phases.



(** The search that reaches the large window: the small window scores
    the keypoint in row 45 at the threshold and takes none; of the four
    keypoints of the large window the first is matched before, the second
    is processed, the fourth is outside the columns, and the third is
    scored and taken. *)
Lemma wide_phase_gating_witness :
  let L := 5 in
  let image_height := 100 in
  let md := wide_matching_data in
  let frame_kp1 := wide_frame_kp1 in
  let frame_k := wide_frame_k in
  let matched := wide_matched in
  let i := 0 in
  let st := wide_final_state in
  search_keypoint L image_height md frame_kp1 frame_k matched i = Some st
  ∧ (nearest_corners md image_height (5, 50)%Q = Some [keypoint 5 45 1]
     ∧ near_corners md image_height (5, 50)%Q
       = Some [keypoint 5 35 0; keypoint 5 45 1; keypoint 5 65 2;
               keypoint 40 68 3]
     ∧ search_small_window L md frame_kp1 matched (5, 50)%Q [0; 0; 0; 0; 0]%Z
         [keypoint 5 45 1] = Some wide_small_state
     ∧ found wide_small_state = false
     ∧ List.filter (scored_in_large_window
                      (processed_corners_kp1 wide_small_state) matched
                      (-15, 25)%Z)
         [keypoint 5 35 0; keypoint 5 45 1; keypoint 5 65 2; keypoint 40 68 3]
       = [keypoint 5 65 2])
  ∧ (
    ∃ predicted descriptor_k threshold small large bounds_small st_small,
      predicted_keypoint_positions_kp1 md !! i = Some predicted
      ∧ getDescriptor frame_k i = Some descriptor_k
      ∧ initial_best_score L = Some threshold
      ∧ nearest_corners md image_height predicted = Some small
      ∧ near_corners md image_height predicted = Some large
      ∧ column_bounds kSmallSearchDistance predicted = Some bounds_small
      ∧ for_each (score_candidate L kSmallSearchDistance md frame_kp1 predicted
                    descriptor_k) (initial_search_state md threshold)
          (List.filter (scored_in_small_window matched bounds_small) small)
        = Some st_small
      ∧ (∀ j, processed_corners_kp1 st_small !! j = Some true
              ↔ ∃ c, c ∈ small ∧ index c = j
                     ∧ scored_in_small_window matched bounds_small c = true)
      ∧ (found st_small = true → st = st_small)
      ∧ (found st_small = false →
         ∃ bounds_large,
           column_bounds kLargeSearchDistance predicted = Some bounds_large
           ∧ for_each (large_window_step L md frame_kp1 matched bounds_large
                         predicted descriptor_k) st_small
               (List.filter (scored_in_large_window (processed_corners_kp1 st_small)
                               matched bounds_large) large)
             = Some st
           ∧ (NoDup (map index large) →
              for_each (score_candidate L kLargeSearchDistance md frame_kp1
                          predicted descriptor_k) st_small
                (List.filter (scored_in_large_window
                                (processed_corners_kp1 st_small) matched
                                bounds_large) large)
              = Some st))
      ∧ (∀ search_distance s c s',
           score_candidate L search_distance md frame_kp1 predicted descriptor_k
             s c = Some s' →
           ∃ descriptor_kp1,
             getDescriptor frame_kp1 (index c) = Some descriptor_kp1
             ∧ best_score s'
               = Z.max (best_score s) (match_score L descriptor_k descriptor_kp1)
             ∧ found s'
               = found s
                 || (best_score s <? match_score L descriptor_k descriptor_kp1)%Z
             ∧ it_best s'
               = (if (best_score s <? match_score L descriptor_k descriptor_kp1)%Z
                  then Some c else it_best s)
             ∧ n_processed_corners s' = S (n_processed_corners s)
             ∧ processed_corners_kp1 s'
               = <[index c := true]> (processed_corners_kp1 s))).
Proof.
  intros L image_height md frame_kp1 frame_k matched i st.
  split; [vm_compute; reflexivity|].
  split; [do 4 (split; [vm_compute; reflexivity|]); vm_compute; reflexivity|].
  apply (wide_phase_gating 5 100 wide_matching_data wide_frame_kp1 wide_frame_k
           wide_matched 0 wide_final_state).
  vm_compute. reflexivity.
Defined.

(** The candidate of the large window that scores one bit above the
    threshold, on the data of the search that reaches the large window:
    the candidate of the small window and the candidates before it score
    at most the threshold, 32, and the search ends with it as the best. *)
Lemma large_window_takes_one_bit_above :
  search_keypoint 5 100 wide_matching_data wide_frame_kp1 wide_frame_k
    wide_matched 0 = Some wide_final_state
  ∧ initial_best_score 5 = Some 32%Z
  ∧ NoDup (map index (keypoints_kp1_by_y wide_matching_data))
  ∧ nearest_corners wide_matching_data 100 (5, 50)%Q = Some [keypoint 5 45 1]
  ∧ near_corners wide_matching_data 100 (5, 50)%Q
    = Some ([keypoint 5 35 0; keypoint 5 45 1] ++ keypoint 5 65 2
            :: [keypoint 40 68 3])
  ∧ large_window_candidate wide_matched (5, 50)%Q (keypoint 5 65 2)
  ∧ candidate_score 5 wide_frame_kp1 [0; 0; 0; 0; 0]%Z (keypoint 5 65 2)
    = Some (32 + 1)%Z
  ∧ Forall (candidate_at_most 5 wide_frame_kp1 wide_matched (5, 50)%Q
              [0; 0; 0; 0; 0]%Z 32) [keypoint 5 45 1]
  ∧ Forall (large_candidate_at_most 5 wide_frame_kp1 wide_matched (5, 50)%Q
              [0; 0; 0; 0; 0]%Z 32) [keypoint 5 35 0; keypoint 5 45 1]
  ∧ Forall (large_candidate_at_most 5 wide_frame_kp1 wide_matched (5, 50)%Q
              [0; 0; 0; 0; 0]%Z (32 + 1)) [keypoint 40 68 3]
  ∧ it_best wide_final_state = Some (keypoint 5 65 2).
Proof.
  do 2 (split; [vm_compute; reflexivity|]).
  split; [apply (bool_decide_unpack _); vm_compute; exact I|].
  do 2 (split; [vm_compute; reflexivity|]).
  split; [split; vm_compute; reflexivity|].
  split; [vm_compute; reflexivity|].
  split.
  { repeat constructor. intros _. eexists.
    split; [vm_compute; reflexivity|vm_compute; discriminate]. }
  split.
  { repeat constructor.
    - intros [_ Hm]. vm_compute in Hm. discriminate.
    - intros _. eexists.
      split; [vm_compute; reflexivity|vm_compute; discriminate]. }
  split; [|reflexivity].
  repeat constructor. intros [Hcol _]. vm_compute in Hcol. discriminate.
Qed.

(** ** The counter of processed corners *)

Section ProcessedCounter.
Context `{GyroTrackerConstants}.
Variable kdescriptorSizeBytes : nat.
Local Abbreviation L := kdescriptorSizeBytes.

Lemma count_flags_insert flags : ∀ i,
  flags !! i = Some false →
  count_flags (<[i := true]> flags) = S (count_flags flags).
Proof.
  unfold count_flags.
  induction flags as [|b flags IH]; intros [|i] Hi; simpl in *; try done.
  - injection Hi as ->. reflexivity.
  - destruct b; simpl; by rewrite IH.
Qed.

Lemma count_flags_le flags : count_flags flags ≤ length flags.
Proof. unfold count_flags. apply List.filter_length_le. Qed.

Lemma count_flags_replicate n : count_flags (replicate n false) = 0.
Proof. unfold count_flags. induction n as [|n IH]; simpl; done. Qed.

(** Scoring a candidate whose flag is not set keeps the counter equal to
    the number of flags. *)
Lemma score_candidate_count sd md frame_kp1 predicted descriptor_k st c st' :
  score_candidate L sd md frame_kp1 predicted descriptor_k st c = Some st' →
  processed_corners_kp1 st !! index c = Some false →
  n_processed_corners st = count_flags (processed_corners_kp1 st) →
  n_processed_corners st' = count_flags (processed_corners_kp1 st').
Proof.
  intros Hrun Hflag Hcount.
  apply score_candidate_Some in Hrun as (d & _ & _ & _ & Hn & Hp & _).
  rewrite Hn, Hp, count_flags_insert by done. by rewrite Hcount.
Qed.

Lemma large_window_loop_count md frame_kp1 matched bounds predicted descriptor_k
    corners st st' :
  for_each (large_window_step L md frame_kp1 matched bounds predicted
              descriptor_k) st corners = Some st' →
  n_processed_corners st = count_flags (processed_corners_kp1 st) →
  n_processed_corners st' = count_flags (processed_corners_kp1 st').
Proof.
  intros Hrun Hcount. revert Hcount Hrun.
  apply (for_each_invariant
           (λ s, n_processed_corners s = count_flags (processed_corners_kp1 s))).
  intros s c s' _ Hs Hstep.
  apply large_window_step_Some in Hstep as [->|(_ & Hp & _ & Hstep)]; [done|].
  by eapply score_candidate_count.
Qed.

Lemma small_window_loop_count md frame_kp1 matched bounds predicted descriptor_k
    corners : ∀ st st',
  NoDup (map index corners) →
  length (processed_corners_kp1 st) = num_points_kp1 md →
  (∀ c, c ∈ corners → processed_corners_kp1 st !! index c ≠ Some true) →
  n_processed_corners st = count_flags (processed_corners_kp1 st) →
  for_each (small_window_step L md frame_kp1 matched bounds predicted
              descriptor_k) st corners = Some st' →
  n_processed_corners st' = count_flags (processed_corners_kp1 st').
Proof.
  induction corners as [|c corners IH];
    intros st st' Hnd Hlen Hfresh Hcount Hrun; simpl in Hrun.
  - by injection Hrun as <-.
  - destruct (small_window_step L md frame_kp1 matched bounds predicted
                descriptor_k st c) as [st1|] eqn:Hstep; simpl in Hrun; [|done].
    simpl in Hnd. apply NoDup_cons in Hnd as [Hc Hnd].
    apply small_window_step_Some in Hstep as [[_ ->]|(_ & _ & Hstep)].
    + apply (IH st st'); try done. intros c' Hc'. apply Hfresh. by right.
    + pose proof Hstep as Hstep'.
      apply score_candidate_Some in Hstep' as (d & Hidx & _ & _ & _ & Hp & _).
      assert (Hflag : processed_corners_kp1 st !! index c = Some false).
      { destruct (lookup_lt_is_Some_2 (processed_corners_kp1 st) (index c))
          as [b Hb]; [lia|].
        destruct b; [|done]. exfalso. apply (Hfresh c); [by left|done]. }
      apply (IH st1 st'); try done.
      * rewrite Hp. by rewrite length_insert.
      * intros c' Hc'. rewrite Hp. rewrite list_lookup_insert_ne.
        -- apply Hfresh. by right.
        -- intros Heq. apply Hc. rewrite Heq.
           apply list_elem_of_In, in_map. by apply list_elem_of_In.
      * by eapply score_candidate_count.
Qed.

(** X13. When the keypoints of frame k+1 have pairwise distinct indices,
    no keypoint is scored twice for one keypoint of frame k: after both
    windows the counter [n_processed_corners] is the number of flags set
    in [processed_corners_kp1], hence at most the number of keypoints of
    frame k+1. *)
Theorem processed_counter_counts_flags (image_height : nat)
    (md : GyroTrackerMatchingData) (frame_kp1 frame_k : VisualFrame)
    (matched : list bool) (i : nat) (st : SearchState) :
  NoDup (map index (keypoints_kp1_by_y md)) →
  search_keypoint L image_height md frame_kp1 frame_k matched i = Some st →
  n_processed_corners st = count_flags (processed_corners_kp1 st)
  ∧ n_processed_corners st ≤ num_points_kp1 md.
Proof.
  intros Hnd (predicted & descriptor_k & idxS & idxL & small & large & st1
              & _ & _ & _ & _ & _ & _ & Hsmall & Hlarge & Hs1 & Hrun)
             %search_keypoint_inv.
  apply search_small_window_Some in Hs1 as (threshold & bounds & _ & _ & Hs1).
  simpl in Hs1.
  assert (H1 : n_processed_corners st1 = count_flags (processed_corners_kp1 st1)).
  { eapply small_window_loop_count; [|..|exact Hs1].
    - apply nearest_corners_Some in Hsmall as (idx & _ & Hw).
      eapply sublist_NoDup_index; [|exact Hnd].
      by eapply window_corners_sublist.
    - simpl. apply length_replicate.
    - intros c _. simpl. intros Hc. apply lookup_replicate in Hc as [? _]. done.
    - simpl. by rewrite count_flags_replicate. }
  assert (Hlen1 : length (processed_corners_kp1 st1) = num_points_kp1 md).
  { apply (keeps_processed_loop kdescriptorSizeBytes SmallWindow) in Hs1
      as [Hl1 _].
    simpl in Hl1. by rewrite length_replicate in Hl1. }
  apply search_large_window_Some in Hrun as [[_ ->]|(_ & bl & _ & Hrun)].
  - split; [done|]. rewrite H1, <- Hlen1. apply count_flags_le.
  - pose proof Hrun as Hkeep.
    apply keeps_processed_loop in Hkeep as [Hl _].
    simpl in Hrun. apply large_window_loop_count in Hrun; [|done].
    split; [done|]. rewrite Hrun, <- Hlen1, <- Hl. apply count_flags_le.
Qed.

End ProcessedCounter.

Lemma processed_counter_counts_flags_witness :
  search_keypoint 5 100 wide_matching_data wide_frame_kp1 wide_frame_k
    wide_matched 0 = Some wide_final_state
  ∧ n_processed_corners wide_final_state = 2
  ∧ n_processed_corners wide_final_state
    = count_flags (processed_corners_kp1 wide_final_state)
  ∧ n_processed_corners wide_final_state ≤ num_points_kp1 wide_matching_data.
Proof.
  split; [vm_compute; reflexivity|]. split; [reflexivity|].
  apply (processed_counter_counts_flags 5 100 wide_matching_data wide_frame_kp1
           wide_frame_k wide_matched 0 wide_final_state).
  - apply (bool_decide_unpack _). vm_compute. exact I.
  - vm_compute. reflexivity.
Defined.

(** ** Where the matched keypoints lie *)

Section SearchArea.
Context `{GyroTrackerConstants}.
Variable kdescriptorSizeBytes : nat.
Local Abbreviation L := kdescriptorSizeBytes.

Lemma within_search_area_step w md frame_kp1 matched bounds predicted
    descriptor_k st c st' :
  column_bounds (window_distance w) predicted = Some bounds →
  window_step L w md frame_kp1 matched bounds predicted descriptor_k st c
  = Some st' →
  (∀ b, it_best st = Some b → within_search_area predicted b) →
  ∀ b, it_best st' = Some b → within_search_area predicted b.
Proof.
  intros Hbounds Hstep Hinv b Hb.
  apply window_step_Some in Hstep as [->|(Hcol & _ & Hstep)]; [auto|].
  apply score_candidate_Some in Hstep
    as (d & _ & _ & _ & _ & _ & [(_ & Hn & _ & Hbest & _)|(_ & _ & Hbest & _)]).
  - rewrite Hbest in Hb. injection Hb as <-.
    assert (Hin : inside_columns (window_distance w) predicted c = true).
    { rewrite (inside_columns_Some _ _ _ _ Hbounds), Hcol. done. }
    destruct w; [by left|by right].
  - apply Hinv. congruence.
Qed.

Lemma within_search_area_loop w md frame_kp1 matched bounds predicted
    descriptor_k corners st st' :
  column_bounds (window_distance w) predicted = Some bounds →
  for_each (window_step L w md frame_kp1 matched bounds predicted descriptor_k)
    st corners = Some st' →
  (∀ b, it_best st = Some b → within_search_area predicted b) →
  ∀ b, it_best st' = Some b → within_search_area predicted b.
Proof.
  intros Hbounds Hrun Hinv. revert Hinv Hrun.
  apply (for_each_invariant
           (λ s, ∀ b, it_best s = Some b → within_search_area predicted b)).
  intros s c s' _ Hs Hstep. by eapply within_search_area_step.
Qed.

Lemma search_keypoint_within image_height md frame_kp1 frame_k matched i st :
  search_keypoint L image_height md frame_kp1 frame_k matched i = Some st →
  ∃ predicted,
    predicted_keypoint_positions_kp1 md !! i = Some predicted
    ∧ ∀ b, it_best st = Some b → within_search_area predicted b.
Proof.
  intros (predicted & descriptor_k & idxS & idxL & small & large & st1
          & Hp & _ & _ & _ & _ & _ & _ & _ & Hs1 & Hrun)%search_keypoint_inv.
  exists predicted. split; [done|].
  apply search_small_window_Some in Hs1 as (threshold & bounds & _ & Hb & Hs1).
  assert (H1 : ∀ b, it_best st1 = Some b → within_search_area predicted b).
  { refine (within_search_area_loop SmallWindow _ _ _ _ _ _ _ _ _ Hb Hs1 _).
    simpl. done. }
  apply search_large_window_Some in Hrun as [[_ ->]|(_ & bl & Hbl & Hrun)];
    [done|].
  exact (within_search_area_loop LargeWindow _ _ _ _ _ _ _ _ _ Hbl Hrun H1).
Qed.

(** X14. Every record of a call pairs a keypoint of frame k with a
    keypoint of frame k+1 that lies inside the columns of one of the two
    windows around the predicted position of the former, at a distance
    from that position below twice the search distance of the window:
    the [CHECK] on the distance of an accepted candidate has passed. *)
Theorem matches_within_search_area (camera_ : Camera)
    (md : GyroTrackerMatchingData) (frame_kp1 frame_k : VisualFrame)
    (matches : list MatchWithScore) (m : MatchWithScore) :
  matchFeatures L camera_ md frame_kp1 frame_k = Some matches →
  m ∈ matches →
  ∃ c predicted,
    c ∈ keypoints_kp1_by_y md
    ∧ index_kp1 m = index c
    ∧ predicted_keypoint_positions_kp1 md !! index_k m = Some predicted
    ∧ within_search_area predicted c.
Proof.
  intros Hrun Hm.
  apply (matchFeatures_invariant kdescriptorSizeBytes (λ _ st,
           Forall (λ m, ∃ c predicted,
             c ∈ keypoints_kp1_by_y md
             ∧ index_kp1 m = index c
             ∧ predicted_keypoint_positions_kp1 md !! index_k m = Some predicted
             ∧ within_search_area predicted c) (snd st))) in Hrun
    as (flags & Hall).
  - rewrite Forall_forall in Hall. by apply Hall.
  - constructor.
  - intros i [flags ms] st' _ Hall Hstep. simpl in Hall.
    apply match_keypoint_Some in Hstep
      as (search & Hsearch & [[_ ->]|(c & Hf & Hb & _ & ->)]); simpl; [done|].
    apply Forall_app. split; [done|]. constructor; [|constructor]. simpl.
    pose proof Hsearch as Hsearch'.
    apply search_keypoint_within in Hsearch as (predicted & Hp & Hw).
    apply search_keypoint_Some in Hsearch' as (dk & threshold & _ & _ & _ & Hinv).
    unfold search_invariant in Hinv. rewrite Hf in Hinv.
    destruct Hinv as (c' & d & Hb' & [Hc' _] & _).
    assert (c' = c) as -> by congruence.
    exists c, predicted. split_and!; auto.
Qed.

End SearchArea.

Lemma matches_within_search_area_witness :
  ∃ c predicted,
    c ∈ keypoints_kp1_by_y example_matching_data
    ∧ 2 = index c
    ∧ predicted_keypoint_positions_kp1 example_matching_data !! 0
      = Some predicted
    ∧ within_search_area predicted c.
Proof.
  apply (matches_within_search_area 4 example_camera example_matching_data
           example_frame_kp1 example_frame_k example_matches
           {| index_kp1 := 2; index_k := 0; score := 0 |}).
  - vm_compute. reflexivity.
  - unfold example_matches. apply list_elem_of_here.
Defined.

(** ** Calls that abort, calls without keypoints *)

Section Edges.
Context `{GyroTrackerConstants}.
Variable kdescriptorSizeBytes : nat.
Local Abbreviation L := kdescriptorSizeBytes.

(** With an image height of zero the clamped rows are -1 and the [CHECK]s
    on them fail. *)
Lemma check_rows_height_0 predicted d idx :
  search_rows 0 predicted d = Some idx → check_rows 0 idx = None.
Proof.
  intros (-> & _ & _)%search_rows_Some.
  unfold check_rows, clamp, image_height_minus_1. cbn [fst snd].
  set (t0 := truncate _). set (t1 := truncate _).
  replace (Z.min (Z.max t0 0) (Z.of_nat 0 - 1)) with (-1)%Z by lia.
  replace (Z.min (Z.max t1 0) (Z.of_nat 0 - 1)) with (-1)%Z by lia.
  reflexivity.
Qed.

Lemma search_keypoint_height_0 md frame_kp1 frame_k flags i :
  search_keypoint L 0 md frame_kp1 frame_k flags i = None.
Proof.
  unfold search_keypoint.
  destruct (predicted_keypoint_positions_kp1 md !! i) as [p|];
    cbn [mbind option_bind]; [|done].
  destruct (getDescriptor frame_k i) as [dk|]; cbn [mbind option_bind]; [|done].
  destruct (search_rows 0 p kSmallSearchDistance) as [idxS|] eqn:HS;
    cbn [mbind option_bind]; [|done].
  destruct (search_rows 0 p kLargeSearchDistance) as [idxL|];
    cbn [mbind option_bind]; [|done].
  by rewrite (check_rows_height_0 _ _ _ HS).
Qed.

(** X3. For a camera with an image height of zero, a call aborts as soon
    as frame k has a keypoint. *)
Theorem matchFeatures_height_0 (camera_ : Camera) (md : GyroTrackerMatchingData)
    (frame_kp1 frame_k : VisualFrame) :
  imageHeight camera_ = 0 → 0 < num_points_k md →
  matchFeatures L camera_ md frame_kp1 frame_k = None.
Proof.
  intros HH Hn. unfold matchFeatures. rewrite HH.
  destruct (CHECK (length (corner_row_LUT md 0) =? 0)) as [[]|]; simpl; [|done].
  destruct (CHECK (L * 8 <=? 512)) as [[]|]; simpl; [|done].
  destruct (num_points_k md) as [|n]; [lia|]. simpl.
  unfold match_keypoint at 1. by rewrite search_keypoint_height_0.
Qed.



End Edges.


Lemma matchFeatures_height_0_witness :
  matchFeatures 4 {| getId := 1; imageHeight := 0 |} example_matching_data
    example_frame_kp1 example_frame_k = None.
Proof.
  apply (matchFeatures_height_0 4 {| getId := 1; imageHeight := 0 |}
           example_matching_data example_frame_kp1 example_frame_k).
  - reflexivity.
  - cbn. lia.
Defined.


(** ** The windows of an arbitrary prediction *)

Section Windows.
Context `{GyroTrackerConstants}.

(** The range of a window that exists is the one between the cursors of
    its two rows. *)
Lemma window_corners_Some md image_height idx corners :
  window_corners md image_height (corner_row_LUT md image_height) idx
  = Some corners →
  let top := Z.to_nat (Z.min (fst idx) (image_height_minus_1 image_height)) in
  let bottom :=
    Z.to_nat (Z.min (snd idx + 1) (image_height_minus_1 image_height)) in
  cursor (keypoints_kp1_by_y md) top ≤ cursor (keypoints_kp1_by_y md) bottom
  ∧ corners
    = take (cursor (keypoints_kp1_by_y md) bottom
            - cursor (keypoints_kp1_by_y md) top)
        (drop (cursor (keypoints_kp1_by_y md) top) (keypoints_kp1_by_y md)).
Proof.
  intros Hrun top bottom. unfold window_corners, iterator_range in Hrun.
  fold top bottom in Hrun.
  destruct (corner_row_LUT md image_height !! top) as [b|] eqn:Hb;
    simpl in Hrun; [|done].
  destruct (corner_row_LUT md image_height !! bottom) as [e|] eqn:He;
    simpl in Hrun; [|done].
  destruct (CHECK (b <=? e)) as [[]|] eqn:Hbe; simpl in Hrun; [|done].
  destruct (CHECK (e <=? length (keypoints_kp1_by_y md))) as [[]|];
    simpl in Hrun; [|done].
  injection Hrun as <-. apply CHECK_Some, Nat.leb_le in Hbe.
  pose proof (lookup_lt_Some _ _ _ Hb) as Hlb.
  pose proof (lookup_lt_Some _ _ _ He) as Hle.
  rewrite corner_row_LUT_length in Hlb, Hle.
  rewrite corner_row_LUT_lookup in Hb, He by done.
  injection Hb as <-. injection He as <-. done.
Qed.


Lemma take_drop_split {A : Type} (l : list A) b m e :
  b ≤ m → m ≤ e →
  take (e - b) (drop b l) = take (m - b) (drop b l) ++ take (e - m) (drop m l).
Proof.
  intros Hbm Hme. replace (e - b) with ((m - b) + (e - m)) by lia.
  rewrite <- take_take_drop, drop_drop. do 3 f_equal. lia.
Qed.

(** The rows of the large window enclose those of the small one. *)
Lemma search_rows_nested image_height p d D idx IDX :
  (d ≤ D)%Z →
  search_rows image_height p d = Some idx →
  search_rows image_height p D = Some IDX →
  (fst IDX ≤ fst idx)%Z ∧ (snd idx ≤ snd IDX)%Z.
Proof.
  intros HdD (-> & _ & _)%search_rows_Some (-> & _ & _)%search_rows_Some.
  unfold clamp. cbn [fst snd].
  assert (HQ : (inject_Z d <= inject_Z D)%Q) by by rewrite <- Zle_Qle.
  assert (H0 : (truncate (snd p + (1 # 2) - inject_Z D)
                ≤ truncate (snd p + (1 # 2) - inject_Z d))%Z)
    by (apply truncate_mono; lra).
  assert (H1 : (truncate (snd p + (1 # 2) + inject_Z d)
                ≤ truncate (snd p + (1 # 2) + inject_Z D))%Z)
    by (apply truncate_mono; lra).
  lia.
Qed.

(** X6. When the small search distance is at most the large one, the
    range of the small window is a contiguous part of the range of the
    large window: every candidate of the small window is met again in the
    large one. *)
Theorem small_window_inside_large (md : GyroTrackerMatchingData)
    (image_height : nat) (predicted : Q * Q) (small large : list KeypointData) :
  (kSmallSearchDistance ≤ kLargeSearchDistance)%Z →
  nearest_corners md image_height predicted = Some small →
  near_corners md image_height predicted = Some large →
  ∃ before after, large = before ++ small ++ after.
Proof.
  intros Hd (idxS & HS & Hsmall)%nearest_corners_Some
    (idxL & HL & Hlarge)%near_corners_Some.
  apply window_corners_Some in Hsmall as [Hs ->].
  apply window_corners_Some in Hlarge as [Hl ->].
  destruct (search_rows_nested image_height predicted _ _ _ _ Hd HS HL)
    as [Ht Hb].
  set (kps := keypoints_kp1_by_y md) in *.
  set (Hm1 := image_height_minus_1 image_height) in *.
  set (tS := Z.to_nat (Z.min (fst idxS) Hm1)) in *.
  set (bS := Z.to_nat (Z.min (snd idxS + 1) Hm1)) in *.
  set (tL := Z.to_nat (Z.min (fst idxL) Hm1)) in *.
  set (bL := Z.to_nat (Z.min (snd idxL + 1) Hm1)) in *.
  assert (HtLS : cursor kps tL ≤ cursor kps tS) by (apply cursor_mono; lia).
  assert (HbSL : cursor kps bS ≤ cursor kps bL) by (apply cursor_mono; lia).
  exists (take (cursor kps tS - cursor kps tL) (drop (cursor kps tL) kps)),
         (take (cursor kps bL - cursor kps bS) (drop (cursor kps bS) kps)).
  rewrite (take_drop_split kps (cursor kps tL) (cursor kps tS) (cursor kps bL))
    by lia.
  f_equal. apply take_drop_split; lia.
Qed.

(** X7. On keypoints sorted by row, the range of a window is exactly the
    set of keypoints whose row lies between the two rows of the window,
    the first included and the second excluded. *)
Theorem window_corners_exact (md : GyroTrackerMatchingData)
    (image_height : nat) (idx : Z * Z) (corners : list KeypointData)
    (c : KeypointData) :
  sorted_by_row (keypoints_kp1_by_y md) →
  window_corners md image_height (corner_row_LUT md image_height) idx
  = Some corners →
  let top := Z.to_nat (Z.min (fst idx) (image_height_minus_1 image_height)) in
  let bottom :=
    Z.to_nat (Z.min (snd idx + 1) (image_height_minus_1 image_height)) in
  c ∈ corners
  ↔ c ∈ keypoints_kp1_by_y md
    ∧ (inject_Z (Z.of_nat top) <= row_of c)%Q
    ∧ (row_of c < inject_Z (Z.of_nat bottom))%Q.
Proof.
  intros Hsorted Hrun top bottom.
  apply window_corners_Some in Hrun as [_ ->]. fold top bottom. split.
  - by apply window_range_rows.
  - intros (Hc & Htop & Hbottom).
    apply list_elem_of_lookup in Hc as [j Hj].
    by eapply window_range_elem.
Qed.

End Windows.


Lemma small_window_inside_large_witness :
  ∃ before after,
    [keypoint 5 35 0; keypoint 5 45 1; keypoint 5 65 2; keypoint 40 68 3]
    = before ++ [keypoint 5 45 1] ++ after.
Proof.
  apply (small_window_inside_large wide_matching_data 100 (5, 50)%Q
           [keypoint 5 45 1]
           [keypoint 5 35 0; keypoint 5 45 1; keypoint 5 65 2;
            keypoint 40 68 3]).
  - cbn. lia.
  - vm_compute. reflexivity.
  - vm_compute. reflexivity.
Defined.

Lemma window_corners_exact_witness :
  let idx := (40, 60)%Z in
  let top := Z.to_nat (Z.min (fst idx) (image_height_minus_1 100)) in
  let bottom := Z.to_nat (Z.min (snd idx + 1) (image_height_minus_1 100)) in
  search_rows 100 (5, 50)%Q 10 = Some idx
  ∧ (keypoint 5 52 0 ∈ [keypoint 5 52 0]
     ↔ keypoint 5 52 0 ∈ keypoints_kp1_by_y example_matching_data
       ∧ (inject_Z (Z.of_nat top) <= row_of (keypoint 5 52 0))%Q
       ∧ (row_of (keypoint 5 52 0) < inject_Z (Z.of_nat bottom))%Q).
Proof.
  intros idx top bottom. split; [vm_compute; reflexivity|].
  apply (window_corners_exact example_matching_data 100 idx [keypoint 5 52 0]
           (keypoint 5 52 0)).
  - unfold sorted_by_row. simpl. unfold example_keypoints_kp1. sorted_rows.
  - vm_compute. reflexivity.
Defined.

(** ** The example call *)

Lemma example_call :
  matchFeatures 4 example_camera example_matching_data example_frame_kp1
    example_frame_k = Some example_matches.
Proof. vm_compute. reflexivity. Qed.

Lemma matchFeatures_injective_witness :
  NoDup (map index_kp1 example_matches) ∧ NoDup (map index_k example_matches).
Proof.
  apply (matchFeatures_injective 4 example_camera example_matching_data
           example_frame_kp1 example_frame_k example_matches).
  vm_compute. reflexivity.
Defined.

Lemma matchFeatures_placeholder_score_witness :
  score {| index_kp1 := 2; index_k := 0; score := 0 |} = 0%Q
  ∧ ∃ c descriptor_k descriptor_kp1 threshold,
      c ∈ keypoints_kp1_by_y example_matching_data
      ∧ 2 = index c
      ∧ 0 < num_points_k example_matching_data
      ∧ getDescriptor example_frame_k 0 = Some descriptor_k
      ∧ getDescriptor example_frame_kp1 2 = Some descriptor_kp1
      ∧ initial_best_score 4 = Some threshold
      ∧ (threshold < match_score 4 descriptor_k descriptor_kp1)%Z
      ∧ ((0 <= kMatchingThresholdBitsRatio)%Q →
         ¬ (0 == inject_Z (match_score 4 descriptor_k descriptor_kp1))%Q).
Proof.
  apply (matchFeatures_placeholder_score 4 example_camera example_matching_data
           example_frame_kp1 example_frame_k example_matches
           {| index_kp1 := 2; index_k := 0; score := 0 |}).
  - vm_compute. reflexivity.
  - unfold example_matches. apply list_elem_of_here.
Defined.

Lemma last_row_keypoint_never_matched_witness :
  (∀ predicted corners,
     nearest_corners example_matching_data 100 predicted = Some corners
     ∨ near_corners example_matching_data 100 predicted = Some corners →
     keypoint 5 99 1 ∉ corners)
  ∧ 1 ∉ map index_kp1 example_matches.
Proof.
  apply (last_row_keypoint_never_matched 4 example_camera example_matching_data
           example_frame_kp1 example_frame_k example_matches (keypoint 5 99 1)).
  - vm_compute. reflexivity.
  - apply (bool_decide_unpack _). vm_compute. exact I.
  - apply list_elem_of_In. simpl. auto.
  - vm_compute. discriminate.
Defined.

(** ** The comparator as a distance *)

Section ComparatorDistance.
Context `{GyroTrackerConstants}.

Lemma hamming_byte_comm x y d i : hamming_byte x y d i = hamming_byte y x d i.
Proof. unfold hamming_byte. by rewrite Z.lxor_comm. Qed.

(** X8. The comparator is symmetric, whatever the two views hold. *)
Theorem hammingDistance512_comm (L : nat) (x y : Descriptor) :
  hammingDistance512 L x y = hammingDistance512 L y x.
Proof.
  unfold hammingDistance512. generalize (seq 0 L) 0%Z. intros l.
  induction l as [|i l IH]; intros d; simpl; [done|].
  by rewrite hamming_byte_comm, IH.
Qed.

(** X9. Two descriptors of [L] bytes are at distance 0 exactly when they
    are equal. *)
Theorem hammingDistance512_zero_iff (L : nat) (x y : Descriptor) :
  length x = L → length y = L → Forall is_byte x → Forall is_byte y →
  hammingDistance512 L x y = 0%Z ↔ x = y.
Proof.
  intros Hlx Hly Hx Hy. split.
  - intros Hz. destruct (decide (x = y)) as [|Hne]; [done|].
    pose proof (hammingDistance512_distinct L x y Hlx Hly Hx Hy Hne). lia.
  - intros ->. apply hammingDistance512_self.
Qed.


End ComparatorDistance.

Lemma hammingDistance512_zero_iff_witness :
  hammingDistance512 2 [179; 0]%Z [76; 255]%Z = 0%Z
  ↔ [179; 0]%Z = [76; 255]%Z.
Proof.
  apply (hammingDistance512_zero_iff 2 [179; 0]%Z [76; 255]%Z);
    try reflexivity;
    repeat (apply List.Forall_cons; [unfold is_byte; lia|]); apply List.Forall_nil.
Defined.

(** ** The table on keypoints in any order *)

Section TableShape.

(** X15. Whatever the order of the keypoints of frame k+1, the entries of
    the table are offsets into their vector that never decrease, entry
    [r] is at most the number of keypoints with a row below [r], and every
    keypoint before that offset has a row below [r]: the table may count
    too few keypoints of an unsorted vector, never too many. *)
Theorem corner_row_LUT_offsets (md : GyroTrackerMatchingData) (H r r' : nat) :
  r ≤ r' → r' < H →
  ∃ a b,
    corner_row_LUT md H !! r = Some a
    ∧ corner_row_LUT md H !! r' = Some b
    ∧ a ≤ b ∧ b ≤ num_points_kp1 md
    ∧ a ≤ count_rows_below r (keypoints_kp1_by_y md)
    ∧ Forall (λ k, (row_of k < inject_Z (Z.of_nat r))%Q)
        (take a (keypoints_kp1_by_y md)).
Proof.
  intros Hr Hr'.
  exists (cursor (keypoints_kp1_by_y md) r), (cursor (keypoints_kp1_by_y md) r').
  destruct (cursor_is_ok (keypoints_kp1_by_y md) r) as [Hlen Hall].
  destruct (cursor_is_ok (keypoints_kp1_by_y md) r') as [Hlen' _].
  split_and!.
  - apply corner_row_LUT_lookup. lia.
  - by apply corner_row_LUT_lookup.
  - by apply cursor_mono.
  - exact Hlen'.
  - rewrite <- (take_drop (cursor (keypoints_kp1_by_y md) r)
                  (keypoints_kp1_by_y md)) at 2.
    rewrite count_rows_below_app, (count_rows_below_all _ _ Hall), length_take.
    lia.
  - exact Hall.
Qed.

End TableShape.

Lemma corner_row_LUT_offsets_witness :
  ∃ a b,
    corner_row_LUT example_matching_data 100 !! 10 = Some a
    ∧ corner_row_LUT example_matching_data 100 !! 60 = Some b
    ∧ a ≤ b ∧ b ≤ num_points_kp1 example_matching_data
    ∧ a ≤ count_rows_below 10 (keypoints_kp1_by_y example_matching_data)
    ∧ Forall (λ k, (row_of k < inject_Z (Z.of_nat 10))%Q)
        (take a (keypoints_kp1_by_y example_matching_data)).
Proof.
  apply (corner_row_LUT_offsets example_matching_data 100 10 60); lia.
Defined.

(** ** What a record says of the two frames *)

Section Records.
Context `{GyroTrackerConstants}.
Variable kdescriptorSizeBytes : nat.
Local Abbreviation L := kdescriptorSizeBytes.


(** X17. A call that returns has found a descriptor of frame k for every
    keypoint of frame k: on a frame k without descriptors, or with fewer
    descriptors than keypoints, the call does not return. *)
Theorem matchFeatures_reads_every_descriptor (camera_ : Camera)
    (md : GyroTrackerMatchingData) (frame_kp1 frame_k : VisualFrame)
    (matches : list MatchWithScore) (i : nat) :
  matchFeatures L camera_ md frame_kp1 frame_k = Some matches →
  i < num_points_k md →
  hasDescriptors frame_k = true ∧ is_Some (getDescriptor frame_k i).
Proof.
  intros Hrun Hi.
  apply (matchFeatures_invariant kdescriptorSizeBytes (λ n _,
           ∀ j, j < n → is_Some (getDescriptor frame_k j))) in Hrun
    as (_ & Hall).
  - pose proof (Hall i Hi) as [d Hd]. split; [|by exists d].
    unfold hasDescriptors. apply bool_decide_eq_true.
    unfold getDescriptor in Hd. destruct (descriptors_ frame_k); [done|].
    simpl in Hd. done.
  - intros j Hj. lia.
  - intros n [flags ms] st' _ Hall Hstep j Hj.
    apply match_keypoint_Some in Hstep as (search & Hsearch & _).
    apply search_keypoint_Some in Hsearch as (dk & t & _ & Hdk & _).
    destruct (decide (j = n)) as [->|]; [by exists dk|]. apply Hall. lia.
Qed.

End Records.


Lemma matchFeatures_reads_every_descriptor_witness :
  hasDescriptors example_frame_k = true
  ∧ is_Some (getDescriptor example_frame_k 2).
Proof.
  apply (matchFeatures_reads_every_descriptor 4 example_camera
           example_matching_data example_frame_kp1 example_frame_k
           example_matches 2).
  - vm_compute. reflexivity.
  - vm_compute. lia.
Defined.
